(** * Ngram_Language_Model (ex1.py): a shallow embedding and its properties

    The Python class [Ngram_Language_Model] is embedded method by method.

    - A Python [str] is a list of characters; a token list is a list of
      such strings.
    - A Python [dict] is an association list in insertion order (the order
      [contexts_prob] and [random.choices] rely on).  A [defaultdict(int)]
      is a dict whose [__getitem__] inserts the integer [0] under a missing
      key, so the values of a level table are either inner dicts or ints.
    - Methods that touch the tables run in a state-and-exception monad over
      the object ([self]) and the state of the [random] module.
    - True division of two ints is kept as the exact rational ([Q]);
      [math.log] and float addition are kept symbolic ([flt]) and read as
      real numbers by [flt_R]. *)

From Stdlib Require Import String.
From Stdlib Require Import List ZArith QArith Qround Ascii Bool Lia.
From Stdlib Require Import Reals Qreals.
Import ListNotations.

(* ================================================================== *)
(** ** Strings *)

Definition str : Type := list ascii.

Definition lit (x : String.string) : str := String.list_ascii_of_string x.
Arguments lit x%_string.

Fixpoint str_eqb (a b : str) : bool :=
  match a, b with
  | [], [] => true
  | x :: a', y :: b' => Ascii.eqb x y && str_eqb a' b'
  | _, _ => false
  end.

(** [a.startswith(b)] *)
Fixpoint startswith (a b : str) : bool :=
  match b, a with
  | [], _ => true
  | y :: b', x :: a' => Ascii.eqb x y && startswith a' b'
  | _ :: _, [] => false
  end.

Definition space : ascii := " "%char.

(** [text.split(sep)] for a one-character separator: never the empty list. *)
Fixpoint split_on (sep : ascii) (text : str) : list str :=
  match text with
  | [] => [[]]
  | c :: rest =>
      if Ascii.eqb c sep then [] :: split_on sep rest
      else match split_on sep rest with
           | w :: ws => (c :: w) :: ws
           | [] => [[c]]
           end
  end.

(** [sep.join(tokens)] for a one-character separator. *)
Fixpoint join_with (sep : ascii) (tokens : list str) : str :=
  match tokens with
  | [] => []
  | [t] => t
  | t :: rest => t ++ sep :: join_with sep rest
  end.

(** [l[a:b]] for non-negative [a] and [b]; Python clamps both to [len(l)]. *)
Definition slice {A} (a b : nat) (l : list A) : list A :=
  firstn (b - a) (skipn a l).

(** [l[:z]] for any integer [z]. *)
Definition py_prefix {A} (z : Z) (l : list A) : list A :=
  if (z <? 0)%Z then firstn (length l - Z.to_nat (- z)) l
  else firstn (Z.to_nat z) l.

(** [l[z:]] for any integer [z]. *)
Definition py_suffix {A} (z : Z) (l : list A) : list A :=
  if (z <? 0)%Z then skipn (length l - Z.to_nat (- z)) l
  else skipn (Z.to_nat z) l.

(** [range(hi, lo, -1)] restricted to non-negative values: hi, hi-1, ..., lo+1,
    where [first = lo + 1] is the last value produced and [stop = hi + 1]. *)
Definition range_down (stop first : nat) : list nat :=
  rev (seq first (stop - first)).

(* ================================================================== *)
(** ** Dictionaries *)

Definition Dict (V : Type) : Type := list (str * V).

Fixpoint dict_get {V} (k : str) (d : Dict V) : option V :=
  match d with
  | [] => None
  | (k', v) :: rest => if str_eqb k k' then Some v else dict_get k rest
  end.

(** [k in d] *)
Definition dict_mem {V} (k : str) (d : Dict V) : bool :=
  match dict_get k d with Some _ => true | None => false end.

(** [d[k] = v]: an existing key keeps its place, a new key goes last. *)
Fixpoint dict_set {V} (k : str) (v : V) (d : Dict V) : Dict V :=
  match d with
  | [] => [(k, v)]
  | (k', v') :: rest =>
      if str_eqb k k' then (k', v) :: rest else (k', v') :: dict_set k v rest
  end.

Definition dict_keys {V} (d : Dict V) : list str := map fst d.
Definition dict_values {V} (d : Dict V) : list V := map snd d.

(** [sum(xs)] over ints *)
Definition zsum (xs : list Z) : Z := fold_left Z.add xs 0%Z.

(** [sum(xs)] over exact quotients *)
Definition qsum (xs : list Q) : Q := fold_left Qplus xs 0%Q.

(* ================================================================== *)
(** ** Exceptions, floats *)

Inductive Exn : Type :=
| KeyError | TypeError | ZeroDivisionError | ValueError | IndexError
| AttributeError.

Inductive Outcome (A : Type) : Type :=
| Ret (a : A)
| Raise (e : Exn).
Arguments Ret {A} a.
Arguments Raise {A} e.

(** [a / b] on ints *)
Definition py_truediv (a b : Z) : Outcome Q :=
  if (b =? 0)%Z then Raise ZeroDivisionError
  else Ret (inject_Z a / inject_Z b)%Q.

(** The floats that [evaluate] builds: the int [0] it starts from, a
    [math.log] of a quotient, and [+]. *)
Inductive flt : Type :=
| Fint (z : Z)
| Fln (q : Q)
| Fadd (a b : flt).

(** [math.log(q)] *)
Definition math_log (q : Q) : Outcome flt :=
  if Qle_bool q 0 then Raise ValueError else Ret (Fln q).

Fixpoint flt_R (x : flt) : R :=
  match x with
  | Fint z => IZR z
  | Fln q => ln (Q2R q)
  | Fadd a b => (flt_R a + flt_R b)%R
  end.

(* ================================================================== *)
(** ** The object and the world *)

(** A value of a level table [context_by_n[k]]: the inner dict
    [{last_gram: count}] the code stores, or the int a [defaultdict(int)]
    makes up for a key read before it was written. *)
Inductive entry : Type :=
| EDict (d : Dict Z)
| EInt (z : Z).

Definition Level : Type := Dict entry.

(** [context_by_n] is the dict [{i: defaultdict(int) for i in range(0, n)}]:
    its keys are always 0 .. len-1, so it is the list of its values. *)
Record Model : Type := mkModel {
  n : Z;
  model_dict : Dict Z;
  use_chars : bool;
  V : option Z;
  context_by_n : option (list Level);
  contexts_prob : list Q
}.

(** State of the [random] module: the uniform numbers it will hand out, and
    how many were taken. *)
Record Rng : Type := mkRng {
  uniform : nat -> Q;
  drawn : nat
}.

Record World : Type := mkWorld {
  self : Model;
  random_state : Rng
}.

Definition M (A : Type) : Type := World -> Outcome A * World.

Definition ret {A} (a : A) : M A := fun w => (Ret a, w).

Definition raise {A} (e : Exn) : M A := fun w => (Raise e, w).

Definition bind {A B} (c : M A) (k : A -> M B) : M B :=
  fun w =>
    match c w with
    | (Ret a, w') => k a w'
    | (Raise e, w') => (Raise e, w')
    end.

Declare Scope py_scope.
Delimit Scope py_scope with py.
Notation "x <- c ;; k" := (bind c (fun x => k))
  (at level 61, c at next level, right associativity) : py_scope.
Notation "' pat <- c ;; k" := (bind c (fun x => match x with pat => k end))
  (at level 61, pat pattern, c at next level, right associativity) : py_scope.
Notation "c ;;; k" := (bind c (fun _ => k))
  (at level 61, right associativity) : py_scope.
Open Scope py_scope.

Definition lift {A} (o : Outcome A) : M A := fun w => (o, w).

Definition get_self : M Model := fun w => (Ret (self w), w).

Definition put_self (m : Model) : M unit :=
  fun w => (Ret tt, mkWorld m (random_state w)).

Fixpoint for_each {A} (xs : list A) (body : A -> M unit) : M unit :=
  match xs with
  | [] => ret tt
  | x :: rest => body x ;;; for_each rest body
  end.

Fixpoint map_M {A B} (f : A -> M B) (xs : list A) : M (list B) :=
  match xs with
  | [] => ret []
  | x :: rest => y <- f x ;; ys <- map_M f rest ;; ret (y :: ys)
  end.

(** Field assignments [self.f = v]. *)
Definition set_model_dict (d : Dict Z) : M unit :=
  m <- get_self ;;
  put_self (mkModel (n m) d (use_chars m) (V m) (context_by_n m) (contexts_prob m)).

Definition set_V (v : option Z) : M unit :=
  m <- get_self ;;
  put_self (mkModel (n m) (model_dict m) (use_chars m) v (context_by_n m) (contexts_prob m)).

Definition set_context_by_n (c : option (list Level)) : M unit :=
  m <- get_self ;;
  put_self (mkModel (n m) (model_dict m) (use_chars m) (V m) c (contexts_prob m)).

Definition set_contexts_prob (p : list Q) : M unit :=
  m <- get_self ;;
  put_self (mkModel (n m) (model_dict m) (use_chars m) (V m) (context_by_n m) p).

(** [l[i] = x] on a list, inside its bounds. *)
Fixpoint list_set {A} (i : nat) (x : A) (l : list A) : list A :=
  match l, i with
  | [], _ => []
  | _ :: r, O => x :: r
  | y :: r, S j => y :: list_set j x r
  end.

(** [self.context_by_n[k]]: a reference to the level table. *)
Definition level_at (k : Z) : M Level :=
  m <- get_self ;;
  match context_by_n m with
  | None => raise TypeError
  | Some levels =>
      if (k <? 0)%Z then raise KeyError
      else match nth_error levels (Z.to_nat k) with
           | Some tbl => ret tbl
           | None => raise KeyError
           end
  end.

(** Writing through the reference [self.context_by_n[k]]. *)
Definition store_level (k : Z) (tbl : Level) : M unit :=
  m <- get_self ;;
  match context_by_n m with
  | None => raise TypeError
  | Some levels => set_context_by_n (Some (list_set (Z.to_nat k) tbl levels))
  end.

(** [self.context_by_n[k][context]]: [defaultdict.__getitem__], which
    stores [int()] under a missing key before returning it. *)
Definition level_getitem (k : Z) (context : str) : M entry :=
  tbl <- level_at k ;;
  match dict_get context tbl with
  | Some e => ret e
  | None => store_level k (dict_set context (EInt 0) tbl) ;;; ret (EInt 0)
  end.

(** [self.context_by_n[k][context] = e] *)
Definition level_setitem (k : Z) (context : str) (e : entry) : M unit :=
  tbl <- level_at k ;;
  store_level k (dict_set context e tbl).

(** [last_gram in e] *)
Definition entry_mem (last_gram : str) (e : entry) : Outcome bool :=
  match e with
  | EDict d => Ret (dict_mem last_gram d)
  | EInt _ => Raise TypeError
  end.

(** [e[last_gram]] *)
Definition entry_getitem (last_gram : str) (e : entry) : Outcome Z :=
  match e with
  | EDict d => match dict_get last_gram d with
               | Some c => Ret c
               | None => Raise KeyError
               end
  | EInt _ => Raise TypeError
  end.

(** [sum(e.values())] *)
Definition entry_total (e : entry) : Outcome Z :=
  match e with
  | EDict d => Ret (zsum (dict_values d))
  | EInt _ => Raise AttributeError
  end.

(* ================================================================== *)
(** ** The class Ngram_Language_Model *)

(** [__init__(self, n=3, chars=False)] *)
Definition __init__ (n0 : Z) (chars : bool) : Outcome Model :=
  Ret (mkModel n0 [] chars None None []).

(** [join(self, tokens)] *)
Definition join (self : Model) (tokens : list str) : str :=
  if use_chars self then concat tokens
  else join_with space tokens.

(** [split(self, text)] *)
Definition split (self : Model) (text : str) : list str :=
  if use_chars self then map (fun c => [c]) text
  else if str_eqb text [] then []
       else split_on space text.

(** [self.split(context)] where [context] may be [None]: [list(None)] and
    [None.split] both raise. *)
Definition split_opt (self : Model) (context : option str) : Outcome (list str) :=
  match context with
  | Some c => Ret (split self c)
  | None => Raise (if use_chars self then TypeError else AttributeError)
  end.

(** [get_ngram_by_last_index(self, s, idx, n_size)] *)
Definition get_ngram_by_last_index (self : Model) (s : list str) (idx : nat)
    (n_size : option Z) : str :=
  let n_size := match n_size with None => n self | Some z => z end in
  let lo := Z.to_nat (Z.max (Z.of_nat idx - n_size + 1) 0) in
  if use_chars self then concat (slice lo (idx + 1) s)
  else join_with space (slice lo (idx + 1) s).

(** [split_context_gram(self, ngram)] *)
Definition split_context_gram (self : Model) (ngram : str) : Outcome (str * str) :=
  if use_chars self then
    match ngram with
    | [] => Raise IndexError
    | c :: _ => Ret (removelast ngram, [last ngram c])
    end
  else
    let ngram_split := split_on space ngram in
    Ret (join self (removelast ngram_split), last ngram_split []).

(** [n_size_context[context][last_gram] = v] *)
Definition inner_setitem (k : Z) (context last_gram : str) (v : Z) : M unit :=
  e <- level_getitem k context ;;
  match e with
  | EDict d => level_setitem k context (EDict (dict_set last_gram v d))
  | EInt _ => raise TypeError
  end.

(** [self.model_dict[ngram]] on the [defaultdict(int)] *)
Definition model_dict_getitem (ngram : str) : M Z :=
  m <- get_self ;;
  match dict_get ngram (model_dict m) with
  | Some c => ret c
  | None => set_model_dict (dict_set ngram 0%Z (model_dict m)) ;;; ret 0%Z
  end.

Definition model_dict_setitem (ngram : str) (v : Z) : M unit :=
  m <- get_self ;;
  set_model_dict (dict_set ngram v (model_dict m)).

(** Body of the inner loop of [build_model] (lines 40-51), for the n-gram
    size [m] and the last index [idx]. *)
Definition build_step (splitted : list str) (m idx : nat) : M unit :=
  self <- get_self ;;
  let ngram := get_ngram_by_last_index self splitted idx (Some (Z.of_nat m)) in
  '(context, last_gram) <- lift (split_context_gram self ngram) ;;
  let k := Z.of_nat (length (split self context)) in
  n_size_context <- level_at k ;;
  (if dict_mem context n_size_context then
     e <- level_getitem k context ;;
     has <- lift (entry_mem last_gram e) ;;
     if has : bool then
       e' <- level_getitem k context ;;
       c <- lift (entry_getitem last_gram e') ;;
       inner_setitem k context last_gram (c + 1)
     else inner_setitem k context last_gram 1
   else level_setitem k context (EDict [(last_gram, 1%Z)])) ;;;
  if (Z.of_nat m =? n self)%Z then
    c <- model_dict_getitem ngram ;;
    model_dict_setitem ngram (c + 1)
  else ret tt.

(** [build_model(self, text)] *)
Definition build_model (text : str) : M unit :=
  self0 <- get_self ;;
  let splitted := split self0 text in
  set_context_by_n (Some (map (fun _ => []) (seq 0 (Z.to_nat (n self0))))) ;;;
  for_each (seq 1 (Z.to_nat (n self0))) (fun m =>
    for_each (range_down (length splitted) (m - 1)) (fun idx =>
      build_step splitted m idx)) ;;;
  self1 <- get_self ;;
  set_V (Some (Z.of_nat (length (model_dict self1)))) ;;;
  last_level <- level_at (n self0 - 1) ;;
  sum_per_context <-
    map_M (fun context =>
             e <- level_getitem (n self0 - 1) context ;;
             lift (entry_total e))
          (dict_keys last_level) ;;
  let sum_all_context := zsum sum_per_context in
  probs <- map_M (fun context_sum => lift (py_truediv context_sum sum_all_context))
                 sum_per_context ;;
  set_contexts_prob probs.

(** [get_prob(self, context, last_gram)] *)
Definition get_prob (context last_gram : str) : M Q :=
  self <- get_self ;;
  let context_len := Z.of_nat (length (split self context)) in
  e <- level_getitem context_len context ;;
  c_ngram <- lift (entry_getitem last_gram e) ;;
  e' <- level_getitem context_len context ;;
  c_context <- lift (entry_total e') ;;
  lift (py_truediv c_ngram c_context).

(** [smooth(self, context)] *)
Definition smooth (context : str) : M Q :=
  self <- get_self ;;
  let context_len := Z.of_nat (length (split self context)) in
  tbl <- level_at context_len ;;
  c_context <-
    (if dict_mem context tbl then
       e <- level_getitem context_len context ;;
       lift (entry_total e)
     else ret 0%Z) ;;
  match V self with
  | None => raise TypeError
  | Some v => lift (py_truediv 1 (c_context + v))
  end.

(** Body of the loop of [evaluate] (lines 231-237) at position [i]. *)
Definition evaluate_step (splitted : list str) (prob : flt) (i : nat) : M flt :=
  self <- get_self ;;
  let ngram := get_ngram_by_last_index self splitted i None in
  '(context, last_gram) <- lift (split_context_gram self ngram) ;;
  let context_len := Z.of_nat (length (split self context)) in
  tbl <- level_at context_len ;;
  seen <-
    (if dict_mem context tbl then
       e <- level_getitem context_len context ;;
       lift (entry_mem last_gram e)
     else ret false) ;;
  p <- (if seen : bool then get_prob context last_gram else smooth context) ;;
  t <- lift (math_log p) ;;
  ret (Fadd prob t).

Fixpoint fold_M {A B} (body : B -> A -> M B) (xs : list A) (acc : B) : M B :=
  match xs with
  | [] => ret acc
  | x :: rest => acc' <- body acc x ;; fold_M body rest acc'
  end.

(** [evaluate(self, text)] *)
Definition evaluate (text : str) : M flt :=
  self <- get_self ;;
  let splitted := split self text in
  fold_M (evaluate_step splitted) (range_down (length splitted) 0) (Fint 0).

(* ------------------------------------------------------------------ *)
(** *** random.choices *)

(** [random.random()]: the next uniform number, brought into [0, 1). *)
Definition random : M Q :=
  fun w =>
    let r := random_state w in
    let u := uniform r (drawn r) in
    (Ret (u - inject_Z (Qfloor u))%Q,
     mkWorld (self w) (mkRng (uniform r) (S (drawn r)))).

(** [choices(population)[0]]: [population[floor(random() * n)]] *)
Definition choices_uniform (population : list str) : M str :=
  u <- random ;;
  let i := Qfloor (u * inject_Z (Z.of_nat (length population)))%Q in
  match nth_error population (Z.to_nat i) with
  | Some x => ret x
  | None => raise IndexError
  end.

(** [itertools.accumulate(weights)] *)
Fixpoint accumulate (acc : Q) (weights : list Q) : list Q :=
  match weights with
  | [] => []
  | x :: rest => (acc + x)%Q :: accumulate (acc + x)%Q rest
  end.

(** [bisect(cum, x, 0, hi)] on a sorted list: the first index below [hi]
    whose entry is greater than [x], else [hi]. *)
Fixpoint bisect (cum : list Q) (x : Q) (hi : nat) : nat :=
  match hi, cum with
  | S h, c :: rest => if Qle_bool c x then S (bisect rest x h) else O
  | _, _ => O
  end.

(** [choices(population, weights)[0]] *)
Definition choices_weighted (population : list str) (weights : list Q) : M str :=
  let cum_weights := accumulate 0 weights in
  if negb (length cum_weights =? length population)%nat then raise ValueError
  else match cum_weights with
       | [] => raise IndexError
       | c :: _ =>
           let total := last cum_weights c in
           if Qle_bool total 0 then raise ValueError
           else
             u <- random ;;
             let i := bisect cum_weights (u * total)%Q (length population - 1) in
             match nth_error population i with
             | Some x => ret x
             | None => raise IndexError
             end
       end.

(** [e.keys()] *)
Definition entry_keys (e : entry) : Outcome (list str) :=
  match e with
  | EDict d => Ret (dict_keys d)
  | EInt _ => Raise AttributeError
  end.

(** [get_initial_context(self, init_context)] *)
Definition get_initial_context (init_context : option str) : M (option str) :=
  self <- get_self ;;
  match init_context with
  | None =>
      tbl <- level_at (n self - 1) ;;
      c <- choices_weighted (dict_keys tbl) (contexts_prob self) ;;
      ret (Some c)
  | Some ic =>
      tbl <- level_at (n self - 1) ;;
      let optional_context :=
        filter (fun context => startswith context ic) (dict_keys tbl) in
      if (length optional_context =? 0)%nat then ret None
      else c <- choices_uniform optional_context ;; ret (Some c)
  end.

(** [get_next_gram(self, context)]; the unused local [last_context_len]
    (line 205), a pure call of [split], is left out. *)
Definition get_next_gram (context : list str) : M (option str) :=
  self <- get_self ;;
  let last_context :=
    if (n self =? 1)%Z then []
    else join self (py_suffix (- (n self - 1)) context) in
  tbl <- level_at (n self - 1) ;;
  if negb (dict_mem last_context tbl) then ret None
  else
    e <- level_getitem (n self - 1) last_context ;;
    possible_gram <- lift (entry_keys e) ;;
    e1 <- level_getitem (n self - 1) last_context ;;
    possible_gram_probs_sum <- lift (entry_total e1) ;;
    possible_gram_probs <-
      map_M (fun gram =>
               e2 <- level_getitem (n self - 1) last_context ;;
               c <- lift (entry_getitem gram e2) ;;
               lift (py_truediv c possible_gram_probs_sum))
            possible_gram ;;
    e3 <- level_getitem (n self - 1) last_context ;;
    keys <- lift (entry_keys e3) ;;
    g <- choices_weighted keys possible_gram_probs ;;
    ret (Some g).

(** The [while] loop of [generate] (lines 164-169); [remaining] is
    [n - len(final_text)], which every round lowers by one. *)
Fixpoint generate_loop (remaining : nat) (final_text : list str) : M (option str) :=
  match remaining with
  | O => self <- get_self ;; ret (Some (join self final_text))
  | S r =>
      next_gram <- get_next_gram final_text ;;
      match next_gram with
      | None => self <- get_self ;; ret (Some (join self final_text))
      | Some g => generate_loop r (final_text ++ [g])
      end
  end.

(** Lines 161-169 of [generate], once the context is settled. *)
Definition generate_from (context : option str) (target : Z) : M (option str) :=
  self <- get_self ;;
  final_text <- lift (split_opt self context) ;;
  if (target <? Z.of_nat (length final_text))%Z then
    ret (Some (join self (py_prefix target final_text)))
  else generate_loop (Z.to_nat (target - Z.of_nat (length final_text))) final_text.

(** [generate(self, context=None, n=20)]; [target] is the argument [n]. *)
Definition generate (context : option str) (target : Z) : M (option str) :=
  self <- get_self ;;
  let context_len :=
    match context with
    | None => 0%Z
    | Some c => Z.of_nat (length (split self c))
    end in
  if (target <? context_len)%Z then
    tokens <- lift (split_opt self context) ;;
    ret (Some (join self (py_prefix target tokens)))
  else if (context_len <? n self - 1)%Z then
    new_context <- get_initial_context context ;;
    match new_context with
    | None => ret context
    | Some c => generate_from (Some c) target
    end
  else generate_from context target.

(* ------------------------------------------------------------------ *)
(** *** Running the methods *)

Definition rng0 : Rng := mkRng (fun _ => 0%Q) 0.

Definition fresh (n0 : Z) (chars : bool) : World :=
  mkWorld (mkModel n0 [] chars None None []) rng0.

(** The object after [m = Ngram_Language_Model(n0, chars); m.build_model(text)]. *)
Definition trained_on (n0 : Z) (chars : bool) (text : String.string) : World :=
  snd (build_model (lit text) (fresh n0 chars)).
Arguments trained_on n0%_Z chars text%_string.


(* ================================================================== *)
(** ** Reference notions the properties are stated with *)

Fixpoint tokens_eqb (a b : list str) : bool :=
  match a, b with
  | [], [] => true
  | x :: a', y :: b' => str_eqb x y && tokens_eqb a' b'
  | _, _ => false
  end.

(** [pat] is a prefix of the token list [S]. *)
Fixpoint token_prefix (pat S : list str) : bool :=
  match pat, S with
  | [], _ => true
  | p :: pat', x :: S' => str_eqb p x && token_prefix pat' S'
  | _ :: _, [] => false
  end.

(** Number of positions of [S] at which [pat] occurs as a contiguous span
    that is followed by at least one more token. *)
Fixpoint occurrences_followed (pat S : list str) : nat :=
  match S with
  | [] => 0
  | _ :: rest =>
      (if token_prefix pat S && (length pat <? length S)%nat then 1 else 0)
      + occurrences_followed pat rest
  end.

(** The inner dict stored for context [c] at level [k], if any. *)
Definition stored (m : Model) (k : nat) (c : str) : option (Dict Z) :=
  match context_by_n m with
  | Some levels =>
      match nth_error levels k with
      | Some tbl => match dict_get c tbl with
                    | Some (EDict d) => Some d
                    | _ => None
                    end
      | None => None
      end
  | None => None
  end.

(** Keys of the level table [context_by_n[k]]. *)
Definition level_keys (m : Model) (k : nat) : option (list str) :=
  match context_by_n m with
  | Some levels => option_map (@dict_keys entry) (nth_error levels k)
  | None => None
  end.

(** A token as [split] yields it: one character, or a word without space. *)
Definition tok_ok (m : Model) (t : str) : Prop :=
  if use_chars m then length t = 1%nat else ~ In space t.

(** Level tables that hold inner dicts only. *)
Definition Table : Type := Dict (Dict Z).

Definition embed_level (t : Table) : Level :=
  map (fun kv => (fst kv, EDict (snd kv))) t.

(** One pass of lines 43-49 on a table of inner dicts. *)
Definition bump (context last_gram : str) (t : Table) : Table :=
  match dict_get context t with
  | Some d =>
      dict_set context
        (dict_set last_gram
           (match dict_get last_gram d with Some c => (c + 1)%Z | None => 1%Z end) d)
        t
  | None => dict_set context [(last_gram, 1%Z)] t
  end.

Definition event : Type := (nat * str * str)%type.

Definition record_event (T : list Table) (e : event) : list Table :=
  match e with
  | (k, c, t) => list_set k (bump c t (nth k T [])) T
  end.

(** Context and last gram of an n-gram, where [split_context_gram] returns. *)
Definition context_gram (m : Model) (ngram : str) : str * str :=
  match split_context_gram m ngram with
  | Ret p => p
  | Raise _ => ([], [])
  end.

Definition event_at (m : Model) (S : list str) (sz idx : nat) : event :=
  let p := context_gram m (get_ngram_by_last_index m S idx (Some (Z.of_nat sz))) in
  (length (split m (fst p)), fst p, snd p).

Definition events_of_size (m : Model) (S : list str) (sz : nat) : list event :=
  map (event_at m S sz) (range_down (length S) (sz - 1)).

Definition events (m : Model) (S : list str) : list event :=
  flat_map (events_of_size m S) (seq 1 (Z.to_nat (n m))).

Definition event_key (e : event) : nat * str := fst e.

Definition key_eqb (a b : nat * str) : bool :=
  (fst a =? fst b)%nat && str_eqb (snd a) (snd b).

Definition count_key (key : nat * str) (evs : list event) : nat :=
  length (filter (fun e => key_eqb (event_key e) key) evs).

(** The n-gram counter of line 51 on the [defaultdict(int)]. *)
Definition count_ngram (ngram : str) (D : Dict Z) : Dict Z :=
  dict_set ngram
    (match dict_get ngram D with Some c => (c + 1)%Z | None => 1%Z end) D.

(** The world of [w0] with level tables [T] and n-gram counts [D]. *)
Definition with_counts (w0 : World) (T : list Table) (D : Dict Z) : World :=
  mkWorld
    (mkModel (n (self w0)) D (use_chars (self w0)) (V (self w0))
       (Some (map embed_level T)) (contexts_prob (self w0)))
    (random_state w0).

(** What one round of the inner loop does to the tables and the counter. *)
Definition step_counts (m : Model) (S : list str) (sz : nat)
    (st : list Table * Dict Z) (idx : nat) : list Table * Dict Z :=
  (record_event (fst st) (event_at m S sz idx),
   if (Z.of_nat sz =? n m)%Z
   then count_ngram (get_ngram_by_last_index m S idx (Some (Z.of_nat sz))) (snd st)
   else snd st).

Definition loop_counts (m : Model) (S : list str)
    (st : list Table * Dict Z) : list Table * Dict Z :=
  fold_left
    (fun st sz => fold_left (step_counts m S sz) (range_down (length S) (sz - 1)) st)
    (seq 1 (Z.to_nat (n m))) st.

(** Totals of the inner dicts of a table, in key order (lines 53-54). *)
Definition level_totals (t : Table) : list Z :=
  map (fun c => match dict_get c t with
                | Some d => zsum (dict_values d)
                | None => 0%Z
                end)
      (dict_keys t).

(** The object [build_model] leaves behind when it returns. *)
Definition built (w0 : World) (text : str) : World :=
  let m := self w0 in
  let S := split m text in
  let st := loop_counts m S (repeat [] (Z.to_nat (n m)), model_dict m) in
  let sums := level_totals (nth (Z.to_nat (n m - 1)) (fst st) []) in
  mkWorld
    (mkModel (n m) (snd st) (use_chars m)
       (Some (Z.of_nat (length (snd st))))
       (Some (map embed_level (fst st)))
       (map (fun s => (inject_Z s / inject_Z (zsum sums))%Q) sums))
    (random_state w0).

(** A model object on which [build_model] has returned. *)
Definition trained (w : World) : Prop :=
  exists w0 text, build_model text w0 = (Ret tt, w).

(** Shape of the tables of a trained model. *)
Definition positive_dict (d : Dict Z) : Prop :=
  d <> [] /\ Forall (fun kv => (1 <= snd kv)%Z) d.

Definition positive_tables (T : list Table) : Prop :=
  Forall (Forall (fun kv => positive_dict (snd kv))) T.

(** What [build_model] establishes and the readers rely on. *)
Definition well_trained (m : Model) : Prop :=
  exists (T : list Table) (v : Z),
    context_by_n m = Some (map embed_level T)
    /\ length T = Z.to_nat (n m)
    /\ (1 <= n m)%Z
    /\ positive_tables T
    /\ V m = Some v /\ (0 <= v)%Z.

(** The trailing window of at most [n] tokens that ends at position [i]. *)
Definition window (m : Model) (S : list str) (i : nat) : list str :=
  slice (i + 1 - Z.to_nat (n m)) (i + 1) S.

(** The vocabulary size as a number ([0] before training). *)
Definition vocabulary (m : Model) : Z :=
  match V m with Some v => v | None => 0%Z end.

(** The probability the evaluator's contract gives position [i] of the token
    list [S]: the window is cut into context and final token; an observed
    pair gets count / total at the context's order; anything else gets
    1 / (total-or-0 + V), which does not exist when that sum is 0. *)
Definition spec_position_prob (m : Model) (S : list str) (i : nat) : Outcome Q :=
  let w := window m S i in
  let context := join m (removelast w) in
  let final := last w [] in
  let order := length (split m context) in
  match stored m order context with
  | Some d =>
      match dict_get final d with
      | Some cnt => Ret (inject_Z cnt / inject_Z (zsum (dict_values d)))%Q
      | None => Ret (inject_Z 1 / inject_Z (zsum (dict_values d) + vocabulary m))%Q
      end
  | None =>
      if (vocabulary m =? 0)%Z then Raise ZeroDivisionError
      else Ret (inject_Z 1 / inject_Z (0 + vocabulary m))%Q
  end.

(** Adding up the logs of a list of terms, left to right, from [acc]. *)
Fixpoint sum_logs (terms : list (Outcome Q)) (acc : flt) : Outcome flt :=
  match terms with
  | [] => Ret acc
  | Ret q :: rest => sum_logs rest (Fadd acc (Fln q))
  | Raise e :: _ => Raise e
  end.

(** The contract's value of [evaluate] on the token list [S], summed in the
    order the code visits the positions (last to first). *)
Definition spec_evaluate (m : Model) (S : list str) : Outcome flt :=
  sum_logs (map (spec_position_prob m S) (range_down (length S) 0)) (Fint 0).

(** The real number a term stands for. *)
Definition term_R (t : Outcome Q) : R :=
  match t with
  | Ret q => ln (Q2R q)
  | Raise _ => 0%R
  end.

Definition Rsum (xs : list R) : R := fold_right Rplus 0%R xs.

(** What the tables say about the events recorded so far. *)
Definition counts_agree (evs : list event) (T : list Table) : Prop :=
  forall k c,
    match dict_get c (nth k T []) with
    | Some d =>
        zsum (dict_values d) = Z.of_nat (count_key (k, c) evs)
        /\ Forall (fun kv => In (k, c, fst kv) evs) d
    | None => count_key (k, c) evs = 0%nat
    end.

(** The context of position [i] was never seen at its order. *)
Definition context_unseen (m : Model) (S : list str) (i : nat) : Prop :=
  let w := window m S i in
  let c := join m (removelast w) in
  stored m (length (split m c)) c = None.

(** The world after one call of [random.random()]. *)
Definition advance (w : World) : World :=
  mkWorld (self w)
    (mkRng (uniform (random_state w)) (Datatypes.S (drawn (random_state w)))).

(** [get_model_dictionary(self)] *)
Definition get_model_dictionary (self : Model) : Dict Z := model_dict self.

(** [get_model_window_size(self)] *)
Definition get_model_window_size (self : Model) : Z := n self.

(** Number of spaces of a string. *)
Definition count_spaces (text : str) : nat :=
  length (filter (fun c => Ascii.eqb c space) text).

(** The n-gram strings of all full windows of the token list [S], in the
    order the training loop meets them. *)
Definition counted_ngrams (m : Model) (S : list str) : list str :=
  map (fun idx => get_ngram_by_last_index m S idx (Some (n m)))
      (range_down (length S) (Z.to_nat (n m) - 1)).

(** How often the string [g] occurs in the list [gs]. *)
Definition count_str (g : str) (gs : list str) : nat :=
  length (filter (str_eqb g) gs).

(** A count read with 0 for a missing key. *)
Definition count_or_zero (o : option Z) : Z :=
  match o with Some v => v | None => 0%Z end.

(** Sum of all counts held in a level table, in a list of level tables and
    in the tables of a model. *)
Definition table_total (t : Table) : Z :=
  zsum (map (fun kv => zsum (dict_values (snd kv))) t).

Definition tables_total (T : list Table) : Z := zsum (map table_total T).

Definition entry_count (e : entry) : Z :=
  match e with EDict d => zsum (dict_values d) | EInt _ => 0%Z end.

Definition model_total (m : Model) : Z :=
  match context_by_n m with
  | Some levels =>
      zsum (map (fun tbl => zsum (map (fun kv => entry_count (snd kv)) tbl)) levels)
  | None => 0%Z
  end.

(** The two settings fixed by the constructor. *)
Definition settings (w : World) : Z * bool := (n (self w), use_chars (self w)).

(** The context [get_next_gram] looks up for the text built so far: the
    empty string for a unigram model, else the join of the last [n - 1]
    tokens (lines 201-204). *)
Definition lookup_context (m : Model) (context : list str) : str :=
  if (n m =? 1)%Z then []
  else join m (py_suffix (- (n m - 1)) context).

(** The world after [k] calls of [random.random()]. *)
Definition advance_by (k : nat) (w : World) : World := Nat.iter k advance w.

(** Every token of [new], appended in turn to [text], is a follower stored
    under the lookup context of the text before it. *)
Fixpoint observed_steps (m : Model) (text new : list str) : Prop :=
  match new with
  | [] => True
  | g :: rest =>
      (exists d, stored m (Z.to_nat (n m - 1)) (lookup_context m text) = Some d
                 /\ In g (dict_keys d))
      /\ observed_steps m (text ++ [g]) rest
  end.

(** Inner dicts whose keys are pairwise different, as in a Python dict. *)
Definition distinct_keys (T : list Table) : Prop :=
  Forall (Forall (fun kv => NoDup (dict_keys (snd kv)))) T.

(* ------------------------------------------------------------------ *)
(** *** normalize_text

    Characters are read as the code points 0-255.  On these, [str.lower]
    moves A-Z and the capital letters 192-222 (but not 215, the
    multiplication sign) up by 32, and [str.strip] removes the code points
    9-13, 28-32, 133 and 160. *)

Definition code (c : ascii) : nat := nat_of_ascii c.

(** The character class of the pattern: . , ! ? ( ) @ # $ % ^ & * the
    newline and the double quote. *)
Definition is_punct (c : ascii) : bool :=
  existsb (Nat.eqb (code c)) [10; 33; 34; 35; 36; 37; 38; 40; 41; 42; 44; 46; 63; 64; 94]%nat.

Definition is_space (c : ascii) : bool := Ascii.eqb c space.

(** [c.isspace()] *)
Definition isspace (c : ascii) : bool :=
  existsb (Nat.eqb (code c)) [9; 10; 11; 12; 13; 28; 29; 30; 31; 32; 133; 160]%nat.

Definition lower_char (c : ascii) : ascii :=
  let k := code c in
  if ((65 <=? k) && (k <=? 90)
      || (192 <=? k) && (k <=? 222) && negb (k =? 215))%nat
  then ascii_of_nat (k + 32) else c.

(** [s.lower()] *)
Definition str_lower (s : str) : str := map lower_char s.

(** Whether the pattern
    [(?<! )(?=[...])|(?<=[...])(?! )] matches (the empty string) between the
    character [prev] ([None] at the start of the text) and the character
    [next] ([None] at its end). *)
Definition pattern_matches (prev next : option ascii) : bool :=
  (negb (match prev with Some p => is_space p | None => false end)
   && match next with Some c => is_punct c | None => false end)
  || (match prev with Some p => is_punct p | None => false end
      && negb (match next with Some c => is_space c | None => false end)).

(** [re.sub(pattern, ' ', s)]: the pattern only matches empty strings, so
    every position of [s] is tried once, against the text as it was, and a
    space is put in where it matches. *)
Fixpoint pad_from (prev : option ascii) (s : str) : str :=
  match s with
  | [] => if pattern_matches prev None then [space] else []
  | c :: rest =>
      (if pattern_matches prev (Some c) then [space] else [])
      ++ c :: pad_from (Some c) rest
  end.

Fixpoint lstrip (s : str) : str :=
  match s with
  | [] => []
  | c :: rest => if isspace c then lstrip rest else s
  end.

Fixpoint rstrip (s : str) : str :=
  match s with
  | [] => []
  | c :: rest =>
      match rstrip rest with
      | [] => if isspace c then [] else [c]
      | kept => c :: kept
      end
  end.

(** [s.strip()] *)
Definition strip (s : str) : str := rstrip (lstrip s).

(** [normalize_text(text, lower=True, pad_punc=True)] *)
Definition normalize_text (text : str) (lower pad_punc : bool) : str :=
  let normalized_text := text in
  let normalized_text :=
    if lower then str_lower normalized_text else normalized_text in
  let normalized_text :=
    if pad_punc then strip (pad_from None normalized_text) else normalized_text in
  normalized_text.

(** A punctuation character needs a space, or the start, before it
    ([prev_ok]) and a space, or the end, after it. *)
Definition next_ok (rest : str) : bool :=
  match rest with [] => true | d :: _ => is_space d end.

Fixpoint isolated (prev_ok : bool) (s : str) : bool :=
  match s with
  | [] => true
  | c :: rest =>
      (if is_punct c then prev_ok && next_ok rest else true)
      && isolated (is_space c) rest
  end.

(** The same with a space required after it, also at the end. *)
Fixpoint spaced (prev_space : bool) (s : str) : bool :=
  match s with
  | [] => true
  | c :: rest =>
      (if is_punct c
       then prev_space && match rest with d :: _ => is_space d | [] => false end
       else true)
      && spaced (is_space c) rest
  end.

(* ================================================================== *)
(** * Properties *)

(** ** Strings and tokens *)

Lemma str_eqb_eq (a b : str) : str_eqb a b = true <-> a = b.
Proof.
  revert b; induction a as [|x a IH]; intros [|y b]; simpl; split;
    try easy.
  - rewrite andb_true_iff, Ascii.eqb_eq, IH. now intros [-> ->].
  - intros [= -> ->]. rewrite Ascii.eqb_refl. now apply IH.
Qed.

Lemma str_eqb_refl (a : str) : str_eqb a a = true.
Proof. now apply str_eqb_eq. Qed.

Lemma str_eqb_neq (a b : str) : str_eqb a b = false <-> a <> b.
Proof.
  rewrite <- str_eqb_eq. destruct (str_eqb a b); split; congruence.
Qed.

Lemma str_eqb_sym (a b : str) : str_eqb a b = str_eqb b a.
Proof.
  destruct (str_eqb a b) eqn:E.
  - apply str_eqb_eq in E. subst. now rewrite str_eqb_refl.
  - symmetry. apply str_eqb_neq. apply str_eqb_neq in E. congruence.
Qed.

Lemma tokens_eqb_eq (a b : list str) : tokens_eqb a b = true <-> a = b.
Proof.
  revert b; induction a as [|x a IH]; intros [|y b]; simpl; split;
    try easy.
  - rewrite andb_true_iff, str_eqb_eq, IH. now intros [-> ->].
  - intros [= -> ->]. rewrite str_eqb_refl. now apply IH.
Qed.

Lemma split_on_not_nil sep text : split_on sep text <> [].
Proof.
  destruct text as [|c r]; simpl; [easy|].
  destruct (Ascii.eqb c sep); [easy|].
  now destruct (split_on sep r).
Qed.

Lemma join_split_on sep text : join_with sep (split_on sep text) = text.
Proof.
  induction text as [|c r IH]; simpl; [reflexivity|].
  destruct (Ascii.eqb_spec c sep) as [->|Hne].
  - pose proof (split_on_not_nil sep r) as Hnn.
    simpl. destruct (split_on sep r) as [|w ws]; [easy|].
    simpl in *. now rewrite IH.
  - pose proof (split_on_not_nil sep r) as Hnn.
    destruct (split_on sep r) as [|w ws]; [easy|].
    simpl in *. destruct ws; simpl in *; now rewrite <- IH.
Qed.

Lemma split_on_no_sep sep text :
  Forall (fun t => ~ In sep t) (split_on sep text).
Proof.
  induction text as [|c r IH]; simpl.
  - constructor; [easy|constructor].
  - destruct (Ascii.eqb_spec c sep) as [->|Hne].
    + constructor; [easy|assumption].
    + destruct (split_on sep r) as [|w ws]; simpl.
      * constructor; [|constructor]. simpl. intuition.
      * inversion IH; subst. constructor; [|assumption].
        simpl. intuition.
Qed.

Lemma split_on_token sep t : ~ In sep t -> split_on sep t = [t].
Proof.
  induction t as [|c r IH]; simpl; intros Hn; [reflexivity|].
  destruct (Ascii.eqb_spec c sep) as [->|Hne]; [tauto|].
  rewrite IH by tauto. reflexivity.
Qed.

Lemma split_on_app sep t rest :
  ~ In sep t ->
  split_on sep (t ++ sep :: rest) = t :: split_on sep rest.
Proof.
  induction t as [|c r IH]; simpl; intros Hn.
  - now rewrite Ascii.eqb_refl.
  - destruct (Ascii.eqb_spec c sep) as [->|Hne]; [tauto|].
    rewrite IH by tauto. reflexivity.
Qed.

Lemma split_on_join sep ts :
  ts <> [] -> Forall (fun t => ~ In sep t) ts ->
  split_on sep (join_with sep ts) = ts.
Proof.
  induction ts as [|t r IH]; intros Hnn Hall; [easy|].
  inversion Hall as [|? ? Ht Hr]; subst.
  destruct r as [|t' r'].
  - simpl. now apply split_on_token.
  - change (join_with sep (t :: t' :: r')) with (t ++ sep :: join_with sep (t' :: r')).
    rewrite split_on_app by assumption.
    now rewrite IH.
Qed.

Lemma join_with_nil_inv sep ts :
  join_with sep ts = [] -> ts = [] \/ ts = [[]].
Proof.
  destruct ts as [|t [|t' r]]; simpl; intros H; auto.
  - right. now subst.
  - destruct t; discriminate.
Qed.

Lemma concat_singletons (ts : list str) :
  Forall (fun t => length t = 1%nat) ts ->
  map (fun c => [c]) (concat ts) = ts.
Proof.
  induction 1 as [|t r Ht _ IH]; simpl; [reflexivity|].
  destruct t as [|c [|? ?]]; try discriminate. simpl. now rewrite IH.
Qed.

Lemma concat_singletons_length (ts : list str) :
  Forall (fun t => length t = 1%nat) ts ->
  length (concat ts) = length ts.
Proof.
  intros H. rewrite <- (concat_singletons _ H) at 2. now rewrite length_map.
Qed.

Lemma concat_singletons_removelast (ts : list str) :
  Forall (fun t => length t = 1%nat) ts ->
  removelast (concat ts) = concat (removelast ts).
Proof.
  induction 1 as [|t r Ht Hr IH]; [reflexivity|].
  destruct t as [|c [|? ?]]; try discriminate.
  destruct r as [|t' r']; [reflexivity|].
  inversion Hr as [|? ? Ht' _]; subst.
  destruct t' as [|c' [|? ?]]; try discriminate.
  change (removelast ([c] :: [c'] :: r')) with ([c] :: removelast ([c'] :: r')).
  cbn [concat app] in *.
  change (removelast (c :: c' :: concat r')) with (c :: removelast (c' :: concat r')).
  f_equal. exact IH.
Qed.

Lemma concat_singletons_last (ts : list str) (c0 : ascii) :
  Forall (fun t => length t = 1%nat) ts -> ts <> [] ->
  [last (concat ts) c0] = last ts [].
Proof.
  induction 1 as [|t r Ht Hr IH]; intros Hnn; [easy|].
  destruct t as [|c [|? ?]]; try discriminate.
  destruct r as [|t' r']; [reflexivity|].
  inversion Hr as [|? ? Ht' _]; subst.
  destruct t' as [|c' [|? ?]]; try discriminate.
  change (last ([c] :: [c'] :: r') []) with (last ([c'] :: r') []).
  etransitivity; [|apply IH; easy]. reflexivity.
Qed.

Lemma split_tok_ok (m : Model) (text : str) :
  Forall (tok_ok m) (split m text).
Proof.
  unfold split, tok_ok. destruct (use_chars m).
  - apply Forall_forall. intros t Ht. apply in_map_iff in Ht.
    destruct Ht as [c [<- _]]. reflexivity.
  - destruct (str_eqb text []); [constructor|]. apply split_on_no_sep.
Qed.

Lemma join_split (m : Model) (text : str) : join m (split m text) = text.
Proof.
  unfold join, split. destruct (use_chars m).
  - induction text as [|c r IH]; simpl; [reflexivity|]. now rewrite IH.
  - destruct (str_eqb text []) eqn:E.
    + apply str_eqb_eq in E. now subst.
    + apply join_split_on.
Qed.

Lemma split_join_le (m : Model) (ts : list str) :
  Forall (tok_ok m) ts ->
  (length (split m (join m ts)) <= length ts)%nat.
Proof.
  unfold tok_ok, split, join. destruct (use_chars m); intros H.
  - rewrite concat_singletons by assumption. lia.
  - destruct (str_eqb (join_with space ts) []) eqn:E; [simpl; lia|].
    destruct ts as [|t r]; [discriminate|].
    rewrite split_on_join by easy. lia.
Qed.

Lemma split_join (m : Model) (ts : list str) :
  Forall (tok_ok m) ts -> Forall (fun t => t <> []) ts ->
  split m (join m ts) = ts.
Proof.
  unfold tok_ok, split, join. destruct (use_chars m); intros H Hne.
  - now apply concat_singletons.
  - destruct (str_eqb (join_with space ts) []) eqn:E.
    + apply str_eqb_eq in E. apply join_with_nil_inv in E.
      destruct E as [->| ->]; [reflexivity|].
      inversion Hne; subst. congruence.
    + destruct ts as [|t r]; [discriminate|].
      now rewrite split_on_join.
Qed.

Lemma split_context_gram_join (m : Model) (w : list str) :
  Forall (tok_ok m) w -> w <> [] ->
  split_context_gram m (join m w) = Ret (join m (removelast w), last w []).
Proof.
  unfold tok_ok, split_context_gram, join. destruct (use_chars m); intros H Hnn.
  - destruct (concat w) as [|c r] eqn:E.
    + apply (f_equal (@length ascii)) in E.
      rewrite concat_singletons_length in E by assumption.
      destruct w; [easy|discriminate].
    + rewrite <- E. rewrite concat_singletons_removelast by assumption.
      now rewrite (concat_singletons_last _ c H Hnn).
  - now rewrite split_on_join.
Qed.

Lemma ngram_window (m : Model) (S : list str) (idx sz : nat) :
  get_ngram_by_last_index m S idx (Some (Z.of_nat sz))
  = join m (slice (idx + 1 - sz) (idx + 1) S).
Proof.
  unfold get_ngram_by_last_index, join.
  replace (Z.to_nat (Z.max (Z.of_nat idx - Z.of_nat sz + 1) 0))
    with (idx + 1 - sz)%nat by lia.
  reflexivity.
Qed.

Lemma ngram_window_self (m : Model) (S : list str) (idx : nat) :
  (0 <= n m)%Z ->
  get_ngram_by_last_index m S idx None
  = join m (slice (idx + 1 - Z.to_nat (n m)) (idx + 1) S).
Proof.
  intros Hn. unfold get_ngram_by_last_index, join.
  replace (Z.to_nat (Z.max (Z.of_nat idx - n m + 1) 0))
    with (idx + 1 - Z.to_nat (n m))%nat by lia.
  reflexivity.
Qed.

Lemma slice_length {A} (a b : nat) (l : list A) :
  (b <= length l)%nat -> length (slice a b l) = (b - a)%nat.
Proof.
  intros H. unfold slice. rewrite length_firstn, length_skipn. lia.
Qed.

Lemma slice_Forall {A} (P : A -> Prop) (a b : nat) (l : list A) :
  Forall P l -> Forall P (slice a b l).
Proof.
  intros H. unfold slice. rewrite Forall_forall in *. intros x Hx.
  apply H. rewrite <- (firstn_skipn a l). apply in_or_app. right.
  rewrite <- (firstn_skipn (b - a) (skipn a l)). apply in_or_app. now left.
Qed.

Lemma removelast_Forall {A} (P : A -> Prop) (l : list A) :
  Forall P l -> Forall P (removelast l).
Proof.
  induction 1 as [|x r Hx Hr IH]; [constructor|].
  destruct r; [constructor|]. simpl. constructor; assumption.
Qed.

Lemma removelast_length {A} (l : list A) :
  length (removelast l) = (length l - 1)%nat.
Proof.
  induction l as [|x r IH]; [reflexivity|].
  destruct r; [reflexivity|]. simpl in *. rewrite IH. lia.
Qed.

(** ** Dictionaries and lists *)

Lemma dict_get_set_same {A} (k : str) (v : A) (d : Dict A) :
  dict_get k (dict_set k v d) = Some v.
Proof.
  induction d as [|[k' v'] r IH]; simpl.
  - now rewrite str_eqb_refl.
  - destruct (str_eqb k k') eqn:E; simpl; rewrite E; [reflexivity|exact IH].
Qed.

Lemma dict_get_set_other {A} (k k' : str) (v : A) (d : Dict A) :
  k <> k' -> dict_get k' (dict_set k v d) = dict_get k' d.
Proof.
  intros Hne. induction d as [|[k0 v0] r IH]; simpl.
  - apply str_eqb_neq in Hne. rewrite str_eqb_sym in Hne. now rewrite Hne.
  - destruct (str_eqb k k0) eqn:E; simpl.
    + apply str_eqb_eq in E. subst k0.
      apply str_eqb_neq in Hne. rewrite str_eqb_sym in Hne. now rewrite Hne.
    + destruct (str_eqb k' k0); [reflexivity|exact IH].
Qed.

Lemma dict_set_set {A} (k : str) (v v' : A) (d : Dict A) :
  dict_set k v' (dict_set k v d) = dict_set k v' d.
Proof.
  induction d as [|[k0 v0] r IH]; simpl.
  - now rewrite str_eqb_refl.
  - destruct (str_eqb k k0) eqn:E; simpl; rewrite E; [reflexivity|].
    now rewrite IH.
Qed.

Lemma dict_get_In {A} (k : str) (v : A) (d : Dict A) :
  dict_get k d = Some v -> In (k, v) d.
Proof.
  induction d as [|[k0 v0] r IH]; simpl; [discriminate|].
  destruct (str_eqb k k0) eqn:E.
  - apply str_eqb_eq in E. intros [= ->]. subst. now left.
  - intros H. right. now apply IH.
Qed.

Lemma dict_get_None_keys {A} (k : str) (d : Dict A) :
  dict_get k d = None <-> ~ In k (dict_keys d).
Proof.
  induction d as [|[k0 v0] r IH]; simpl; [tauto|].
  destruct (str_eqb k k0) eqn:E.
  - apply str_eqb_eq in E. subst. split; [discriminate|tauto].
  - apply str_eqb_neq in E. rewrite IH. split; [intros H [?|?]; [congruence|tauto] | tauto].
Qed.

Lemma dict_set_Forall {A} (P : str * A -> Prop) (k : str) (v : A) (d : Dict A) :
  Forall P d -> P (k, v) -> Forall P (dict_set k v d).
Proof.
  intros Hd Hk. induction Hd as [|[k0 v0] r H0 Hr IH]; simpl.
  - constructor; [assumption|constructor].
  - destruct (str_eqb k k0) eqn:E.
    + apply str_eqb_eq in E. subst. constructor; assumption.
    + constructor; assumption.
Qed.

Lemma dict_set_not_nil {A} (k : str) (v : A) (d : Dict A) : dict_set k v d <> [].
Proof.
  destruct d as [|[k0 v0] r]; simpl; [easy|]. now destruct (str_eqb k k0).
Qed.

Lemma zsum_from (xs : list Z) (a : Z) : fold_left Z.add xs a = (a + zsum xs)%Z.
Proof.
  unfold zsum. revert a. induction xs as [|x r IH]; intros a; simpl; [lia|].
  rewrite (IH (a + x)%Z), (IH x). lia.
Qed.

Lemma zsum_cons (x : Z) (xs : list Z) : zsum (x :: xs) = (x + zsum xs)%Z.
Proof. unfold zsum at 1. simpl. now rewrite zsum_from. Qed.

Lemma zsum_set (k : str) (v : Z) (d : Dict Z) :
  zsum (dict_values (dict_set k v d))
  = (zsum (dict_values d)
     - (match dict_get k d with Some o => o | None => 0 end) + v)%Z.
Proof.
  induction d as [|[k0 v0] r IH]; simpl.
  - rewrite zsum_cons. unfold zsum. simpl. lia.
  - destruct (str_eqb k k0); simpl; rewrite !zsum_cons; [lia|].
    rewrite IH. lia.
Qed.

Lemma zsum_positive (d : Dict Z) :
  positive_dict d -> (1 <= zsum (dict_values d))%Z.
Proof.
  intros [Hnn Hall]. destruct d as [|[k v] r]; [easy|]. clear Hnn.
  inversion Hall as [|? ? Hv Hr]; subst. simpl in *. rewrite zsum_cons.
  assert (0 <= zsum (dict_values r))%Z; [|lia].
  clear -Hr. induction Hr as [|[k' v'] r' H' _ IH]; simpl.
  - unfold zsum; simpl; lia.
  - rewrite zsum_cons. simpl in *. lia.
Qed.

Lemma dict_get_embed (c : str) (t : Table) :
  dict_get c (embed_level t) = option_map EDict (dict_get c t).
Proof.
  induction t as [|[k d] r IH]; simpl; [reflexivity|].
  destruct (str_eqb c k); [reflexivity|exact IH].
Qed.

Lemma dict_set_embed (c : str) (d : Dict Z) (t : Table) :
  dict_set c (EDict d) (embed_level t) = embed_level (dict_set c d t).
Proof.
  induction t as [|[k d0] r IH]; simpl; [reflexivity|].
  destruct (str_eqb c k); simpl; [reflexivity|]. f_equal. exact IH.
Qed.

Lemma dict_keys_embed (t : Table) : dict_keys (embed_level t) = dict_keys t.
Proof.
  unfold dict_keys, embed_level. rewrite map_map. reflexivity.
Qed.

Lemma list_set_length {A} (i : nat) (x : A) (l : list A) :
  length (list_set i x l) = length l.
Proof.
  revert i; induction l as [|y r IH]; intros [|j]; simpl; auto.
Qed.

Lemma list_set_nth_same {A} (i : nat) (x d : A) (l : list A) :
  (i < length l)%nat -> nth i (list_set i x l) d = x.
Proof.
  revert i; induction l as [|y r IH]; intros [|j]; simpl; intros H;
    try lia; auto. apply IH. lia.
Qed.

Lemma list_set_nth_other {A} (i j : nat) (x d : A) (l : list A) :
  i <> j -> nth j (list_set i x l) d = nth j l d.
Proof.
  revert i j; induction l as [|y r IH]; intros [|i] [|j]; simpl; intros H;
    try lia; auto.
Qed.

Lemma list_set_map {A B} (f : A -> B) (i : nat) (x : A) (l : list A) :
  list_set i (f x) (map f l) = map f (list_set i x l).
Proof.
  revert i; induction l as [|y r IH]; intros [|j]; simpl; auto.
  now rewrite IH.
Qed.

Lemma list_set_Forall {A} (P : A -> Prop) (i : nat) (x : A) (l : list A) :
  Forall P l -> P x -> Forall P (list_set i x l).
Proof.
  intros Hl Hx. revert i. induction Hl as [|y r Hy Hr IH]; intros [|j]; simpl;
    constructor; auto.
Qed.

Lemma nth_Forall {A} (P : A -> Prop) (i : nat) (d : A) (l : list A) :
  Forall P l -> P d -> P (nth i l d).
Proof.
  intros Hl Hd. revert i. induction Hl as [|y r Hy Hr IH]; intros [|j]; simpl; auto.
Qed.

(** ** Running the table accesses *)

Lemma nth_error_embed (T : list Table) (k : nat) :
  (k < length T)%nat ->
  nth_error (map embed_level T) k = Some (embed_level (nth k T [])).
Proof.
  intros H. rewrite nth_error_map.
  rewrite (nth_error_nth' T [] H). reflexivity.
Qed.

Lemma level_at_ok (w : World) (T : list Table) (k : nat) :
  context_by_n (self w) = Some (map embed_level T) ->
  (k < length T)%nat ->
  level_at (Z.of_nat k) w = (Ret (embed_level (nth k T [])), w).
Proof.
  intros HT Hk. unfold level_at, bind, get_self. rewrite HT.
  destruct (Z.of_nat k <? 0)%Z eqn:E; [lia|].
  rewrite Nat2Z.id, nth_error_embed by assumption. reflexivity.
Qed.

Lemma level_getitem_ok (w : World) (T : list Table) (k : nat) (c : str) (d : Dict Z) :
  context_by_n (self w) = Some (map embed_level T) ->
  (k < length T)%nat ->
  dict_get c (nth k T []) = Some d ->
  level_getitem (Z.of_nat k) c w = (Ret (EDict d), w).
Proof.
  intros HT Hk Hd. unfold level_getitem, bind.
  rewrite (level_at_ok _ _ _ HT Hk), dict_get_embed, Hd. reflexivity.
Qed.

Lemma dict_mem_embed (c : str) (t : Table) :
  dict_mem c (embed_level t) = dict_mem c t.
Proof.
  unfold dict_mem. rewrite dict_get_embed. now destruct (dict_get c t).
Qed.

Lemma with_counts_tables (w0 : World) (T : list Table) (D : Dict Z) :
  context_by_n (self (with_counts w0 T D)) = Some (map embed_level T).
Proof. reflexivity. Qed.

Lemma level_setitem_run (w0 : World) (T : list Table) (D : Dict Z)
    (k : nat) (c : str) (d : Dict Z) :
  (k < length T)%nat ->
  level_setitem (Z.of_nat k) c (EDict d) (with_counts w0 T D)
  = (Ret tt, with_counts w0 (list_set k (dict_set c d (nth k T [])) T) D).
Proof.
  intros Hk. unfold level_setitem, bind.
  rewrite (level_at_ok _ _ _ (with_counts_tables w0 T D) Hk).
  unfold store_level, bind, get_self. simpl.
  unfold set_context_by_n, bind, get_self, put_self, with_counts. simpl.
  rewrite Nat2Z.id, dict_set_embed, list_set_map. reflexivity.
Qed.

Lemma inner_setitem_run (w0 : World) (T : list Table) (D : Dict Z)
    (k : nat) (c t : str) (v : Z) (d : Dict Z) :
  (k < length T)%nat ->
  dict_get c (nth k T []) = Some d ->
  inner_setitem (Z.of_nat k) c t v (with_counts w0 T D)
  = (Ret tt,
     with_counts w0 (list_set k (dict_set c (dict_set t v d) (nth k T [])) T) D).
Proof.
  intros Hk Hd. unfold inner_setitem, bind.
  rewrite (level_getitem_ok _ _ _ _ _ (with_counts_tables w0 T D) Hk Hd).
  now apply level_setitem_run.
Qed.

Lemma count_ngram_run (w0 : World) (T : list Table) (D : Dict Z) (ngram : str) :
  (c <- model_dict_getitem ngram ;; model_dict_setitem ngram (c + 1))
    (with_counts w0 T D)
  = (Ret tt, with_counts w0 T (count_ngram ngram D)).
Proof.
  unfold bind, model_dict_getitem, model_dict_setitem, bind, get_self,
    count_ngram. simpl.
  destruct (dict_get ngram D) as [c|] eqn:E; simpl.
  - unfold set_model_dict, bind, get_self, put_self. reflexivity.
  - unfold set_model_dict, bind, get_self, put_self. simpl.
    rewrite dict_set_set. reflexivity.
Qed.

Lemma build_step_run (w0 : World) (S : list str) (sz idx : nat)
    (T : list Table) (D : Dict Z) (c t : str) :
  let m := self w0 in
  split_context_gram m (get_ngram_by_last_index m S idx (Some (Z.of_nat sz)))
    = Ret (c, t) ->
  (length (split m c) < length T)%nat ->
  build_step S sz idx (with_counts w0 T D)
  = (Ret tt,
     with_counts w0 (fst (step_counts m S sz (T, D) idx))
                    (snd (step_counts m S sz (T, D) idx))).
Proof.
  intros m Hsplit Hk.
  unfold step_counts, event_at, context_gram. fold m. rewrite Hsplit.
  cbn [fst snd record_event].
  unfold build_step. unfold bind at 1. unfold get_self at 1.
  cbn [fst snd].
  change (self (with_counts w0 T D)) with
    (mkModel (n m) D (use_chars m) (V m) (Some (map embed_level T)) (contexts_prob m)).
  change (get_ngram_by_last_index
            (mkModel (n m) D (use_chars m) (V m) (Some (map embed_level T)) (contexts_prob m)))
    with (get_ngram_by_last_index m).
  change (split_context_gram
            (mkModel (n m) D (use_chars m) (V m) (Some (map embed_level T)) (contexts_prob m)))
    with (split_context_gram m).
  change (split
            (mkModel (n m) D (use_chars m) (V m) (Some (map embed_level T)) (contexts_prob m)))
    with (split m).
  cbn [n].
  set (ngram := get_ngram_by_last_index m S idx (Some (Z.of_nat sz))) in *.
  unfold bind at 1. unfold lift at 1. rewrite Hsplit.
  set (k := length (split m c)) in *.
  unfold bind at 1.
  rewrite (level_at_ok _ _ _ (with_counts_tables w0 T D) Hk).
  rewrite dict_mem_embed. unfold dict_mem, bump.
  assert (Hmd : forall T',
    (if (Z.of_nat sz =? n m)%Z
     then c0 <- model_dict_getitem ngram ;; model_dict_setitem ngram (c0 + 1)
     else ret tt) (with_counts w0 T' D)
    = (Ret tt, with_counts w0 T'
                 (if (Z.of_nat sz =? n m)%Z then count_ngram ngram D else D))).
  { intros T'. destruct (Z.of_nat sz =? n m)%Z; [apply count_ngram_run|reflexivity]. }
  destruct (dict_get c (nth k T [])) as [d|] eqn:Ed.
  - unfold bind at 1. unfold bind at 1.
    rewrite (level_getitem_ok _ _ _ _ _ (with_counts_tables w0 T D) Hk Ed).
    unfold bind at 1. unfold lift at 1, entry_mem, dict_mem.
    destruct (dict_get t d) as [cnt|] eqn:Et.
    + unfold bind at 1.
      rewrite (level_getitem_ok _ _ _ _ _ (with_counts_tables w0 T D) Hk Ed).
      unfold bind at 1. unfold lift at 1, entry_getitem. rewrite Et.
      rewrite (inner_setitem_run w0 T D k c t (cnt + 1) d Hk Ed).
      apply Hmd.
    + rewrite (inner_setitem_run w0 T D k c t 1 d Hk Ed).
      apply Hmd.
  - unfold bind at 1.
    rewrite (level_setitem_run w0 T D k c [(t, 1%Z)] Hk).
    apply Hmd.
Qed.

(** ** The windows of the training loop *)

Lemma in_range_down (stop first idx : nat) :
  In idx (range_down stop first) <-> (first <= idx < stop)%nat.
Proof.
  unfold range_down. rewrite <- in_rev, in_seq. lia.
Qed.

Lemma window_not_nil (S : list str) (idx sz : nat) :
  (1 <= sz)%nat -> (idx < length S)%nat ->
  slice (idx + 1 - sz) (idx + 1) S <> [].
Proof.
  intros Hsz Hidx Hnil. apply (f_equal (@length str)) in Hnil.
  rewrite slice_length in Hnil by lia. simpl in Hnil. lia.
Qed.

Lemma split_context_gram_window (m : Model) (S : list str) (idx sz : nat) :
  Forall (tok_ok m) S -> (1 <= sz)%nat -> (idx < length S)%nat ->
  let w := slice (idx + 1 - sz) (idx + 1) S in
  split_context_gram m (get_ngram_by_last_index m S idx (Some (Z.of_nat sz)))
  = Ret (join m (removelast w), last w []).
Proof.
  intros HS Hsz Hidx w. rewrite ngram_window.
  apply split_context_gram_join.
  - now apply slice_Forall.
  - now apply window_not_nil.
Qed.

Lemma event_at_window (m : Model) (S : list str) (idx sz : nat) :
  Forall (tok_ok m) S -> (1 <= sz)%nat -> (idx < length S)%nat ->
  let w := slice (idx + 1 - sz) (idx + 1) S in
  event_at m S sz idx
  = (length (split m (join m (removelast w))), join m (removelast w), last w []).
Proof.
  intros HS Hsz Hidx w. unfold event_at, context_gram.
  rewrite split_context_gram_window by assumption. reflexivity.
Qed.

Lemma window_level_bound (m : Model) (S : list str) (idx sz : nat) :
  Forall (tok_ok m) S -> (1 <= sz)%nat -> (idx < length S)%nat ->
  let w := slice (idx + 1 - sz) (idx + 1) S in
  (length (split m (join m (removelast w))) < sz)%nat.
Proof.
  intros HS Hsz Hidx w.
  assert (Hle := split_join_le m (removelast w)
                   (removelast_Forall _ _ (slice_Forall _ _ _ _ HS))).
  rewrite removelast_length in Hle. unfold w in Hle at 2.
  rewrite slice_length in Hle by lia. lia.
Qed.

(** ** Running the training loops *)

Lemma step_counts_length (m : Model) (S : list str) (sz idx : nat) st :
  length (fst (step_counts m S sz st idx)) = length (fst st).
Proof.
  unfold step_counts, record_event. cbn [fst].
  destruct (event_at m S sz idx) as [[k c] t]. apply list_set_length.
Qed.

Lemma inner_counts_length (m : Model) (S : list str) (sz : nat) xs st :
  length (fst (fold_left (step_counts m S sz) xs st)) = length (fst st).
Proof.
  revert st. induction xs as [|x r IH]; intros st; simpl; [reflexivity|].
  rewrite IH. apply step_counts_length.
Qed.

Lemma inner_loop_run (w0 : World) (S : list str) (sz : nat) :
  let m := self w0 in
  Forall (tok_ok m) S -> (1 <= sz)%nat ->
  forall xs T D,
    (forall idx, In idx xs -> (idx < length S)%nat) ->
    (sz <= length T)%nat ->
    for_each xs (build_step S sz) (with_counts w0 T D)
    = (Ret tt,
       with_counts w0 (fst (fold_left (step_counts m S sz) xs (T, D)))
                      (snd (fold_left (step_counts m S sz) xs (T, D)))).
Proof.
  intros m HS Hsz xs. induction xs as [|idx r IH]; intros T D Hin HT.
  - reflexivity.
  - cbn [for_each fold_left]. unfold bind.
    assert (Hidx : (idx < length S)%nat) by (apply Hin; now left).
    rewrite (build_step_run w0 S sz idx T D _ _
               (split_context_gram_window m S idx sz HS Hsz Hidx)).
    + rewrite IH.
      * fold m. destruct (step_counts m S sz (T, D) idx); reflexivity.
      * intros i Hi. apply Hin. now right.
      * rewrite step_counts_length. exact HT.
    + pose proof (window_level_bound m S idx sz HS Hsz Hidx) as Hb.
      cbv zeta in Hb. fold m. lia.
Qed.

Lemma outer_counts_length (m : Model) (S : list str) szs st :
  length (fst (fold_left
    (fun st sz => fold_left (step_counts m S sz) (range_down (length S) (sz - 1)) st)
    szs st)) = length (fst st).
Proof.
  revert st. induction szs as [|x r IH]; intros st; simpl; [reflexivity|].
  rewrite IH. apply inner_counts_length.
Qed.

Lemma outer_loop_run (w0 : World) (S : list str) :
  let m := self w0 in
  Forall (tok_ok m) S ->
  forall szs T D,
    (forall sz, In sz szs -> (1 <= sz <= length T)%nat) ->
    for_each szs
      (fun sz => for_each (range_down (length S) (sz - 1)) (build_step S sz))
      (with_counts w0 T D)
    = (Ret tt,
       let st := fold_left
         (fun st sz =>
            fold_left (step_counts m S sz) (range_down (length S) (sz - 1)) st)
         szs (T, D) in
       with_counts w0 (fst st) (snd st)).
Proof.
  intros m HS szs. induction szs as [|sz r IH]; intros T D Hin.
  - reflexivity.
  - cbn [for_each fold_left]. unfold bind.
    assert (Hsz : (1 <= sz <= length T)%nat) by (apply Hin; now left).
    rewrite (inner_loop_run w0 S sz HS (proj1 Hsz)).
    + rewrite IH.
      * fold m. destruct (fold_left (step_counts m S sz) _ (T, D)); reflexivity.
      * intros i Hi. rewrite inner_counts_length. apply Hin. now right.
    + intros idx Hi. apply in_range_down in Hi. lia.
    + lia.
Qed.

(** ** Every stored count is positive *)

Lemma bump_positive (c t : str) (tbl : Table) :
  Forall (fun kv => positive_dict (snd kv)) tbl ->
  Forall (fun kv => positive_dict (snd kv)) (bump c t tbl).
Proof.
  intros H. unfold bump. destruct (dict_get c tbl) as [d|] eqn:Ed.
  - apply dict_set_Forall; [assumption|]. cbn [snd].
    apply dict_get_In in Ed.
    pose proof (proj1 (Forall_forall _ _) H _ Ed) as [Hnn Hd]. cbn [snd] in *.
    split; [apply dict_set_not_nil|].
    apply dict_set_Forall; [assumption|]. cbn [snd].
    destruct (dict_get t d) as [cnt|] eqn:Et; [|lia].
    apply dict_get_In in Et.
    pose proof (proj1 (Forall_forall _ _) Hd _ Et) as Hc. cbn [snd] in Hc. lia.
  - apply dict_set_Forall; [assumption|]. cbn [snd]. split; [easy|].
    constructor; [cbn; lia|constructor].
Qed.

Lemma record_event_positive (T : list Table) (e : event) :
  positive_tables T -> positive_tables (record_event T e).
Proof.
  intros H. destruct e as [[k c] t]. unfold record_event, positive_tables.
  apply list_set_Forall; [assumption|]. apply bump_positive.
  apply (nth_Forall (Forall (fun kv => positive_dict (snd kv)))); [assumption|constructor].
Qed.

Lemma loop_counts_positive (m : Model) (S : list str) st :
  positive_tables (fst st) -> positive_tables (fst (loop_counts m S st)).
Proof.
  unfold loop_counts. generalize (seq 1 (Z.to_nat (n m))) as szs.
  intros szs. revert st. induction szs as [|sz r IH]; intros st H; [assumption|].
  cbn [fold_left]. apply IH.
  generalize (range_down (length S) (sz - 1)) as xs. intros xs. revert st H.
  induction xs as [|x xs IHx]; intros st H; [assumption|].
  cbn [fold_left]. apply IHx. unfold step_counts. cbn [fst].
  now apply record_event_positive.
Qed.

Lemma repeat_nil_positive (N : nat) : positive_tables (repeat [] N).
Proof.
  unfold positive_tables. induction N; simpl; constructor; auto.
Qed.

Lemma level_totals_positive (t : Table) :
  Forall (fun kv => positive_dict (snd kv)) t ->
  Forall (fun s => (1 <= s)%Z) (level_totals t).
Proof.
  intros H. unfold level_totals. apply Forall_forall. intros s Hs.
  apply in_map_iff in Hs. destruct Hs as [c [<- Hc]].
  destruct (dict_get c t) as [d|] eqn:Ed.
  - apply dict_get_In in Ed.
    pose proof (proj1 (Forall_forall _ _) H _ Ed) as Hp.
    now apply zsum_positive.
  - apply dict_get_None_keys in Ed. contradiction.
Qed.

Lemma zsum_ge_1 (xs : list Z) :
  xs <> [] -> Forall (fun s => (1 <= s)%Z) xs -> (1 <= zsum xs)%Z.
Proof.
  intros Hnn H. destruct H as [|x r Hx Hr]; [easy|].
  rewrite zsum_cons. assert (0 <= zsum r)%Z; [|lia].
  clear -Hr. induction Hr as [|y r Hy _ IH]; [unfold zsum; simpl; lia|].
  rewrite zsum_cons. lia.
Qed.

(** ** What build_model returns *)

Lemma embed_repeat_nil (N : nat) :
  map (fun _ : nat => @nil (str * entry)) (seq 0 N) = map embed_level (repeat [] N).
Proof.
  generalize 0%nat. induction N as [|N IH]; intros s; simpl; [reflexivity|].
  f_equal. apply IH.
Qed.

Lemma totals_run (w : World) (T : list Table) (k : nat) (keys : list str) :
  context_by_n (self w) = Some (map embed_level T) ->
  (k < length T)%nat ->
  (forall c, In c keys -> dict_get c (nth k T []) <> None) ->
  map_M (fun context =>
           e <- level_getitem (Z.of_nat k) context ;; lift (entry_total e))
        keys w
  = (Ret (map (fun c => match dict_get c (nth k T []) with
                        | Some d => zsum (dict_values d)
                        | None => 0%Z
                        end) keys), w).
Proof.
  intros HT Hk. induction keys as [|c r IH]; intros Hin; [reflexivity|].
  cbn [map_M map]. unfold bind at 1. unfold bind at 1.
  destruct (dict_get c (nth k T [])) as [d|] eqn:Ed.
  - rewrite (level_getitem_ok w T k c d HT Hk Ed).
    unfold lift at 1. cbn [entry_total]. unfold bind at 1.
    rewrite IH by (intros c' Hc'; apply Hin; now right).
    reflexivity.
  - exfalso. apply (Hin c); [now left|assumption].
Qed.

Lemma quotients_run (w : World) (total : Z) (sums : list Z) :
  (sums <> [] -> total <> 0%Z) ->
  map_M (fun context_sum => lift (py_truediv context_sum total)) sums w
  = (Ret (map (fun s => (inject_Z s / inject_Z total)%Q) sums), w).
Proof.
  intros Ht. induction sums as [|s r IH]; [reflexivity|].
  assert (H0 : total <> 0%Z) by (apply Ht; easy).
  cbn [map_M map]. unfold bind at 1. unfold lift at 1.
  assert (Hq : py_truediv s total = Ret (inject_Z s / inject_Z total)%Q).
  { unfold py_truediv. destruct (total =? 0)%Z eqn:E; [lia|reflexivity]. }
  rewrite Hq. unfold bind at 1. rewrite IH by (intros _; assumption). reflexivity.
Qed.

Lemma loop_counts_length (m : Model) (S : list str) st :
  length (fst (loop_counts m S st)) = length (fst st).
Proof. apply outer_counts_length. Qed.

Lemma build_model_run (w0 : World) (text : str) :
  (1 <= n (self w0))%Z ->
  build_model text w0 = (Ret tt, built w0 text).
Proof.
  intros Hn. unfold build_model, built.
  set (m := self w0). set (S := split m text). set (N := Z.to_nat (n m)).
  unfold bind at 1. unfold get_self at 1. fold m. fold S. fold N.
  unfold bind at 1.
  assert (Hinit : set_context_by_n
            (Some (map (fun _ : nat => @nil (str * entry)) (seq 0 N))) w0
          = (Ret tt, with_counts w0 (repeat [] N) (model_dict m))).
  { unfold set_context_by_n, bind, get_self, put_self, with_counts.
    rewrite embed_repeat_nil. reflexivity. }
  rewrite Hinit. unfold bind at 1.
  rewrite (outer_loop_run w0 S (split_tok_ok m text)).
  2:{ intros sz Hsz. apply in_seq in Hsz. rewrite repeat_length. lia. }
  cbv zeta. fold (loop_counts m S (repeat [] N, model_dict m)).
  set (st := loop_counts m S (repeat [] N, model_dict m)).
  assert (Hlen : length (fst st) = N).
  { unfold st. rewrite loop_counts_length. apply repeat_length. }
  assert (Hpos : positive_tables (fst st)).
  { apply loop_counts_positive. apply repeat_nil_positive. }
  unfold bind at 1. unfold get_self at 1.
  unfold bind at 1.
  unfold set_V at 1. unfold bind at 1. unfold get_self at 1, put_self at 1.
  cbn [self with_counts n model_dict use_chars V context_by_n contexts_prob random_state].
  unfold bind at 1.
  set (w1 := mkWorld (mkModel (n m) (snd st) (use_chars m)
                        (Some (Z.of_nat (length (snd st))))
                        (Some (map embed_level (fst st))) (contexts_prob m))
                     (random_state w0)).
  assert (HN : (1 <= N)%nat /\ Z.of_nat N = n m) by (unfold N, m; lia).
  assert (Hk : (N - 1 < length (fst st))%nat) by lia.
  replace (n m - 1)%Z with (Z.of_nat (N - 1)) by lia.
  match goal with
  | |- (let (_, _) := level_at _ ?W in _) = _ => change W with w1
  end.
  rewrite (level_at_ok w1 (fst st) (N - 1) eq_refl Hk).
  unfold bind at 1.
  rewrite (totals_run w1 (fst st) (N - 1) _ eq_refl Hk).
  2:{ intros c Hc. rewrite dict_keys_embed in Hc.
      intros Hnone. apply dict_get_None_keys in Hnone. contradiction. }
  rewrite dict_keys_embed. fold (level_totals (nth (N - 1) (fst st) [])).
  replace (Z.to_nat (Z.of_nat (N - 1))) with (N - 1)%nat by lia.
  set (sums := level_totals (nth (N - 1) (fst st) [])).
  unfold bind at 1. rewrite quotients_run.
  - reflexivity.
  - intros Hnn. assert (1 <= zsum sums)%Z; [|lia].
    apply zsum_ge_1; [assumption|]. apply level_totals_positive.
    apply (nth_Forall (Forall (fun kv => positive_dict (snd kv)))); [assumption|constructor].
Qed.

Lemma build_model_nonpositive (w0 : World) (text : str) :
  (n (self w0) <= 0)%Z -> fst (build_model text w0) = Raise KeyError.
Proof.
  intros Hn. unfold build_model.
  unfold bind at 1. unfold get_self at 1.
  replace (Z.to_nat (n (self w0))) with 0%nat by lia. cbn [seq map for_each].
  unfold bind, set_context_by_n, bind, get_self, put_self, ret, set_V, bind,
    get_self, put_self, level_at, bind, get_self, raise. cbn.
  destruct (n (self w0) - 1 <? 0)%Z eqn:E; [reflexivity|lia].
Qed.

Lemma trained_built (w : World) :
  trained w ->
  exists w0 text, (1 <= n (self w0))%Z /\ w = built w0 text.
Proof.
  intros [w0 [text H]]. exists w0, text.
  destruct (Z_le_gt_dec (n (self w0)) 0) as [Hle|Hgt].
  - pose proof (build_model_nonpositive w0 text Hle) as Hr.
    rewrite H in Hr. discriminate.
  - split; [lia|]. rewrite build_model_run in H by lia. congruence.
Qed.

Lemma built_well_trained (w0 : World) (text : str) :
  (1 <= n (self w0))%Z -> well_trained (self (built w0 text)).
Proof.
  intros Hn. unfold well_trained, built. cbn [self context_by_n n V].
  eexists. eexists. split; [reflexivity|].
  split; [rewrite loop_counts_length; apply repeat_length|].
  split; [assumption|].
  split; [apply loop_counts_positive, repeat_nil_positive|].
  split; [reflexivity|lia].
Qed.

Lemma trained_well (w : World) : trained w -> well_trained (self w).
Proof.
  intros H. destruct (trained_built w H) as [w0 [text [Hn ->]]].
  now apply built_well_trained.
Qed.

(** ** Running the evaluator *)

Lemma bind_ret {A B} (c : M A) (k : A -> M B) (w w' : World) (a : A) :
  c w = (Ret a, w') -> bind c k w = k a w'.
Proof. intros H. unfold bind. now rewrite H. Qed.

Lemma bind_raise {A B} (c : M A) (k : A -> M B) (w w' : World) (e : Exn) :
  c w = (Raise e, w') -> bind c k w = (Raise e, w').
Proof. intros H. unfold bind. now rewrite H. Qed.

Lemma stored_embed (m : Model) (T : list Table) (k : nat) (c : str) :
  context_by_n m = Some (map embed_level T) -> (k < length T)%nat ->
  stored m k c = dict_get c (nth k T []).
Proof.
  intros HT Hk. unfold stored. rewrite HT, nth_error_embed, dict_get_embed by assumption.
  now destruct (dict_get c (nth k T [])).
Qed.

Lemma positive_lookup (T : list Table) (k : nat) (c : str) (d : Dict Z) :
  positive_tables T -> dict_get c (nth k T []) = Some d -> positive_dict d.
Proof.
  intros HT Hd. apply dict_get_In in Hd.
  assert (Hk : Forall (fun kv => positive_dict (snd kv)) (nth k T [])).
  { apply (nth_Forall (Forall (fun kv => positive_dict (snd kv)))); [assumption|constructor]. }
  apply (proj1 (Forall_forall _ _) Hk _ Hd).
Qed.

Lemma positive_count (d : Dict Z) (t : str) (cnt : Z) :
  positive_dict d -> dict_get t d = Some cnt -> (1 <= cnt)%Z.
Proof.
  intros [_ Hd] Ht. apply dict_get_In in Ht.
  apply (proj1 (Forall_forall _ _) Hd _ Ht).
Qed.

Lemma get_prob_run (w : World) (T : list Table) (c t : str) (d : Dict Z) (cnt : Z) :
  context_by_n (self w) = Some (map embed_level T) ->
  (length (split (self w) c) < length T)%nat ->
  dict_get c (nth (length (split (self w) c)) T []) = Some d ->
  dict_get t d = Some cnt ->
  get_prob c t w = (py_truediv cnt (zsum (dict_values d)), w).
Proof.
  intros HT Hk Hd Ht. unfold get_prob.
  rewrite (bind_ret get_self _ w w (self w) eq_refl).
  rewrite (bind_ret _ _ w w _ (level_getitem_ok w T _ c d HT Hk Hd)).
  unfold lift at 1. rewrite (bind_ret _ _ w w cnt)
    by (unfold entry_getitem; now rewrite Ht).
  rewrite (bind_ret _ _ w w _ (level_getitem_ok w T _ c d HT Hk Hd)).
  unfold lift at 1. rewrite (bind_ret _ _ w w (zsum (dict_values d)) eq_refl).
  reflexivity.
Qed.

Lemma smooth_run (w : World) (T : list Table) (c : str) (v : Z) :
  context_by_n (self w) = Some (map embed_level T) ->
  (length (split (self w) c) < length T)%nat ->
  V (self w) = Some v ->
  smooth c w
  = (py_truediv 1
       (match dict_get c (nth (length (split (self w) c)) T []) with
        | Some d => zsum (dict_values d)
        | None => 0
        end + v), w).
Proof.
  intros HT Hk HV. unfold smooth.
  rewrite (bind_ret get_self _ w w (self w) eq_refl).
  rewrite (bind_ret _ _ w w _ (level_at_ok w T _ HT Hk)).
  rewrite dict_mem_embed. unfold dict_mem.
  destruct (dict_get c (nth (length (split (self w) c)) T [])) as [d|] eqn:Ed.
  - erewrite bind_ret.
    2:{ rewrite (bind_ret _ _ w w _ (level_getitem_ok w T _ c d HT Hk Ed)).
        reflexivity. }
    rewrite HV. reflexivity.
  - rewrite (bind_ret _ _ w w 0%Z eq_refl). rewrite HV. reflexivity.
Qed.

Lemma quotient_positive (a b : Z) :
  (1 <= a)%Z -> (1 <= b)%Z ->
  py_truediv a b = Ret (inject_Z a / inject_Z b)%Q
  /\ math_log (inject_Z a / inject_Z b)%Q = Ret (Fln (inject_Z a / inject_Z b)%Q)
  /\ (0 < inject_Z a / inject_Z b)%Q.
Proof.
  intros Ha Hb.
  assert (Hpos : (0 < inject_Z a / inject_Z b)%Q).
  { apply Qlt_shift_div_l.
    - replace 0%Q with (inject_Z 0) by reflexivity. rewrite <- Zlt_Qlt. lia.
    - rewrite Qmult_0_l. replace 0%Q with (inject_Z 0) by reflexivity.
      rewrite <- Zlt_Qlt. lia. }
  split; [|split; [|assumption]].
  - unfold py_truediv. destruct (b =? 0)%Z eqn:E; [lia|reflexivity].
  - unfold math_log. destruct (Qle_bool _ 0) eqn:E; [|reflexivity].
    apply Qle_bool_iff in E. exfalso. apply (Qlt_not_le _ _ Hpos E).
Qed.

Lemma lift_run {A} (o : Outcome A) (w : World) : lift o w = (o, w).
Proof. reflexivity. Qed.

Lemma evaluate_step_run (w : World) (S : list str) (prob : flt) (i : nat) :
  well_trained (self w) -> Forall (tok_ok (self w)) S -> (i < length S)%nat ->
  evaluate_step S prob i w
  = (match spec_position_prob (self w) S i with
     | Ret q => Ret (Fadd prob (Fln q))
     | Raise e => Raise e
     end, w).
Proof.
  intros [T [v [HT [Hlen [Hn [Hpos [HV Hv]]]]]]] HS Hi.
  set (m := self w) in *.
  assert (HN : (1 <= Z.to_nat (n m))%nat /\ n m = Z.of_nat (Z.to_nat (n m))) by lia.
  unfold evaluate_step.
  rewrite (bind_ret get_self _ w w m eq_refl).
  assert (Hng : get_ngram_by_last_index m S i None
                = get_ngram_by_last_index m S i (Some (Z.of_nat (Z.to_nat (n m))))).
  { unfold get_ngram_by_last_index. now rewrite <- (proj2 HN). }
  rewrite Hng.
  pose proof (split_context_gram_window m S i _ HS (proj1 HN) Hi) as Hsplit.
  pose proof (window_level_bound m S i _ HS (proj1 HN) Hi) as Hlevel.
  cbv zeta in Hsplit, Hlevel. fold (window m S i) in Hsplit, Hlevel.
  unfold spec_position_prob. fold m.
  set (c := join m (removelast (window m S i))) in *.
  set (t := last (window m S i) []) in *.
  set (k := length (split m c)) in *.
  assert (Hk : (k < length T)%nat) by lia.
  rewrite (bind_ret _ _ w w (c, t))
    by (rewrite lift_run; now rewrite Hsplit).
  fold k.
  rewrite (bind_ret _ _ w w _ (level_at_ok w T k HT Hk)).
  rewrite dict_mem_embed. unfold dict_mem.
  rewrite (stored_embed m T k c HT Hk).
  assert (Hvoc : vocabulary m = v) by (unfold vocabulary; now rewrite HV).
  rewrite Hvoc.
  destruct (dict_get c (nth k T [])) as [d|] eqn:Ed.
  - pose proof (positive_lookup T k c d Hpos Ed) as Hd.
    pose proof (zsum_positive d Hd) as Hsum.
    erewrite bind_ret.
    2:{ rewrite (bind_ret _ _ w w _ (level_getitem_ok w T k c d HT Hk Ed)).
        reflexivity. }
    unfold dict_mem. destruct (dict_get t d) as [cnt|] eqn:Et.
    + pose proof (positive_count d t cnt Hd Et) as Hcnt.
      destruct (quotient_positive cnt (zsum (dict_values d)) Hcnt Hsum)
        as [Hq [Hlog _]].
      erewrite bind_ret.
      2:{ rewrite (get_prob_run w T c t d cnt HT Hk Ed Et), Hq. reflexivity. }
      rewrite (bind_ret _ _ w w _ (f_equal (fun o => (o, w)) Hlog)).
      reflexivity.
    + assert (Hden : (1 <= zsum (dict_values d) + v)%Z) by lia.
      destruct (quotient_positive 1 _ (Z.le_refl 1) Hden) as [Hq [Hlog _]].
      erewrite bind_ret.
      2:{ rewrite (smooth_run w T c v HT Hk HV). fold m. fold k. rewrite Ed, Hq.
          reflexivity. }
      rewrite (bind_ret _ _ w w _ (f_equal (fun o => (o, w)) Hlog)).
      reflexivity.
  - rewrite (bind_ret _ _ w w false eq_refl).
    destruct (v =? 0)%Z eqn:Ev.
    + erewrite bind_raise; [reflexivity|].
      rewrite (smooth_run w T c v HT Hk HV). fold m. fold k. rewrite Ed.
      unfold py_truediv. replace (0 + v =? 0)%Z with true by lia. reflexivity.
    + assert (Hden : (1 <= 0 + v)%Z) by lia.
      destruct (quotient_positive 1 _ (Z.le_refl 1) Hden) as [Hq [Hlog _]].
      erewrite bind_ret.
      2:{ rewrite (smooth_run w T c v HT Hk HV). fold m. fold k. rewrite Ed, Hq.
          reflexivity. }
      rewrite (bind_ret _ _ w w _ (f_equal (fun o => (o, w)) Hlog)).
      reflexivity.
Qed.

Lemma evaluate_fold_run (w : World) (S : list str) :
  well_trained (self w) -> Forall (tok_ok (self w)) S ->
  forall xs acc,
    (forall i, In i xs -> (i < length S)%nat) ->
    fold_M (evaluate_step S) xs acc w
    = (sum_logs (map (spec_position_prob (self w) S) xs) acc, w).
Proof.
  intros Hw HS xs. induction xs as [|i r IH]; intros acc Hin; [reflexivity|].
  cbn [fold_M map sum_logs].
  assert (Hi : (i < length S)%nat) by (apply Hin; now left).
  pose proof (evaluate_step_run w S acc i Hw HS Hi) as Hstep.
  destruct (spec_position_prob (self w) S i) as [q|e].
  - rewrite (bind_ret _ _ w w _ Hstep). apply IH.
    intros j Hj. apply Hin. now right.
  - now rewrite (bind_raise _ _ w w _ Hstep).
Qed.

(** On a trained model [evaluate] computes the contract's value, exception
    included, and leaves the world as it was. *)
Lemma evaluate_run (w : World) (text : str) :
  well_trained (self w) ->
  evaluate text w = (spec_evaluate (self w) (split (self w) text), w).
Proof.
  intros Hw. unfold evaluate, spec_evaluate.
  rewrite (bind_ret get_self _ w w (self w) eq_refl).
  apply evaluate_fold_run; [assumption|apply split_tok_ok|].
  intros i Hi. apply in_range_down in Hi. lia.
Qed.

(** ** Counts against the event list *)

Lemma loop_counts_tables (m : Model) (S : list str) (T : list Table) (D : Dict Z) :
  fst (loop_counts m S (T, D)) = fold_left record_event (events m S) T.
Proof.
  unfold loop_counts, events. generalize (seq 1 (Z.to_nat (n m))) as szs.
  intros szs. revert T D. induction szs as [|sz r IH]; intros T D; [reflexivity|].
  cbn [fold_left flat_map]. rewrite fold_left_app.
  assert (Hin : forall xs T D,
    fst (fold_left (step_counts m S sz) xs (T, D))
    = fold_left record_event (map (event_at m S sz) xs) T).
  { clear. intros xs. induction xs as [|x xs IHx]; intros T D; [reflexivity|].
    cbn [fold_left map]. unfold step_counts at 2. cbn [fst snd]. apply IHx. }
  unfold events_of_size. rewrite <- (Hin _ T D).
  destruct (fold_left (step_counts m S sz) _ (T, D)) as [T' D'].
  apply IH.
Qed.

Lemma key_eqb_eq (a b : nat * str) : key_eqb a b = true <-> a = b.
Proof.
  destruct a as [k c], b as [k' c']. unfold key_eqb. cbn [fst snd].
  rewrite andb_true_iff, Nat.eqb_eq, str_eqb_eq. split.
  - now intros [-> ->].
  - now intros [= -> ->].
Qed.

Lemma count_key_app (key : nat * str) (a b : list event) :
  count_key key (a ++ b) = (count_key key a + count_key key b)%nat.
Proof. unfold count_key. now rewrite filter_app, length_app. Qed.

Lemma counts_agree_step (done : list event) (T : list Table) (e : event) :
  counts_agree done T -> (fst (fst e) < length T)%nat ->
  counts_agree (done ++ [e]) (record_event T e).
Proof.
  intros Hinv Hlt. destruct e as [[k0 c0] t0]. cbn [fst] in Hlt.
  unfold counts_agree in *.
  intros k c. specialize (Hinv k c). rewrite count_key_app.
  unfold record_event.
  destruct (Nat.eq_dec k0 k) as [->|Hk].
  - rewrite list_set_nth_same by assumption.
    destruct (str_eqb c0 c) eqn:Ec.
    + apply str_eqb_eq in Ec. subst c0.
      assert (Hone : count_key (k, c) (@cons event (k, c, t0) nil) = 1%nat).
      { unfold count_key. cbn [filter event_key fst].
        now rewrite (proj2 (key_eqb_eq (k, c) (k, c)) eq_refl). }
      rewrite Hone. unfold bump.
      destruct (dict_get c (nth k T [])) as [d|] eqn:Ed.
      * rewrite dict_get_set_same. destruct Hinv as [Hsum Hall]. split.
        -- rewrite zsum_set, Hsum. destruct (dict_get t0 d); lia.
        -- apply dict_set_Forall.
           ++ eapply Forall_impl; [|exact Hall]. intros kv Hkv.
              apply in_or_app. now left.
           ++ cbn [fst]. apply in_or_app. right. now left.
      * rewrite dict_get_set_same. split.
        -- rewrite Hinv. reflexivity.
        -- constructor; [|constructor]. cbn [fst]. apply in_or_app. right. now left.
    + assert (Hzero : count_key (k, c) (@cons event (k, c0, t0) nil) = 0%nat).
      { unfold count_key. cbn [filter event_key fst].
        unfold key_eqb. cbn [fst snd]. now rewrite Ec, andb_false_r. }
      rewrite Hzero, Nat.add_0_r.
      assert (Hget : dict_get c (bump c0 t0 (nth k T [])) = dict_get c (nth k T [])).
      { unfold bump. apply str_eqb_neq in Ec.
        destruct (dict_get c0 (nth k T [])); now apply dict_get_set_other. }
      rewrite Hget. destruct (dict_get c (nth k T [])); [|assumption].
      destruct Hinv as [Hsum Hall]. split; [assumption|].
      eapply Forall_impl; [|exact Hall]. intros kv Hkv. apply in_or_app. now left.
  - rewrite list_set_nth_other by assumption.
    assert (Hzero : count_key (k, c) (@cons event (k0, c0, t0) nil) = 0%nat).
    { unfold count_key. cbn [filter event_key fst].
      unfold key_eqb. cbn [fst snd].
      now rewrite (proj2 (Nat.eqb_neq k0 k) Hk). }
    rewrite Hzero, Nat.add_0_r.
    destruct (dict_get c (nth k T [])); [|assumption].
    destruct Hinv as [Hsum Hall]. split; [assumption|].
    eapply Forall_impl; [|exact Hall]. intros kv Hkv. apply in_or_app. now left.
Qed.

Lemma record_event_length (T : list Table) (e : event) :
  length (record_event T e) = length T.
Proof. destruct e as [[k c] t]. apply list_set_length. Qed.

Lemma counts_agree_fold (evs done : list event) (T : list Table) :
  counts_agree done T ->
  (forall e, In e evs -> (fst (fst e) < length T)%nat) ->
  counts_agree (done ++ evs) (fold_left record_event evs T).
Proof.
  revert done T. induction evs as [|e r IH]; intros done T Hinv Hlt.
  - now rewrite app_nil_r.
  - cbn [fold_left].
    replace (done ++ e :: r) with ((done ++ [e]) ++ r)
      by (now rewrite <- app_assoc).
    apply IH.
    + apply counts_agree_step; [assumption|]. apply Hlt. now left.
    + intros e' He'. rewrite record_event_length. apply Hlt. now right.
Qed.

Lemma nth_repeat_nil {A} (k N : nat) : nth k (repeat (@nil A) N) [] = [].
Proof.
  destruct (Nat.lt_ge_cases k N) as [Hlt|Hge].
  - now rewrite nth_repeat_lt.
  - apply nth_overflow. now rewrite repeat_length.
Qed.

Lemma counts_agree_init (N : nat) : counts_agree [] (repeat [] N).
Proof.
  unfold counts_agree. intros k c.
  change (@nth Table) with (@nth (list (str * Dict Z))).
  rewrite nth_repeat_nil. reflexivity.
Qed.

Lemma events_level_bound (m : Model) (S : list str) (e : event) :
  Forall (tok_ok m) S -> In e (events m S) ->
  (fst (fst e) < Z.to_nat (n m))%nat.
Proof.
  intros HS He. unfold events in He. apply in_flat_map in He.
  destruct He as [sz [Hsz He]]. apply in_seq in Hsz.
  unfold events_of_size in He. apply in_map_iff in He.
  destruct He as [idx [<- Hidx]]. apply in_range_down in Hidx.
  rewrite event_at_window by (assumption || lia). cbn [fst].
  pose proof (window_level_bound m S idx sz HS) as Hb. cbv zeta in Hb.
  specialize (Hb ltac:(lia) ltac:(lia)). lia.
Qed.

Lemma built_counts_agree (w0 : World) (text : str) :
  let m := self w0 in
  let S := split m text in
  counts_agree (events m S)
    (fst (loop_counts m S (repeat [] (Z.to_nat (n m)), model_dict m))).
Proof.
  intros m S. rewrite loop_counts_tables.
  apply (counts_agree_fold (events m S) [] _ (counts_agree_init _)).
  intros e He. rewrite repeat_length.
  apply (events_level_bound m S e (split_tok_ok m text) He).
Qed.

(** ** Events of a corpus without empty tokens *)

Lemma removelast_slice {A} (a b : nat) (l : list A) :
  (a <= b)%nat -> (b < length l)%nat ->
  removelast (slice a (b + 1) l) = slice a b l.
Proof.
  intros Hab Hb. unfold slice.
  replace (b + 1 - a)%nat with (Datatypes.S (b - a)) by lia.
  apply removelast_firstn. rewrite length_skipn. lia.
Qed.

Lemma last_In {A} (l : list A) (d : A) : l <> [] -> In (last l d) l.
Proof.
  induction l as [|x r IH]; [easy|]. intros _.
  destruct r as [|y r']; [now left|]. right. apply IH. easy.
Qed.

Lemma slice_In {A} (a b : nat) (l : list A) (x : A) :
  In x (slice a b l) -> In x l.
Proof.
  intros H. unfold slice in H.
  rewrite <- (firstn_skipn a l). apply in_or_app. right.
  rewrite <- (firstn_skipn (b - a) (skipn a l)). apply in_or_app. now left.
Qed.

Lemma event_at_context (m : Model) (S : list str) (sz idx : nat) :
  Forall (tok_ok m) S -> Forall (fun t => t <> []) S ->
  (1 <= sz)%nat -> (sz - 1 <= idx < length S)%nat ->
  event_at m S sz idx
  = ((sz - 1)%nat, join m (slice (idx + 1 - sz) idx S),
     last (slice (idx + 1 - sz) (idx + 1) S) []).
Proof.
  intros HS Hne Hsz Hidx.
  rewrite event_at_window by (assumption || lia).
  rewrite removelast_slice by lia.
  rewrite split_join by (apply slice_Forall; assumption).
  rewrite slice_length by lia.
  f_equal. f_equal. lia.
Qed.

Lemma filter_map_length {A B} (P : B -> bool) (Q : A -> bool) (g : A -> B) (xs : list A) :
  (forall x, In x xs -> P (g x) = Q x) ->
  length (filter P (map g xs)) = length (filter Q xs).
Proof.
  induction xs as [|x r IH]; intros H; [reflexivity|].
  cbn [map filter]. rewrite (H x) by now left.
  pose proof (IH (fun y Hy => H y (or_intror Hy))) as IH'.
  destruct (Q x); cbn [length]; now rewrite IH'.
Qed.

Lemma join_eq_tokens (m : Model) (ctx : list str) (c : str) :
  Forall (tok_ok m) ctx -> Forall (fun t => t <> []) ctx ->
  str_eqb (join m ctx) c = tokens_eqb ctx (split m c).
Proof.
  intros Hok Hne. destruct (tokens_eqb ctx (split m c)) eqn:E.
  - apply tokens_eqb_eq in E. subst ctx. apply str_eqb_eq. apply join_split.
  - apply str_eqb_neq. intros <-. rewrite split_join in E by assumption.
    rewrite (proj2 (tokens_eqb_eq ctx ctx) eq_refl) in E. discriminate.
Qed.

Lemma count_events_of_size (m : Model) (S : list str) (k : nat) (c : str) :
  Forall (tok_ok m) S -> Forall (fun t => t <> []) S ->
  count_key (k, c) (events_of_size m S (k + 1))
  = length (filter (fun idx => tokens_eqb (slice (idx - k) idx S) (split m c))
                   (range_down (length S) k)).
Proof.
  intros HS Hne. unfold count_key, events_of_size.
  replace (k + 1 - 1)%nat with k by lia.
  apply filter_map_length. intros idx Hidx. apply in_range_down in Hidx.
  rewrite event_at_context by (assumption || lia).
  unfold event_key, key_eqb. cbn [fst snd].
  replace (k + 1 - 1)%nat with k by lia. rewrite Nat.eqb_refl. cbn [andb].
  replace (idx + 1 - (k + 1))%nat with (idx - k)%nat by lia.
  apply join_eq_tokens; apply slice_Forall; assumption.
Qed.

Lemma count_events_other_size (m : Model) (S : list str) (k sz : nat) (c : str) :
  Forall (tok_ok m) S -> Forall (fun t => t <> []) S ->
  (1 <= sz)%nat -> sz <> (k + 1)%nat ->
  count_key (k, c) (events_of_size m S sz) = 0%nat.
Proof.
  intros HS Hne Hsz Hk. unfold count_key, events_of_size.
  rewrite (filter_map_length _ (fun _ => false)).
  - induction (range_down (length S) (sz - 1)); auto.
  - intros idx Hidx. apply in_range_down in Hidx.
    rewrite event_at_context by (assumption || lia).
    unfold event_key, key_eqb. cbn [fst snd].
    rewrite (proj2 (Nat.eqb_neq (sz - 1) k)) by lia. reflexivity.
Qed.

Lemma count_events (m : Model) (S : list str) (k : nat) (c : str) :
  Forall (tok_ok m) S -> Forall (fun t => t <> []) S ->
  count_key (k, c) (events m S)
  = if (k <? Z.to_nat (n m))%nat
    then count_key (k, c) (events_of_size m S (k + 1)) else 0%nat.
Proof.
  intros HS Hne. unfold events.
  assert (Hgen : forall len a, (1 <= a)%nat ->
    count_key (k, c) (flat_map (events_of_size m S) (seq a len))
    = if ((a <=? k + 1) && (k + 1 <? a + len))%nat
      then count_key (k, c) (events_of_size m S (k + 1)) else 0%nat).
  { induction len as [|len IH]; intros a Ha.
    - cbn [seq flat_map].
      destruct ((a <=? k + 1) && (k + 1 <? a + 0))%nat eqn:E; [|reflexivity].
      apply andb_true_iff in E. destruct E as [E1 E2].
      apply Nat.leb_le in E1. apply Nat.ltb_lt in E2. lia.
    - cbn [seq flat_map]. rewrite count_key_app, IH by lia.
      destruct (Nat.eq_dec a (k + 1)) as [->|Hak].
      + replace ((Datatypes.S (k + 1) <=? k + 1)%nat) with false
          by (symmetry; apply Nat.leb_gt; lia).
        replace ((k + 1 <=? k + 1)%nat) with true
          by (symmetry; apply Nat.leb_le; lia).
        replace ((k + 1 <? k + 1 + Datatypes.S len)%nat) with true
          by (symmetry; apply Nat.ltb_lt; lia).
        cbn [andb]. lia.
      + rewrite count_events_other_size by (assumption || lia).
        rewrite Nat.add_0_l.
        destruct (Nat.leb_spec a (k + 1)), (Nat.leb_spec (Datatypes.S a) (k + 1)),
                 (Nat.ltb_spec (k + 1) (Datatypes.S a + len)),
                 (Nat.ltb_spec (k + 1) (a + Datatypes.S len));
          cbn [andb]; try reflexivity; lia. }
  rewrite Hgen by lia.
  destruct (k <? Z.to_nat (n m))%nat eqn:E.
  - apply Nat.ltb_lt in E.
    replace ((1 <=? k + 1)%nat) with true by (symmetry; apply Nat.leb_le; lia).
    replace ((k + 1 <? 1 + Z.to_nat (n m))%nat) with true
      by (symmetry; apply Nat.ltb_lt; lia).
    reflexivity.
  - apply Nat.ltb_ge in E.
    replace ((k + 1 <? 1 + Z.to_nat (n m))%nat) with false
      by (symmetry; apply Nat.ltb_ge; lia).
    now rewrite andb_false_r.
Qed.

Lemma token_prefix_firstn (pat S : list str) :
  (length pat <= length S)%nat ->
  tokens_eqb (firstn (length pat) S) pat = token_prefix pat S.
Proof.
  revert S. induction pat as [|p r IH]; intros S HS.
  - reflexivity.
  - destruct S as [|x S']; [simpl in HS; lia|].
    cbn [length firstn tokens_eqb token_prefix].
    rewrite IH by (simpl in HS; lia). now rewrite (str_eqb_sym x p).
Qed.

Lemma occurrences_count (pat S : list str) :
  length (filter (fun idx => tokens_eqb (slice (idx - length pat) idx S) pat)
                 (range_down (length S) (length pat)))
  = occurrences_followed pat S.
Proof.
  unfold range_down. rewrite filter_rev, length_rev.
  set (k := length pat).
  induction S as [|x r IH]; [reflexivity|].
  cbn [occurrences_followed]. rewrite <- IH. clear IH.
  cbn [length]. fold k.
  destruct (k <? Datatypes.S (length r))%nat eqn:E.
  - apply Nat.ltb_lt in E.
    replace (Datatypes.S (length r) - k)%nat with (Datatypes.S (length r - k)) by lia.
    cbn [seq filter].
    replace (k - k)%nat with 0%nat by lia.
    assert (Hhead : tokens_eqb (slice 0 k (x :: r)) pat = token_prefix pat (x :: r)).
    { unfold slice. rewrite Nat.sub_0_r, skipn_0. apply token_prefix_firstn.
      simpl. fold k. lia. }
    rewrite Hhead.
    assert (Htail :
      length (filter (fun idx => tokens_eqb (slice (idx - k) idx (x :: r)) pat)
                     (seq (Datatypes.S k) (length r - k)))
      = length (filter (fun idx => tokens_eqb (slice (idx - k) idx r) pat)
                       (seq k (length r - k)))).
    { rewrite <- seq_shift. apply filter_map_length.
      intros idx Hidx. apply in_seq in Hidx.
      replace (Datatypes.S idx - k)%nat with (Datatypes.S (idx - k)) by lia.
      unfold slice. cbn [skipn].
      replace (Datatypes.S idx - Datatypes.S (idx - k))%nat
        with (idx - (idx - k))%nat by lia.
      reflexivity. }
    rewrite andb_true_r.
    destruct (token_prefix pat (x :: r)); cbn [length]; rewrite Htail; lia.
  - apply Nat.ltb_ge in E.
    replace (Datatypes.S (length r) - k)%nat with 0%nat by lia.
    replace (length r - k)%nat with 0%nat by lia.
    rewrite andb_false_r. reflexivity.
Qed.

Lemma split_same_mode (m m' : Model) (text : str) :
  use_chars m = use_chars m' -> split m text = split m' text.
Proof. intros H. unfold split. now rewrite H. Qed.

Lemma join_singleton (m : Model) (t : str) : join m [t] = t.
Proof.
  unfold join. destruct (use_chars m); cbn; [apply app_nil_r|reflexivity].
Qed.

Lemma stored_built (w0 : World) (text : str) (k : nat) (c : str) (d : Dict Z) :
  let m := self w0 in
  let T := fst (loop_counts m (split m text)
                  (repeat [] (Z.to_nat (n m)), model_dict m)) in
  stored (self (built w0 text)) k c = Some d ->
  (k < Z.to_nat (n m))%nat /\ dict_get c (nth k T []) = Some d.
Proof.
  intros m T H.
  assert (Hlen : length T = Z.to_nat (n m)).
  { unfold T. rewrite loop_counts_length. apply repeat_length. }
  destruct (Nat.lt_ge_cases k (length T)) as [Hlt|Hge].
  - rewrite (stored_embed (self (built w0 text)) T k c eq_refl Hlt) in H.
    split; [lia|assumption].
  - unfold stored, built in H. cbn [self context_by_n] in H. fold m in H. fold T in H.
    assert (Hnone : nth_error (map embed_level T) k = None).
    { apply nth_error_None. now rewrite length_map. }
    rewrite Hnone in H. discriminate.
Qed.

Lemma event_last_gram (m : Model) (S : list str) (k : nat) (c t : str) :
  Forall (tok_ok m) S -> Forall (fun x => x <> []) S ->
  In (k, c, t) (events m S) -> split m t = [t].
Proof.
  intros HS Hne He. unfold events in He. apply in_flat_map in He.
  destruct He as [sz [Hsz He]]. apply in_seq in Hsz.
  unfold events_of_size in He. apply in_map_iff in He.
  destruct He as [idx [Heq Hidx]]. apply in_range_down in Hidx.
  rewrite event_at_context in Heq by (assumption || lia).
  injection Heq as _ _ Ht.
  assert (Hin : In t S).
  { rewrite <- Ht. eapply slice_In. apply last_In.
    apply window_not_nil; lia. }
  rewrite <- (join_singleton m t) at 1. apply split_join.
  - constructor; [|constructor]. apply (proj1 (Forall_forall _ _) HS _ Hin).
  - constructor; [|constructor]. apply (proj1 (Forall_forall _ _) Hne _ Hin).
Qed.

Lemma filter_positive_witness {A} (P : A -> bool) (xs : list A) :
  (1 <= length (filter P xs))%nat -> exists x, In x xs /\ P x = true.
Proof.
  intros H. destruct (filter P xs) as [|x r] eqn:E; [simpl in H; lia|].
  exists x. apply filter_In. rewrite E. now left.
Qed.

(** ** C2: the context tables recount the corpus *)

(** Claim C2, as amended.  For a model trained by [build_model] on a corpus
    whose tokenization has no empty token (always so in character mode; in
    word mode: no leading, trailing or doubled space), every stored context
    [c] at level [k] satisfies: [k <= n - 1]; the counts under [c] add up to
    the number of positions of the tokenized corpus where the tokens of [c]
    occur as a contiguous span followed by one more token; every count is at
    least 1 and every key under [c] is a single token; and [c] has exactly
    [k] tokens. *)
Theorem context_counts_recount_corpus
    (w0 w : World) (text : str) (k : nat) (c : str) (d : Dict Z) :
  build_model text w0 = (Ret tt, w) ->
  Forall (fun t => t <> []) (split (self w) text) ->
  stored (self w) k c = Some d ->
  (Z.of_nat k <= n (self w) - 1)%Z
  /\ zsum (dict_values d)
     = Z.of_nat (occurrences_followed (split (self w) c) (split (self w) text))
  /\ Forall (fun kv => (1 <= snd kv)%Z /\ split (self w) (fst kv) = [fst kv]) d
  /\ length (split (self w) c) = k.
Proof.
  intros Hbuild Hne Hst.
  assert (Hn : (1 <= n (self w0))%Z).
  { destruct (Z_le_gt_dec (n (self w0)) 0) as [Hle|Hgt]; [|lia].
    pose proof (build_model_nonpositive w0 text Hle) as Hr.
    rewrite Hbuild in Hr. discriminate. }
  rewrite build_model_run in Hbuild by assumption.
  injection Hbuild as <-.
  set (m := self w0) in *.
  assert (Hsp : forall x, split (self (built w0 text)) x = split m x).
  { intros x. apply split_same_mode. reflexivity. }
  rewrite !Hsp in *. change (n (self (built w0 text))) with (n m).
  assert (HS := split_tok_ok m text).
  set (S := split m text) in *.
  destruct (stored_built w0 text k c d Hst) as [Hk Hd]. fold m in Hk, Hd. fold S in Hd.
  pose proof (built_counts_agree w0 text k c) as Hagree.
  cbv zeta in Hagree. fold m in Hagree. fold S in Hagree.
  rewrite Hd in Hagree. destruct Hagree as [Hsum Hall].
  assert (Hposd : positive_dict d).
  { eapply positive_lookup; [|exact Hd].
    apply loop_counts_positive, repeat_nil_positive. }
  rewrite (count_events m S k c HS Hne) in Hsum.
  rewrite (proj2 (Nat.ltb_lt _ _) Hk) in Hsum.
  rewrite (count_events_of_size m S k c HS Hne) in Hsum.
  assert (Hlen : length (split m c) = k).
  { pose proof (zsum_positive d Hposd) as Hp. rewrite Hsum in Hp.
    apply (Z2Nat.inj_le 1) in Hp; [|lia|lia]. rewrite Nat2Z.id in Hp.
    change (Z.to_nat 1) with 1%nat in Hp.
    destruct (filter_positive_witness _ _ Hp) as [idx [Hidx Heq]].
    apply in_range_down in Hidx. apply tokens_eqb_eq in Heq.
    rewrite <- Heq. rewrite slice_length by lia. lia. }
  split; [lia|]. split; [|split; [|exact Hlen]].
  - rewrite Hsum. f_equal. rewrite <- Hlen. apply occurrences_count.
  - destruct Hposd as [_ Hpos]. apply Forall_forall. intros [t cnt] Hin.
    cbn [fst snd]. split.
    + apply (proj1 (Forall_forall _ _) Hpos _ Hin).
    + pose proof (proj1 (Forall_forall _ _) Hall _ Hin) as He. cbn [fst] in He.
      rewrite Hsp. apply (event_last_gram m S k c t HS Hne He).
Qed.

Lemma context_counts_recount_corpus_witness :
  let w := trained_on 2 false "a b a b a" in
  (Z.of_nat 1 <= n (self w) - 1)%Z
  /\ zsum (dict_values [(lit "b", 2%Z)])
     = Z.of_nat (occurrences_followed (split (self w) (lit "a"))
                   (split (self w) (lit "a b a b a")))
  /\ Forall (fun kv => (1 <= snd kv)%Z /\ split (self w) (fst kv) = [fst kv])
            [(lit "b", 2%Z)]
  /\ length (split (self w) (lit "a")) = 1%nat.
Proof.
  apply (context_counts_recount_corpus (fresh 2 false)
           (trained_on 2 false "a b a b a") (lit "a b a b a") 1 (lit "a")
           [(lit "b", 2%Z)]).
  - vm_compute. reflexivity.
  - vm_compute. repeat constructor; discriminate.
  - vm_compute. reflexivity.
Defined.

(** Claim C2 as stated fails on a word-mode corpus with an empty token:
    for n = 2 and the corpus " a" (tokens "", "a"), the one-token context ""
    is filed at level 0, whose counts then add up to 3 while the empty
    context is followed by a token at only 2 positions. *)
Lemma context_counts_empty_token_counterexample :
  let w := trained_on 2 false " a" in
  build_model (lit " a") (fresh 2 false) = (Ret tt, w)
  /\ exists d,
       stored (self w) 0 [] = Some d
       /\ zsum (dict_values d) = 3%Z
       /\ occurrences_followed (split (self w) []) (split (self w) (lit " a")) = 2%nat
       /\ zsum (dict_values d)
          <> Z.of_nat (occurrences_followed (split (self w) [])
                         (split (self w) (lit " a"))).
Proof.
  split; [vm_compute; reflexivity|].
  exists [(lit "a", 2%Z); ([], 1%Z)].
  repeat split; try (vm_compute; reflexivity). vm_compute. discriminate.
Qed.

(** ** C10: a corpus shorter than the window *)

Lemma events_level_lt_length (m : Model) (S : list str) (e : event) :
  Forall (tok_ok m) S -> In e (events m S) -> (fst (fst e) < length S)%nat.
Proof.
  intros HS He. unfold events in He. apply in_flat_map in He.
  destruct He as [sz [Hsz He]]. apply in_seq in Hsz.
  unfold events_of_size in He. apply in_map_iff in He.
  destruct He as [idx [<- Hidx]]. apply in_range_down in Hidx.
  rewrite event_at_window by (assumption || lia). cbn [fst].
  pose proof (window_level_bound m S idx sz HS) as Hb. cbv zeta in Hb.
  specialize (Hb ltac:(lia) ltac:(lia)). lia.
Qed.

Lemma count_key_absent (key : nat * str) (evs : list event) :
  (forall e, In e evs -> event_key e <> key) -> count_key key evs = 0%nat.
Proof.
  intros H. unfold count_key. induction evs as [|e r IH]; [reflexivity|].
  cbn [filter]. destruct (key_eqb (event_key e) key) eqn:E.
  - apply key_eqb_eq in E. exfalso. apply (H e); [now left|assumption].
  - apply IH. intros e' He'. apply H. now right.
Qed.

Lemma dict_all_absent {A} (d : Dict A) :
  (forall c, dict_get c d = None) -> d = [].
Proof.
  destruct d as [|[k v] r]; [reflexivity|]. intros H. specialize (H k).
  simpl in H. rewrite str_eqb_refl in H. discriminate.
Qed.

Lemma loop_counts_short_dict (m : Model) (S : list str) (T : list Table) (D : Dict Z) :
  (Z.of_nat (length S) < n m)%Z -> snd (loop_counts m S (T, D)) = D.
Proof.
  intros Hshort. unfold loop_counts.
  assert (Hgen : forall szs T,
    (forall sz, In sz szs -> (Z.of_nat sz <= n m)%Z) ->
    snd (fold_left
           (fun st sz =>
              fold_left (step_counts m S sz) (range_down (length S) (sz - 1)) st)
           szs (T, D)) = D).
  { intros szs. induction szs as [|sz r IH]; intros T0 Hall; [reflexivity|].
    cbn [fold_left].
    assert (Hin : forall xs T1,
      (Z.of_nat sz < n m)%Z \/ xs = [] ->
      exists T2, fold_left (step_counts m S sz) xs (T1, D) = (T2, D)).
    { intros xs. induction xs as [|x xs IHx]; intros T1 Hor.
      - now exists T1.
      - destruct Hor as [Hlt|Hnil]; [|discriminate].
        cbn [fold_left]. unfold step_counts at 2. cbn [fst snd].
        replace (Z.of_nat sz =? n m)%Z with false by lia.
        apply IHx. now left. }
    destruct (Hin (range_down (length S) (sz - 1)) T0) as [T2 HT2].
    - destruct (Z.eq_dec (Z.of_nat sz) (n m)) as [Heq|Hneq].
      + right. unfold range_down.
        replace (length S - (sz - 1))%nat with 0%nat by lia. reflexivity.
      + left. specialize (Hall sz (or_introl eq_refl)). lia.
    - rewrite HT2. apply IH. intros sz' Hsz'. apply Hall. now right. }
  apply Hgen. intros sz Hsz. apply in_seq in Hsz. lia.
Qed.

(** Claim C10.  On a fresh model, a corpus whose tokenization has fewer than
    [n] tokens (the empty corpus included) makes [build_model] return without
    raising, with an empty table [context_by_n[n-1]], [V = 0] and an empty
    [contexts_prob]. *)
Theorem short_corpus_builds_empty_top_level
    (n0 : Z) (chars : bool) (text : str) (w0 : World) :
  __init__ n0 chars = Ret (self w0) ->
  (Z.of_nat (length (split (self w0) text)) < n0)%Z ->
  exists w levels,
    build_model text w0 = (Ret tt, w)
    /\ context_by_n (self w) = Some levels
    /\ nth_error levels (Z.to_nat (n0 - 1)) = Some []
    /\ V (self w) = Some 0%Z
    /\ contexts_prob (self w) = [].
Proof.
  intros Hinit Hshort. injection Hinit as Hself.
  assert (Hn0 : n (self w0) = n0) by (now rewrite <- Hself).
  assert (HD0 : model_dict (self w0) = []) by (now rewrite <- Hself).
  set (m := self w0) in *. set (S := split m text) in *.
  assert (Hn : (1 <= n m)%Z) by lia.
  set (st := loop_counts m S (repeat [] (Z.to_nat (n m)), model_dict m)).
  assert (Hlen : length (fst st) = Z.to_nat (n m)).
  { unfold st. rewrite loop_counts_length. apply repeat_length. }
  assert (Hdict : snd st = []).
  { unfold st. rewrite loop_counts_short_dict by lia. exact HD0. }
  assert (Htop : nth (Z.to_nat (n m - 1)) (fst st) [] = []).
  { apply dict_all_absent. intros c.
    pose proof (built_counts_agree w0 text (Z.to_nat (n m - 1)) c) as Hagree.
    cbv zeta in Hagree. fold m in Hagree. fold S in Hagree. fold st in Hagree.
    destruct (dict_get c (nth (Z.to_nat (n m - 1)) (fst st) [])) as [d|] eqn:Ed;
      [|reflexivity].
    exfalso. destruct Hagree as [Hsum _].
    rewrite count_key_absent in Hsum.
    - assert (Hpos : positive_dict d).
      { eapply positive_lookup; [|exact Ed].
        apply loop_counts_positive, repeat_nil_positive. }
      pose proof (zsum_positive d Hpos). lia.
    - intros e He Hkey.
      pose proof (events_level_lt_length m S e (split_tok_ok m text) He) as Hlt.
      unfold event_key in Hkey. rewrite Hkey in Hlt. cbn [fst] in Hlt. lia. }
  exists (built w0 text), (map embed_level (fst st)).
  split; [apply build_model_run; exact Hn|].
  unfold built. fold m. fold S. fold st. cbn [self context_by_n V contexts_prob].
  split; [reflexivity|]. rewrite <- Hn0.
  split; [|split].
  - rewrite nth_error_embed by lia. now rewrite Htop.
  - now rewrite Hdict.
  - rewrite Htop. reflexivity.
Qed.

Lemma short_corpus_builds_empty_top_level_witness :
  exists w levels,
    build_model (lit "a b") (fresh 3 false) = (Ret tt, w)
    /\ context_by_n (self w) = Some levels
    /\ nth_error levels (Z.to_nat (3 - 1)) = Some []
    /\ V (self w) = Some 0%Z
    /\ contexts_prob (self w) = [].
Proof.
  apply (short_corpus_builds_empty_top_level 3 false (lit "a b") (fresh 3 false)).
  - reflexivity.
  - vm_compute. reflexivity.
Defined.

(** ** C9: the constructor and the window size *)

(** Claim C9, as amended.  The constructor checks nothing: for a non-positive
    [n] it still returns a model object, with [n] stored as given and every
    table empty or unset; such a model is only turned down later, when
    [build_model] raises [KeyError] on [context_by_n[n - 1]]. *)
Theorem constructor_accepts_nonpositive_window
    (n0 : Z) (chars : bool) (text : str) (r : Rng) :
  (n0 <= 0)%Z ->
  exists m,
    __init__ n0 chars = Ret m
    /\ n m = n0 /\ model_dict m = [] /\ V m = None /\ context_by_n m = None
    /\ contexts_prob m = []
    /\ fst (build_model text (mkWorld m r)) = Raise KeyError.
Proof.
  intros Hn. eexists. split; [reflexivity|]. cbn [n model_dict V context_by_n contexts_prob].
  repeat (split; [reflexivity|]).
  apply build_model_nonpositive. cbn [self n]. exact Hn.
Qed.

Lemma constructor_accepts_nonpositive_window_witness :
  exists m,
    __init__ 0 false = Ret m
    /\ n m = 0%Z /\ model_dict m = [] /\ V m = None /\ context_by_n m = None
    /\ contexts_prob m = []
    /\ fst (build_model (lit "a b") (mkWorld m rng0)) = Raise KeyError.
Proof.
  apply (constructor_accepts_nonpositive_window 0 false (lit "a b") rng0).
  lia.
Defined.

(** Claim C9 as stated fails: with the non-positive window sizes 0 and -3
    the constructor returns a model object. *)
Lemma constructor_rejects_nothing_counterexample :
  (0 <= 0)%Z /\ (-3 <= 0)%Z
  /\ __init__ 0 false = Ret (mkModel 0 [] false None None [])
  /\ __init__ (-3) true = Ret (mkModel (-3) [] true None None [])
  /\ ~ (exists e, __init__ 0 false = Raise e).
Proof.
  repeat split; try lia. intros [e He]. discriminate.
Qed.

(** ** C7: the context distribution *)

Lemma qsum_from (xs : list Q) (a : Q) : (fold_left Qplus xs a == a + qsum xs)%Q.
Proof.
  unfold qsum. revert a. induction xs as [|x r IH]; intros a; simpl.
  - now rewrite Qplus_0_r.
  - rewrite (IH (a + x)%Q), (IH (0 + x)%Q). ring.
Qed.

Lemma qsum_cons (x : Q) (xs : list Q) : (qsum (x :: xs) == x + qsum xs)%Q.
Proof.
  unfold qsum at 1. simpl. rewrite qsum_from. ring.
Qed.

Lemma qsum_quotients (total : Z) (sums : list Z) :
  (qsum (map (fun s => inject_Z s / inject_Z total) sums)
   == inject_Z (zsum sums) / inject_Z total)%Q.
Proof.
  induction sums as [|s r IH].
  - unfold qsum, zsum. simpl. unfold Qdiv. now rewrite Qmult_0_l.
  - cbn [map]. rewrite qsum_cons, IH, zsum_cons, inject_Z_plus.
    unfold Qdiv. ring.
Qed.

Lemma quotients_sum_to_one (sums : list Z) :
  (1 <= zsum sums)%Z ->
  (qsum (map (fun s => inject_Z s / inject_Z (zsum sums)) sums) == 1)%Q.
Proof.
  intros H. rewrite qsum_quotients. unfold Qdiv. apply Qmult_inv_r.
  intros Heq. unfold Qeq, inject_Z in Heq. cbn [Qnum Qden] in Heq. lia.
Qed.

(** Claim C7, as amended.  For a trained model, [contexts_prob] holds, for
    every key of [context_by_n[n-1]] in order, the total of the counts under
    that key divided by the total over all keys.  When that table has at
    least one key the elements add up to exactly 1 (as rationals); when it
    has none (for instance a corpus shorter than the window) the list is
    empty. *)
Theorem contexts_prob_sums_to_one (w : World) :
  trained w ->
  exists keys,
    level_keys (self w) (Z.to_nat (n (self w) - 1)) = Some keys
    /\ (let sums :=
          map (fun c => match stored (self w) (Z.to_nat (n (self w) - 1)) c with
                        | Some d => zsum (dict_values d)
                        | None => 0%Z
                        end) keys in
        contexts_prob (self w)
        = map (fun s => (inject_Z s / inject_Z (zsum sums))%Q) sums)
    /\ (keys <> [] -> (qsum (contexts_prob (self w)) == 1)%Q)
    /\ (keys = [] -> contexts_prob (self w) = []).
Proof.
  intros Htr. destruct (trained_built w Htr) as [w0 [text [Hn ->]]].
  set (m := self w0) in *.
  set (st := loop_counts m (split m text) (repeat [] (Z.to_nat (n m)), model_dict m)).
  assert (Hlen : length (fst st) = Z.to_nat (n m)).
  { unfold st. rewrite loop_counts_length. apply repeat_length. }
  assert (Hk : (Z.to_nat (n m - 1) < length (fst st))%nat) by lia.
  set (top := nth (Z.to_nat (n m - 1)) (fst st) []).
  assert (Hprob : contexts_prob (self (built w0 text))
                  = map (fun s => (inject_Z s / inject_Z (zsum (level_totals top)))%Q)
                        (level_totals top)) by reflexivity.
  assert (Hsums : map (fun c =>
                         match stored (self (built w0 text)) (Z.to_nat (n m - 1)) c with
                         | Some d => zsum (dict_values d)
                         | None => 0%Z
                         end) (dict_keys top)
                  = level_totals top).
  { unfold level_totals. apply map_ext. intros c.
    now rewrite (stored_embed (self (built w0 text)) (fst st) _ c eq_refl Hk). }
  exists (dict_keys top).
  change (n (self (built w0 text))) with (n m).
  split; [|split; [|split]].
  - unfold level_keys. change (context_by_n (self (built w0 text)))
      with (Some (map embed_level (fst st))).
    cbv beta iota. rewrite nth_error_embed by assumption. cbn [option_map].
    now rewrite dict_keys_embed.
  - cbv zeta. rewrite Hsums. exact Hprob.
  - intros Hne. rewrite Hprob. apply quotients_sum_to_one.
    apply zsum_ge_1.
    + unfold level_totals. intros Hnil. apply Hne.
      now apply map_eq_nil in Hnil.
    + apply level_totals_positive.
      apply (nth_Forall (Forall (fun kv => positive_dict (snd kv))));
        [|constructor].
      apply loop_counts_positive, repeat_nil_positive.
  - intros Hnil. rewrite Hprob. unfold level_totals. now rewrite Hnil.
Qed.

Lemma contexts_prob_sums_to_one_witness :
  let w := trained_on 2 false "a b a b a" in
  contexts_prob (self w) = [(inject_Z 2 / inject_Z 4)%Q; (inject_Z 2 / inject_Z 4)%Q]
  /\ (qsum (contexts_prob (self w)) == 1)%Q.
Proof.
  intros w.
  assert (Htr : trained w).
  { exists (fresh 2 false), (lit "a b a b a"). vm_compute. reflexivity. }
  destruct (contexts_prob_sums_to_one w Htr) as [keys [Hkeys [Hprob [Hone _]]]].
  assert (Hk : keys = [lit "b"; lit "a"]).
  { vm_compute in Hkeys. injection Hkeys as <-. reflexivity. }
  subst keys. split; [exact Hprob|]. apply Hone. discriminate.
Defined.

(** Claim C7 as stated fails for a trained model whose table
    [context_by_n[n-1]] is empty: after training a 3-gram word model on
    "a b", [contexts_prob] is the empty list and its sum is 0, not 1. *)
Lemma contexts_prob_empty_counterexample :
  let w := trained_on 3 false "a b" in
  trained w
  /\ contexts_prob (self w) = []
  /\ ~ (qsum (contexts_prob (self w)) == 1)%Q.
Proof.
  split; [|split].
  - exists (fresh 3 false), (lit "a b"). vm_compute. reflexivity.
  - vm_compute. reflexivity.
  - vm_compute. discriminate.
Qed.

(** ** C6: training twice *)

(** Claim C6 against the code: [build_model] makes [context_by_n] anew but
    keeps adding to the [model_dict] made by the constructor, so a second
    call on the same corpus doubles every n-gram count. *)
Theorem build_model_twice_doubles_model_dict :
  let once := snd (build_model (lit "a b a b a") (fresh 2 false)) in
  let twice := snd (build_model (lit "a b a b a") once) in
  fst (build_model (lit "a b a b a") (fresh 2 false)) = Ret tt
  /\ fst (build_model (lit "a b a b a") once) = Ret tt
  /\ model_dict (self once) = [(lit "b a", 2%Z); (lit "a b", 2%Z)]
  /\ model_dict (self twice) = [(lit "b a", 4%Z); (lit "a b", 4%Z)]
  /\ model_dict (self twice) <> model_dict (self once)
  /\ context_by_n (self twice) = context_by_n (self once)
  /\ V (self twice) = V (self once).
Proof.
  vm_compute. repeat split; try reflexivity. discriminate.
Qed.

(** ** C1 and C5: what evaluate returns and when it raises *)

Lemma Rsum_app (a b : list R) : Rsum (a ++ b) = (Rsum a + Rsum b)%R.
Proof.
  unfold Rsum. induction a as [|x r IH]; simpl.
  - now rewrite Rplus_0_l.
  - rewrite IH. now rewrite Rplus_assoc.
Qed.

Lemma Rsum_rev (xs : list R) : Rsum (rev xs) = Rsum xs.
Proof.
  induction xs as [|x r IH]; [reflexivity|].
  simpl rev. rewrite Rsum_app, IH. unfold Rsum. simpl.
  rewrite Rplus_0_r. apply Rplus_comm.
Qed.

Lemma sum_logs_all_ret (terms : list (Outcome Q)) (acc : flt) :
  (forall t, In t terms -> exists q, t = Ret q) ->
  exists v, sum_logs terms acc = Ret v
            /\ flt_R v = (flt_R acc + Rsum (map term_R terms))%R.
Proof.
  revert acc. induction terms as [|t r IH]; intros acc Hall.
  - exists acc. split; [reflexivity|]. unfold Rsum. simpl. now rewrite Rplus_0_r.
  - destruct (Hall t (or_introl eq_refl)) as [q ->].
    destruct (IH (Fadd acc (Fln q)) (fun t' Ht' => Hall t' (or_intror Ht')))
      as [v [Hv HR]].
    exists v. split; [exact Hv|]. rewrite HR. unfold Rsum. simpl.
    now rewrite Rplus_assoc.
Qed.

Lemma sum_logs_raise (terms : list (Outcome Q)) (acc : flt) (e : Exn) :
  (forall t e', In t terms -> t = Raise e' -> e' = e) ->
  (exists t e', In t terms /\ t = Raise e') ->
  sum_logs terms acc = Raise e.
Proof.
  revert acc. induction terms as [|t r IH]; intros acc Hall [t' [e' [Hin Ht']]].
  - destruct Hin.
  - destruct t as [q|e0].
    + cbn [sum_logs]. apply IH.
      * intros t0 e0 H0. apply Hall. now right.
      * destruct Hin as [Heq|Hin]; [subst; discriminate|].
        exists t', e'. now split.
    + cbn [sum_logs]. f_equal. apply (Hall (Raise e0)); [now left|reflexivity].
Qed.

Lemma spec_position_prob_raise (m : Model) (S : list str) (i : nat) (e : Exn) :
  spec_position_prob m S i = Raise e ->
  e = ZeroDivisionError /\ vocabulary m = 0%Z /\ context_unseen m S i.
Proof.
  unfold spec_position_prob, context_unseen. cbv zeta.
  destruct (stored m _ _) as [d|].
  - destruct (dict_get _ d); discriminate.
  - destruct (vocabulary m =? 0)%Z eqn:E; [|discriminate].
    intros [= <-]. repeat split. lia.
Qed.

Lemma spec_position_prob_unseen (m : Model) (S : list str) (i : nat) :
  vocabulary m = 0%Z -> context_unseen m S i ->
  spec_position_prob m S i = Raise ZeroDivisionError.
Proof.
  unfold spec_position_prob, context_unseen. cbv zeta. intros HV ->.
  now rewrite HV.
Qed.

Lemma spec_evaluate_returns (m : Model) (S : list str) :
  (forall i, (i < length S)%nat -> exists q, spec_position_prob m S i = Ret q) ->
  exists v,
    spec_evaluate m S = Ret v
    /\ flt_R v = Rsum (map (fun i => term_R (spec_position_prob m S i))
                           (seq 0 (length S))).
Proof.
  intros Hall. unfold spec_evaluate.
  destruct (sum_logs_all_ret
              (map (spec_position_prob m S) (range_down (length S) 0)) (Fint 0))
    as [v [Hv HR]].
  - intros t Ht. apply in_map_iff in Ht. destruct Ht as [i [<- Hi]].
    apply in_range_down in Hi. apply Hall. lia.
  - exists v. split; [exact Hv|]. rewrite HR.
    cbn [flt_R]. rewrite Rplus_0_l.
    unfold range_down. rewrite Nat.sub_0_r, map_map, map_rev, Rsum_rev.
    reflexivity.
Qed.

Lemma spec_evaluate_raises (m : Model) (S : list str) :
  (exists i, (i < length S)%nat
             /\ spec_position_prob m S i = Raise ZeroDivisionError) ->
  spec_evaluate m S = Raise ZeroDivisionError.
Proof.
  intros [i [Hi Hr]]. unfold spec_evaluate. apply sum_logs_raise.
  - intros t e' Ht He'. apply in_map_iff in Ht. destruct Ht as [j [<- _]].
    now apply spec_position_prob_raise in He'.
  - exists (Raise ZeroDivisionError), ZeroDivisionError. split; [|reflexivity].
    apply in_map_iff. exists i. split; [assumption|].
    apply in_range_down. lia.
Qed.

Lemma split_not_nil (m : Model) (text : str) : text <> [] -> split m text <> [].
Proof.
  intros Hne. unfold split. destruct (use_chars m).
  - destruct text; [easy|discriminate].
  - destruct (str_eqb text []) eqn:E.
    + apply str_eqb_eq in E. contradiction.
    + apply split_on_not_nil.
Qed.

(** Claim C1, as amended.  For a trained model and any text, with the
    per-position term of the evaluator's contract ([spec_position_prob]:
    count / total for an observed pair at the context's order, otherwise
    1 / (total-or-0 + V)): whenever every term exists, [evaluate] returns a
    value that, read as a real number, is the sum over all token positions of
    the natural logs of the terms; every term exists when V > 0; a term whose
    denominator is 0 (unseen context, V = 0) makes [evaluate] raise
    [ZeroDivisionError] instead; and [evaluate("")] is the integer 0. *)
Theorem evaluate_sums_log_terms (w : World) (text : str) :
  trained w ->
  let m := self w in
  let S := split m text in
  ((forall i, (i < length S)%nat -> exists q, spec_position_prob m S i = Ret q) ->
   exists v,
     evaluate text w = (Ret v, w)
     /\ flt_R v = Rsum (map (fun i => term_R (spec_position_prob m S i))
                            (seq 0 (length S))))
  /\ ((0 < vocabulary m)%Z ->
      forall i, exists q, spec_position_prob m S i = Ret q)
  /\ ((exists i, (i < length S)%nat
                 /\ spec_position_prob m S i = Raise ZeroDivisionError) ->
      evaluate text w = (Raise ZeroDivisionError, w))
  /\ evaluate [] w = (Ret (Fint 0), w).
Proof.
  intros Htr m S. pose proof (trained_well w Htr) as Hw.
  split; [|split; [|split]].
  - intros Hall. destruct (spec_evaluate_returns m S Hall) as [v [Hv HR]].
    exists v. split; [|exact HR].
    rewrite (evaluate_run w text Hw). fold m. fold S. now rewrite Hv.
  - intros HV i. destruct (spec_position_prob m S i) as [q|e] eqn:E.
    + now exists q.
    + apply spec_position_prob_raise in E. lia.
  - intros Hex. rewrite (evaluate_run w text Hw). fold m. fold S.
    now rewrite (spec_evaluate_raises m S Hex).
  - rewrite (evaluate_run w [] Hw).
    assert (Hnil : split (self w) [] = []).
    { unfold split. destruct (use_chars (self w)); reflexivity. }
    rewrite Hnil. reflexivity.
Qed.

Lemma evaluate_sums_log_terms_witness :
  let w := trained_on 2 false "a b a b a" in
  let m := self w in
  let S := split m (lit "a b") in
  exists v,
    evaluate (lit "a b") w = (Ret v, w)
    /\ flt_R v = Rsum (map (fun i => term_R (spec_position_prob m S i))
                           (seq 0 (length S))).
Proof.
  intros w m S.
  assert (Htr : trained w).
  { exists (fresh 2 false), (lit "a b a b a"). vm_compute. reflexivity. }
  destruct (evaluate_sums_log_terms w (lit "a b") Htr) as [Hsum [Hall _]].
  apply Hsum. intros i _. apply Hall. vm_compute. reflexivity.
Defined.

(** Claim C1 as stated fails where a term does not exist: a unigram model
    trained on the empty corpus has V = 0, and [evaluate("a")] raises
    [ZeroDivisionError] instead of returning a sum. *)
Lemma evaluate_no_sum_counterexample :
  let w := trained_on 1 false "" in
  trained w
  /\ fst (evaluate (lit "a") w) = Raise ZeroDivisionError
  /\ ~ (exists v, fst (evaluate (lit "a") w) = Ret v).
Proof.
  split; [|split].
  - exists (fresh 1 false), (lit ""). vm_compute. reflexivity.
  - vm_compute. reflexivity.
  - intros [v Hv]. vm_compute in Hv. discriminate.
Qed.

(** Claim C5, as amended.  For a trained model: if V > 0, [evaluate] returns
    for every text.  If V = 0, [evaluate] raises [ZeroDivisionError] when
    some token position has a context never seen at its order, and returns
    when no position does; in particular it raises on every non-empty text
    when the tables are empty (a model trained on the empty corpus).  The
    world is unchanged either way. *)
Theorem evaluate_raises_on_zero_denominator_only (w : World) (text : str) :
  trained w ->
  let m := self w in
  let S := split m text in
  ((0 < vocabulary m)%Z -> exists v, evaluate text w = (Ret v, w))
  /\ (vocabulary m = 0%Z ->
      ((exists i, (i < length S)%nat /\ context_unseen m S i) ->
       evaluate text w = (Raise ZeroDivisionError, w))
      /\ ((forall i, (i < length S)%nat -> ~ context_unseen m S i) ->
          exists v, evaluate text w = (Ret v, w))
      /\ ((forall k c, stored m k c = None) -> text <> [] ->
          evaluate text w = (Raise ZeroDivisionError, w))).
Proof.
  intros Htr m S. pose proof (trained_well w Htr) as Hw.
  assert (Hret : (forall i, (i < length S)%nat ->
                            exists q, spec_position_prob m S i = Ret q) ->
                 exists v, evaluate text w = (Ret v, w)).
  { intros Hall. destruct (spec_evaluate_returns m S Hall) as [v [Hv _]].
    exists v. rewrite (evaluate_run w text Hw). fold m. fold S. now rewrite Hv. }
  assert (Hraise : vocabulary m = 0%Z ->
                   (exists i, (i < length S)%nat /\ context_unseen m S i) ->
                   evaluate text w = (Raise ZeroDivisionError, w)).
  { intros HV [i [Hi Hu]]. rewrite (evaluate_run w text Hw). fold m. fold S.
    rewrite (spec_evaluate_raises m S); [reflexivity|].
    exists i. split; [assumption|]. now apply spec_position_prob_unseen. }
  split; [|intros HV; split; [|split]].
  - intros HV. apply Hret. intros i _.
    destruct (spec_position_prob m S i) as [q|e] eqn:E; [now exists q|].
    apply spec_position_prob_raise in E. lia.
  - now apply Hraise.
  - intros Hseen. apply Hret. intros i Hi.
    destruct (spec_position_prob m S i) as [q|e] eqn:E; [now exists q|].
    apply spec_position_prob_raise in E. destruct E as [_ [_ Hu]].
    exfalso. apply (Hseen i Hi Hu).
  - intros Hempty Hne. apply Hraise; [assumption|].
    exists 0%nat. split.
    + pose proof (split_not_nil m text Hne) as Hs. fold S in Hs.
      destruct S; [contradiction|simpl; lia].
    + unfold context_unseen. cbv zeta. apply Hempty.
Qed.

Lemma evaluate_raises_on_zero_denominator_only_witness :
  let w := trained_on 3 false "a b" in
  vocabulary (self w) = 0%Z
  /\ evaluate (lit "c a") w = (Raise ZeroDivisionError, w)
  /\ exists v, evaluate (lit "b") w = (Ret v, w).
Proof.
  intros w.
  assert (Htr : trained w).
  { exists (fresh 3 false), (lit "a b"). vm_compute. reflexivity. }
  assert (HV : vocabulary (self w) = 0%Z) by (vm_compute; reflexivity).
  split; [exact HV|]. split.
  - destruct (evaluate_raises_on_zero_denominator_only w (lit "c a") Htr)
      as [_ Hzero].
    destruct (Hzero HV) as [Hraise _]. apply Hraise.
    exists 1%nat. split; [vm_compute; lia|]. vm_compute. reflexivity.
  - destruct (evaluate_raises_on_zero_denominator_only w (lit "b") Htr)
      as [_ Hzero].
    destruct (Hzero HV) as [_ [Hret _]]. apply Hret.
    intros i Hi Hu. change (length (split (self w) (lit "b"))) with 1%nat in Hi.
    assert (i = 0%nat) by lia. subst i. vm_compute in Hu. discriminate.
Defined.

(** Claim C5 as stated fails in its second half: a 3-gram word model trained
    on "a b" has V = 0, yet [evaluate("a")] returns ln(1/2) without raising,
    because the pair (empty context, "a") was observed at order 0. *)
Lemma evaluate_zero_vocabulary_counterexample :
  let w := trained_on 3 false "a b" in
  trained w
  /\ V (self w) = Some 0%Z
  /\ lit "a" <> []
  /\ fst (evaluate (lit "a") w)
     = Ret (Fadd (Fint 0) (Fln (inject_Z 1 / inject_Z 2)%Q))
  /\ ~ (exists e, fst (evaluate (lit "a") w) = Raise e).
Proof.
  split; [|split; [|split; [|split]]].
  - exists (fresh 3 false), (lit "a b"). vm_compute. reflexivity.
  - vm_compute. reflexivity.
  - discriminate.
  - vm_compute. reflexivity.
  - intros [e He]. vm_compute in He. discriminate.
Qed.

(** ** C8: the readers leave the model alone *)

Lemma same_bind {A B} (c : M A) (k : A -> M B) (w : World) :
  snd (c w) = w ->
  (forall a, c w = (Ret a, w) -> snd (k a w) = w) ->
  snd (bind c k w) = w.
Proof.
  unfold bind. destruct (c w) as [[a|e] w'] eqn:E; cbn [snd]; intros -> H.
  - now apply H.
  - reflexivity.
Qed.

Lemma keeps_bind_same {A B} (c : M A) (k : A -> M B) (w : World) :
  snd (c w) = w ->
  (forall a, c w = (Ret a, w) -> self (snd (k a w)) = self w) ->
  self (snd (bind c k w)) = self w.
Proof.
  unfold bind. destruct (c w) as [[a|e] w'] eqn:E; cbn [snd]; intros -> H.
  - now apply H.
  - reflexivity.
Qed.

Lemma keeps_bind {A B} (c : M A) (k : A -> M B) (w : World) :
  self (snd (c w)) = self w ->
  (forall a w', self w' = self w -> self (snd (k a w')) = self w') ->
  self (snd (bind c k w)) = self w.
Proof.
  unfold bind. destruct (c w) as [[a|e] w'] eqn:E; cbn [snd]; intros Hc H.
  - rewrite (H a w' Hc). exact Hc.
  - exact Hc.
Qed.

Lemma level_at_same (k : Z) (w : World) : snd (level_at k w) = w.
Proof.
  unfold level_at, bind, get_self, raise, ret.
  destruct (context_by_n (self w)) as [levels|]; [|reflexivity].
  destruct (k <? 0)%Z; [reflexivity|].
  now destruct (nth_error levels (Z.to_nat k)).
Qed.

Lemma level_getitem_present (k : Z) (c : str) (w : World) (tbl : Level) :
  level_at k w = (Ret tbl, w) -> dict_mem c tbl = true ->
  exists e, dict_get c tbl = Some e /\ level_getitem k c w = (Ret e, w).
Proof.
  intros Hl Hm. unfold dict_mem in Hm.
  destruct (dict_get c tbl) as [e|] eqn:Ed; [|discriminate].
  exists e. split; [reflexivity|].
  unfold level_getitem. rewrite (bind_ret _ _ w w tbl Hl). now rewrite Ed.
Qed.

Lemma level_getitem_same (k : Z) (c : str) (w : World) (tbl : Level) :
  level_at k w = (Ret tbl, w) -> dict_mem c tbl = true ->
  snd (level_getitem k c w) = w.
Proof.
  intros Hl Hm. destruct (level_getitem_present k c w tbl Hl Hm) as [e [_ He]].
  now rewrite He.
Qed.

Lemma lift_same {A} (o : Outcome A) (w : World) : snd (lift o w) = w.
Proof. reflexivity. Qed.

Lemma get_prob_same (c t : str) (w : World) (tbl : Level) :
  level_at (Z.of_nat (length (split (self w) c))) w = (Ret tbl, w) ->
  dict_mem c tbl = true ->
  snd (get_prob c t w) = w.
Proof.
  intros Hl Hm. unfold get_prob.
  apply same_bind; [reflexivity|]. intros m Hself.
  cbv [get_self] in Hself. injection Hself as <-.
  apply same_bind; [now apply (level_getitem_same _ c w tbl)|]. intros e _.
  apply same_bind; [apply lift_same|]. intros c_ngram _.
  apply same_bind; [now apply (level_getitem_same _ c w tbl)|]. intros e' _.
  apply same_bind; [apply lift_same|]. intros c_context _.
  apply lift_same.
Qed.

Lemma smooth_same (c : str) (w : World) : snd (smooth c w) = w.
Proof.
  unfold smooth.
  apply same_bind; [reflexivity|]. intros m Hself.
  cbv [get_self] in Hself. injection Hself as <-.
  apply same_bind; [apply level_at_same|]. intros tbl Hl.
  apply same_bind.
  - destruct (dict_mem c tbl) eqn:Hm; [|reflexivity].
    apply same_bind; [now apply (level_getitem_same _ c w tbl)|].
    intros e _. apply lift_same.
  - intros c_context _. destruct (V (self w)); reflexivity.
Qed.

Lemma evaluate_step_same (S : list str) (prob : flt) (i : nat) (w : World) :
  snd (evaluate_step S prob i w) = w.
Proof.
  unfold evaluate_step.
  apply same_bind; [reflexivity|]. intros m Hself.
  cbv [get_self] in Hself. injection Hself as <-.
  apply same_bind; [apply lift_same|]. intros [c t] _.
  apply same_bind; [apply level_at_same|]. intros tbl Hl.
  apply same_bind.
  - destruct (dict_mem c tbl) eqn:Hm; [|reflexivity].
    apply same_bind; [now apply (level_getitem_same _ c w tbl)|].
    intros e _. apply lift_same.
  - intros seen Hseen. apply same_bind.
    + destruct seen; [|apply smooth_same].
      destruct (dict_mem c tbl) eqn:Hm; [|discriminate].
      now apply (get_prob_same c t w tbl).
    + intros p _. apply same_bind; [apply lift_same|]. intros lg _. reflexivity.
Qed.

Lemma fold_M_same {A B} (body : B -> A -> M B) (w : World) :
  (forall acc x, snd (body acc x w) = w) ->
  forall xs acc, snd (fold_M body xs acc w) = w.
Proof.
  intros Hbody xs. induction xs as [|x r IH]; intros acc; [reflexivity|].
  cbn [fold_M]. apply same_bind; [apply Hbody|]. intros acc' _. apply IH.
Qed.

Lemma evaluate_same (text : str) (w : World) : snd (evaluate text w) = w.
Proof.
  unfold evaluate. apply same_bind; [reflexivity|]. intros m _.
  apply fold_M_same. intros acc x. apply evaluate_step_same.
Qed.

Lemma map_M_same {A B} (f : A -> M B) (w : World) (xs : list A) :
  (forall x, snd (f x w) = w) -> snd (map_M f xs w) = w.
Proof.
  intros Hf. induction xs as [|x r IH]; [reflexivity|].
  cbn [map_M]. apply same_bind; [apply Hf|]. intros y _.
  apply same_bind; [apply IH|]. intros ys _. reflexivity.
Qed.

Lemma choices_uniform_keeps (population : list str) (w : World) :
  self (snd (choices_uniform population w)) = self w.
Proof.
  unfold choices_uniform. apply keeps_bind; [reflexivity|]. intros u w' _.
  now destruct (nth_error population _).
Qed.

Lemma choices_weighted_keeps (population : list str) (weights : list Q) (w : World) :
  self (snd (choices_weighted population weights w)) = self w.
Proof.
  unfold choices_weighted.
  destruct (negb _); [reflexivity|].
  destruct (accumulate 0 weights) as [|c r]; [reflexivity|].
  destruct (Qle_bool _ 0); [reflexivity|].
  apply keeps_bind; [reflexivity|]. intros u w' _.
  now destruct (nth_error population _).
Qed.

Lemma get_initial_context_keeps (init_context : option str) (w : World) :
  self (snd (get_initial_context init_context w)) = self w.
Proof.
  unfold get_initial_context.
  apply keeps_bind_same; [reflexivity|]. intros m _.
  destruct init_context as [ic|].
  - apply keeps_bind_same; [apply level_at_same|]. intros tbl _.
    destruct (length _ =? 0)%nat; [reflexivity|].
    apply keeps_bind; [apply choices_uniform_keeps|]. intros c w' _. reflexivity.
  - apply keeps_bind_same; [apply level_at_same|]. intros tbl _.
    apply keeps_bind; [apply choices_weighted_keeps|]. intros c w' _. reflexivity.
Qed.

Lemma get_next_gram_keeps (context : list str) (w : World) :
  self (snd (get_next_gram context w)) = self w.
Proof.
  unfold get_next_gram.
  apply keeps_bind_same; [reflexivity|]. intros m Hself.
  cbv [get_self] in Hself. injection Hself as <-.
  set (last_context :=
         if (n (self w) =? 1)%Z then []
         else join (self w) (py_suffix (- (n (self w) - 1)) context)).
  apply keeps_bind_same; [apply level_at_same|]. intros tbl Hl.
  destruct (dict_mem last_context tbl) eqn:Hm; [|reflexivity]. cbn [negb].
  assert (Hget : snd (level_getitem (n (self w) - 1) last_context w) = w)
    by (now apply (level_getitem_same _ last_context w tbl)).
  apply keeps_bind_same; [exact Hget|]. intros e _.
  apply keeps_bind_same; [apply lift_same|]. intros possible_gram _.
  apply keeps_bind_same; [exact Hget|]. intros e1 _.
  apply keeps_bind_same; [apply lift_same|]. intros total _.
  apply keeps_bind_same.
  - apply map_M_same. intros gram.
    apply same_bind; [exact Hget|]. intros e2 _.
    apply same_bind; [apply lift_same|]. intros c _. apply lift_same.
  - intros probs _.
    apply keeps_bind_same; [exact Hget|]. intros e3 _.
    apply keeps_bind_same; [apply lift_same|]. intros keys _.
    apply keeps_bind; [apply choices_weighted_keeps|]. intros g w' _. reflexivity.
Qed.

Lemma generate_loop_keeps (remaining : nat) :
  forall (final_text : list str) (w : World),
    self (snd (generate_loop remaining final_text w)) = self w.
Proof.
  induction remaining as [|r IH]; intros final_text w; cbn [generate_loop].
  - reflexivity.
  - apply keeps_bind; [apply get_next_gram_keeps|]. intros next_gram w' _.
    destruct next_gram as [g|]; [apply IH|reflexivity].
Qed.

Lemma generate_from_keeps (context : option str) (target : Z) (w : World) :
  self (snd (generate_from context target w)) = self w.
Proof.
  unfold generate_from.
  apply keeps_bind_same; [reflexivity|]. intros m _.
  apply keeps_bind_same; [apply lift_same|]. intros final_text _.
  destruct (target <? _)%Z; [reflexivity|]. apply generate_loop_keeps.
Qed.

Lemma generate_keeps (context : option str) (target : Z) (w : World) :
  self (snd (generate context target w)) = self w.
Proof.
  unfold generate.
  apply keeps_bind_same; [reflexivity|]. intros m _.
  destruct (target <? _)%Z.
  - apply keeps_bind_same; [apply lift_same|]. intros tokens _. reflexivity.
  - destruct (_ <? n m - 1)%Z; [|apply generate_from_keeps].
    apply keeps_bind; [apply get_initial_context_keeps|].
    intros new_context w' _.
    destruct new_context as [c|]; [apply generate_from_keeps|reflexivity].
Qed.

(** Claim C8.  Whatever the model object holds, trained or not, a call to
    [evaluate] leaves the whole world as it was, and a call to [generate]
    leaves the object as it was (only the random source moves on):
    [model_dict], [context_by_n], [V] and [contexts_prob] are unchanged, also
    when the call raises. *)
Theorem readers_leave_model_unchanged
    (w : World) (text : str) (context : option str) (target : Z) :
  snd (evaluate text w) = w
  /\ self (snd (generate context target w)) = self w
  /\ model_dict (self (snd (generate context target w))) = model_dict (self w)
  /\ context_by_n (self (snd (generate context target w))) = context_by_n (self w)
  /\ V (self (snd (generate context target w))) = V (self w)
  /\ contexts_prob (self (snd (generate context target w))) = contexts_prob (self w).
Proof.
  split; [apply evaluate_same|].
  pose proof (generate_keeps context target w) as H.
  rewrite H. repeat split; reflexivity.
Qed.

(** ** Random draws *)

Lemma unit_fraction_index (u : Q) (len : nat) :
  (0 < len)%nat ->
  (Z.to_nat (Qfloor ((u - inject_Z (Qfloor u)) * inject_Z (Z.of_nat len))) < len)%nat.
Proof.
  intros Hlen.
  set (f := (u - inject_Z (Qfloor u))%Q).
  assert (Hf1 : (f < 1)%Q).
  { unfold f. pose proof (Qlt_floor u) as H. rewrite inject_Z_plus in H.
    apply (Qplus_lt_l _ _ (inject_Z (Qfloor u))).
    setoid_replace (u - inject_Z (Qfloor u) + inject_Z (Qfloor u))%Q with u by ring.
    setoid_replace (1 + inject_Z (Qfloor u))%Q
      with (inject_Z (Qfloor u) + inject_Z 1)%Q
      by (change (inject_Z 1) with 1%Q; ring).
    exact H. }
  assert (HL : (0 < inject_Z (Z.of_nat len))%Q).
  { change 0%Q with (inject_Z 0). rewrite <- Zlt_Qlt. lia. }
  assert (Hlt : (f * inject_Z (Z.of_nat len) < inject_Z (Z.of_nat len))%Q).
  { rewrite <- (Qmult_1_l (inject_Z (Z.of_nat len))) at 2.
    apply Qmult_lt_compat_r; assumption. }
  pose proof (Qfloor_le (f * inject_Z (Z.of_nat len))) as Hfl.
  assert (Hz : (Qfloor (f * inject_Z (Z.of_nat len)) < Z.of_nat len)%Z).
  { rewrite Zlt_Qlt. eapply Qle_lt_trans; eassumption. }
  lia.
Qed.

Lemma choices_uniform_run (population : list str) (w : World) :
  population <> [] ->
  exists x, In x population /\ choices_uniform population w = (Ret x, advance w).
Proof.
  intros Hne. unfold choices_uniform.
  set (u := uniform (random_state w) (drawn (random_state w))).
  assert (Hr : random w = (Ret (u - inject_Z (Qfloor u))%Q, advance w)) by reflexivity.
  rewrite (bind_ret _ _ w (advance w) _ Hr).
  assert (Hi := unit_fraction_index u (length population)
                  ltac:(destruct population; [contradiction|simpl; lia])).
  destruct (nth_error population _) as [x|] eqn:E.
  - exists x. split; [|reflexivity]. eapply nth_error_In. exact E.
  - apply nth_error_None in E. lia.
Qed.

Lemma get_initial_context_seeded (w : World) (ic : str) (tbl : Level) :
  level_at (n (self w) - 1) w = (Ret tbl, w) ->
  let candidates := filter (fun c => startswith c ic) (dict_keys tbl) in
  (candidates = [] -> get_initial_context (Some ic) w = (Ret None, w))
  /\ (candidates <> [] ->
      exists c, In c candidates
                /\ get_initial_context (Some ic) w = (Ret (Some c), advance w)).
Proof.
  intros Hl candidates. unfold get_initial_context.
  rewrite (bind_ret get_self _ w w (self w) eq_refl).
  rewrite (bind_ret _ _ w w tbl Hl). fold candidates. split.
  - intros ->. reflexivity.
  - intros Hne. destruct (choices_uniform_run candidates w Hne) as [c [Hin Hc]].
    exists c. split; [assumption|].
    replace (length candidates =? 0)%nat with false
      by (destruct candidates; [contradiction|reflexivity]).
    now rewrite (bind_ret _ _ w (advance w) c Hc).
Qed.

Lemma generate_seed_short (w : World) (seed : str) (target : Z) :
  (Z.of_nat (length (split (self w) seed)) < n (self w) - 1)%Z ->
  (Z.of_nat (length (split (self w) seed)) <= target)%Z ->
  generate (Some seed) target w
  = bind (get_initial_context (Some seed))
         (fun new_context =>
            match new_context with
            | None => ret (Some seed)
            | Some c => generate_from (Some c) target
            end) w.
Proof.
  intros Hshort Hle. unfold generate.
  rewrite (bind_ret get_self _ w w (self w) eq_refl).
  replace (target <? Z.of_nat (length (split (self w) seed)))%Z with false by lia.
  replace (Z.of_nat (length (split (self w) seed)) <? n (self w) - 1)%Z with true by lia.
  reflexivity.
Qed.

(** A seed strictly longer than the target is cut to its first tokens,
    without a draw and without touching the tables. *)
Lemma generate_longer_seed (w : World) (seed : str) (target : Z) :
  (0 <= target < Z.of_nat (length (split (self w) seed)))%Z ->
  generate (Some seed) target w
  = (Ret (Some (join (self w) (firstn (Z.to_nat target) (split (self w) seed)))), w).
Proof.
  intros H. unfold generate.
  rewrite (bind_ret get_self _ w w (self w) eq_refl).
  replace (target <? Z.of_nat (length (split (self w) seed)))%Z with true by lia.
  cbn [split_opt]. rewrite (bind_ret _ _ w w _ (lift_run _ w)).
  unfold py_prefix. replace (target <? 0)%Z with false by lia. reflexivity.
Qed.

Lemma startswith_token_prefix_chars (c seed : str) :
  token_prefix (map (fun x => [x]) seed) (map (fun x => [x]) c)
  = startswith c seed.
Proof.
  revert c. induction seed as [|y r IH]; intros c;
    [now destruct c|].
  destruct c as [|x c']; [reflexivity|].
  cbn [map token_prefix startswith str_eqb]. rewrite (IH c').
  rewrite andb_true_r, (Ascii.eqb_sym y x). reflexivity.
Qed.

(** ** C3: a seed exactly as long as the target *)

(** Claim C3 against the code.  A 3-gram word model trained on "ab c d" is
    asked for [generate("a", 1)]: the seed has exactly one token, so the
    answer should be "a" with no draw.  The code tests [context_len > n],
    not [>=]: it goes on to complete the context, draws once from the keys
    that start with "a" (whatever the random source holds) and returns "ab". *)
Theorem generate_equal_length_seed_draws (r : Rng) :
  let w := mkWorld (self (trained_on 3 false "ab c d")) r in
  Z.of_nat (length (split (self w) (lit "a"))) = 1%Z
  /\ join (self w) (py_prefix 1 (split (self w) (lit "a"))) = lit "a"
  /\ generate (Some (lit "a")) 1 w = (Ret (Some (lit "ab")), advance w)
  /\ drawn (random_state (advance w)) = Datatypes.S (drawn r).
Proof.
  intros w. split; [reflexivity|]. split; [reflexivity|]. split; [|reflexivity].
  rewrite generate_seed_short by (vm_compute; reflexivity || discriminate).
  assert (Hl : level_at (n (self w) - 1) w
               = (Ret [(lit "ab c", EDict [(lit "d", 1%Z)])], w)) by reflexivity.
  destruct (get_initial_context_seeded w (lit "a") _ Hl) as [_ Hdraw].
  destruct Hdraw as [c [Hin Hc]]; [discriminate|].
  destruct Hin as [<-|[]].
  rewrite (bind_ret _ _ w (advance w) _ Hc). reflexivity.
Qed.

(** ** C4: completing a short seed *)

Lemma trained_top_level (w : World) :
  well_trained (self w) ->
  exists tbl,
    level_at (n (self w) - 1) w = (Ret tbl, w)
    /\ level_keys (self w) (Z.to_nat (n (self w) - 1)) = Some (dict_keys tbl).
Proof.
  intros [T [v [HT [Hlen [Hn _]]]]].
  assert (Hk : (Z.to_nat (n (self w) - 1) < length T)%nat) by lia.
  exists (embed_level (nth (Z.to_nat (n (self w) - 1)) T [])). split.
  - rewrite <- (level_at_ok w T _ HT Hk). f_equal. lia.
  - unfold level_keys. rewrite HT, nth_error_embed by assumption. reflexivity.
Qed.

(** Claim C4 against the code.  A 3-gram word model trained on the corpus
    ab c d is asked for [generate] with the seed a and the target 5.  The
    seed has one token, fewer than [n - 1], so [get_initial_context]
    completes it.  The only key of [context_by_n[2]] is ab c, and its tokens
    ab, c do not begin with the token a.  But the code filters with
    [context.startswith(init_context)], a test on characters: the key is a
    candidate, it is drawn whatever the random source holds, and the text
    returned is ab c d, in which the seed's token does not occur.  In
    character mode the same test is the token-prefix test, for every seed
    and every key. *)
Theorem seeded_context_matches_partial_word (r : Rng) :
  let w := mkWorld (self (trained_on 3 false "ab c d")) r in
  let m := self w in
  let mc := self (fresh 3 true) in
  trained w
  /\ (Z.of_nat (length (split m (lit "a"))) < n m - 1)%Z
  /\ level_keys m 2 = Some [lit "ab c"]
  /\ token_prefix (split m (lit "a")) (split m (lit "ab c")) = false
  /\ get_initial_context (Some (lit "a")) w
     = (Ret (Some (lit "ab c")), advance w)
  /\ generate (Some (lit "a")) 5 w
     = (Ret (Some (lit "ab c d")), advance_by 2 w)
  /\ ~ In (lit "a") (split m (lit "ab c d"))
  /\ (forall seed key : str,
        token_prefix (split mc seed) (split mc key) = startswith key seed).
Proof.
  intros w m mc.
  assert (Hl : level_at (n (self w) - 1) w
               = (Ret [(lit "ab c", EDict [(lit "d", 1%Z)])], w)) by reflexivity.
  destruct (get_initial_context_seeded w (lit "a") _ Hl) as [_ Hdraw].
  destruct Hdraw as [c [Hin Hc]]; [discriminate|].
  destruct Hin as [<-|[]].
  split.
  { exists (mkWorld (self (fresh 3 false)) r), (lit "ab c d"). reflexivity. }
  split; [vm_compute; reflexivity|].
  split; [reflexivity|].
  split; [reflexivity|].
  split; [exact Hc|].
  split.
  { rewrite generate_seed_short by (vm_compute; reflexivity || discriminate).
    rewrite (bind_ret _ _ w (advance w) _ Hc). reflexivity. }
  split.
  { intros Hin. vm_compute in Hin.
    repeat (destruct Hin as [Hin|Hin]; [discriminate|]). exact Hin. }
  intros seed key. apply startswith_token_prefix_chars.
Qed.

(** The guards matter: read without its guard, an unseen context is filed
    by the [defaultdict] and the model object changes. *)
Example unguarded_read_changes_model :
  let w := trained_on 2 false "a b a b a" in
  self (snd (level_getitem 1 (lit "zz") w)) <> self w.
Proof.
  vm_compute. discriminate.
Qed.

(* ================================================================== *)
(** * Further properties of the code *)

(** ** The tokenizer *)

(** X1.  Joining the tokens of any text gives the text back, in both
    granularities (also for texts with leading, trailing or doubled spaces). *)
Theorem join_after_split (m : Model) (text : str) :
  join m (split m text) = text.
Proof. apply join_split. Qed.

(** X2.  Splitting the join of a token list gives the list back when every
    token is one that [split] can yield (one character, or a word without
    space) and none is empty. *)
Theorem split_after_join (m : Model) (tokens : list str) :
  Forall (tok_ok m) tokens -> Forall (fun t => t <> []) tokens ->
  split m (join m tokens) = tokens.
Proof. apply split_join. Qed.

Lemma split_after_join_witness :
  split (mkModel 3 [] false None None [])
        (join (mkModel 3 [] false None None []) [lit "ab"; lit "c"; lit "d"])
  = [lit "ab"; lit "c"; lit "d"].
Proof.
  apply (split_after_join (mkModel 3 [] false None None [])
           [lit "ab"; lit "c"; lit "d"]).
  - repeat constructor; unfold tok_ok; cbn; intros H;
      repeat (destruct H as [H|H]; [discriminate|]); exact H.
  - repeat constructor; discriminate.
Defined.

Lemma split_on_length (sep : ascii) (text : str) :
  length (split_on sep text)
  = Datatypes.S (length (filter (fun c => Ascii.eqb c sep) text)).
Proof.
  induction text as [|c r IH]; [reflexivity|].
  cbn [split_on filter]. destruct (Ascii.eqb c sep).
  - cbn [length]. now rewrite IH.
  - pose proof (split_on_not_nil sep r) as Hnn.
    destruct (split_on sep r) as [|w ws]; [contradiction|].
    cbn [length] in *. exact IH.
Qed.

(** X3.  The number of tokens: in character mode the number of characters;
    in word mode 0 for the empty text and otherwise one more than the number
    of spaces, so that every leading, trailing or doubled space makes an
    empty token. *)
Theorem split_token_count (m : Model) (text : str) :
  length (split m text)
  = if use_chars m then length text
    else match text with
         | [] => 0%nat
         | _ :: _ => Datatypes.S (count_spaces text)
         end.
Proof.
  unfold split. destruct (use_chars m).
  - apply length_map.
  - destruct text as [|c r]; [reflexivity|].
    cbn [str_eqb]. apply split_on_length.
Qed.

(** ** Cutting an n-gram into context and last gram *)

Lemma last_slice_nth {A} (a idx : nat) (l : list A) (d : A) :
  (a <= idx)%nat -> (idx < length l)%nat ->
  last (slice a (idx + 1) l) d = nth idx l d.
Proof.
  intros Ha Hidx. unfold slice.
  assert (Hlen : length (firstn (idx + 1 - a) (skipn a l)) = (idx + 1 - a)%nat).
  { rewrite length_firstn, length_skipn. lia. }
  destruct (@exists_last _ (firstn (idx + 1 - a) (skipn a l))) as [pre [x Hx]].
  { intros Hnil. rewrite Hnil in Hlen. simpl in Hlen. lia. }
  rewrite Hx, last_last.
  assert (Hnth : nth (idx - a) (firstn (idx + 1 - a) (skipn a l)) d = nth idx l d).
  { rewrite nth_firstn. replace (idx - a <? idx + 1 - a)%nat with true
      by (symmetry; apply Nat.ltb_lt; lia).
    rewrite nth_skipn. f_equal. lia. }
  rewrite <- Hnth, Hx.
  assert (Hpre : length pre = (idx - a)%nat).
  { rewrite Hx, length_app in Hlen. simpl in Hlen. lia. }
  rewrite app_nth2 by lia. rewrite Hpre, Nat.sub_diag. reflexivity.
Qed.

(** X5.  Taking the n-gram that ends at index [idx] and cutting it again
    recovers the tokens: for tokens as [split] yields them, an index inside
    the list and a size of at least 1, the last gram is the token at [idx]
    and the context is the join of the (at most [n_size - 1]) tokens before
    it; nothing raises. *)
Theorem ngram_cut_recovers_tokens
    (m : Model) (s : list str) (idx : nat) (n_size : Z) :
  Forall (tok_ok m) s -> (idx < length s)%nat -> (1 <= n_size)%Z ->
  split_context_gram m (get_ngram_by_last_index m s idx (Some n_size))
  = Ret (join m (slice (idx + 1 - Z.to_nat n_size) idx s), nth idx s []).
Proof.
  intros Hs Hidx Hn.
  replace n_size with (Z.of_nat (Z.to_nat n_size)) at 1 by lia.
  rewrite split_context_gram_window by (assumption || lia).
  rewrite removelast_slice by lia.
  rewrite last_slice_nth by lia. reflexivity.
Qed.

Lemma ngram_cut_recovers_tokens_witness :
  let m := mkModel 3 [] false None None [] in
  split_context_gram m
    (get_ngram_by_last_index m [lit "a"; lit "b"; lit "c"; lit "d"] 2 (Some 3%Z))
  = Ret (join m (slice (2 + 1 - Z.to_nat 3) 2 [lit "a"; lit "b"; lit "c"; lit "d"]),
         nth 2 [lit "a"; lit "b"; lit "c"; lit "d"] []).
Proof.
  apply (ngram_cut_recovers_tokens (mkModel 3 [] false None None [])
           [lit "a"; lit "b"; lit "c"; lit "d"] 2 3).
  - repeat constructor; unfold tok_ok; cbn; intros H;
      repeat (destruct H as [H|H]; [discriminate|]); exact H.
  - simpl. lia.
  - lia.
Defined.

(** ** The n-gram counter of build_model *)

Lemma inner_counts_dict_other (m : Model) (S : list str) (sz : nat) :
  Z.of_nat sz <> n m ->
  forall xs T D, snd (fold_left (step_counts m S sz) xs (T, D)) = D.
Proof.
  intros Hne xs. induction xs as [|x r IH]; intros T D; [reflexivity|].
  cbn [fold_left]. unfold step_counts at 2. cbn [fst snd].
  replace (Z.of_nat sz =? n m)%Z with false by lia. apply IH.
Qed.

Lemma inner_counts_dict_full (m : Model) (S : list str) (sz : nat) :
  Z.of_nat sz = n m ->
  forall xs T D,
    snd (fold_left (step_counts m S sz) xs (T, D))
    = fold_left (fun D g => count_ngram g D)
        (map (fun idx => get_ngram_by_last_index m S idx (Some (n m))) xs) D.
Proof.
  intros Heq xs. induction xs as [|x r IH]; intros T D; [reflexivity|].
  cbn [fold_left map]. unfold step_counts at 2. cbn [fst snd].
  replace (Z.of_nat sz =? n m)%Z with true by lia. rewrite IH.
  now rewrite Heq.
Qed.

Lemma loop_counts_dict (m : Model) (S : list str) (T : list Table) (D : Dict Z) :
  (1 <= n m)%Z ->
  snd (loop_counts m S (T, D))
  = fold_left (fun D g => count_ngram g D) (counted_ngrams m S) D.
Proof.
  intros Hn. unfold loop_counts, counted_ngrams.
  set (N := Z.to_nat (n m)).
  assert (HN : N = Datatypes.S (N - 1)) by (unfold N; lia).
  rewrite HN at 1. rewrite seq_S, fold_left_app. cbn [fold_left].
  assert (Hpre : forall szs T0,
    (forall sz, In sz szs -> Z.of_nat sz <> n m) ->
    snd (fold_left
           (fun st sz =>
              fold_left (step_counts m S sz) (range_down (length S) (sz - 1)) st)
           szs (T0, D)) = D).
  { intros szs. induction szs as [|sz r IH]; intros T0 Hall; [reflexivity|].
    cbn [fold_left].
    pose proof (inner_counts_dict_other m S sz (Hall sz (or_introl eq_refl))
                  (range_down (length S) (sz - 1)) T0 D) as Hin.
    destruct (fold_left (step_counts m S sz) _ (T0, D)) as [T1 D1].
    cbn [snd] in Hin. subst D1. apply IH. intros sz' Hsz'. apply Hall. now right. }
  specialize (Hpre (seq 1 (N - 1)) T).
  destruct (fold_left _ (seq 1 (N - 1)) (T, D)) as [T1 D1]. cbn [snd] in Hpre.
  rewrite Hpre by (intros sz Hsz; apply in_seq in Hsz; unfold N in *; lia).
  replace (1 + (N - 1))%nat with N by lia.
  apply inner_counts_dict_full. unfold N. lia.
Qed.

Lemma count_ngram_get_same (g : str) (D : Dict Z) :
  dict_get g (count_ngram g D) = Some (count_or_zero (dict_get g D) + 1)%Z.
Proof.
  unfold count_ngram. rewrite dict_get_set_same.
  now destruct (dict_get g D).
Qed.

Lemma count_ngram_get_other (g g' : str) (D : Dict Z) :
  g' <> g -> dict_get g (count_ngram g' D) = dict_get g D.
Proof. intros H. unfold count_ngram. now apply dict_get_set_other. Qed.

Lemma fold_count_get (g : str) (gs : list str) :
  forall D,
    dict_get g (fold_left (fun D g' => count_ngram g' D) gs D)
    = match dict_get g D, count_str g gs with
      | None, O => None
      | o, c => Some (count_or_zero o + Z.of_nat c)%Z
      end.
Proof.
  induction gs as [|g' r IH]; intros D.
  - cbn. destruct (dict_get g D) as [v|]; [|reflexivity].
    cbn. f_equal. lia.
  - cbn [fold_left]. rewrite IH. unfold count_str. cbn [filter].
    destruct (str_eqb g g') eqn:E.
    + apply str_eqb_eq in E. subst g'. rewrite count_ngram_get_same.
      cbn [length count_or_zero].
      destruct (dict_get g D) as [v|];
        destruct (length (filter (str_eqb g) r)); cbn [count_or_zero];
        f_equal; lia.
    + apply str_eqb_neq in E. rewrite count_ngram_get_other by congruence.
      reflexivity.
Qed.

Lemma count_ngram_total (g : str) (D : Dict Z) :
  zsum (dict_values (count_ngram g D)) = (zsum (dict_values D) + 1)%Z.
Proof.
  unfold count_ngram. rewrite zsum_set. destruct (dict_get g D); lia.
Qed.

Lemma fold_count_total (gs : list str) :
  forall D,
    zsum (dict_values (fold_left (fun D g => count_ngram g D) gs D))
    = (zsum (dict_values D) + Z.of_nat (length gs))%Z.
Proof.
  induction gs as [|g r IH]; intros D; cbn [fold_left length]; [lia|].
  rewrite IH, count_ngram_total. lia.
Qed.

Lemma build_model_returns (w0 w : World) (text : str) :
  build_model text w0 = (Ret tt, w) ->
  (1 <= n (self w0))%Z /\ w = built w0 text.
Proof.
  intros H.
  destruct (Z_le_gt_dec (n (self w0)) 0) as [Hle|Hgt].
  - pose proof (build_model_nonpositive w0 text Hle) as Hr.
    rewrite H in Hr. discriminate.
  - split; [lia|]. rewrite build_model_run in H by lia. congruence.
Qed.

(** X6.  What [build_model] does to the n-gram counter, whatever it held
    before: the count of every string [g] grows by the number of full
    n-token windows of the corpus whose join is [g]; a string is a key
    afterwards exactly when it was one before or some window produces it. *)
Theorem model_dict_counts_windows (w0 w : World) (text : str) (g : str) :
  build_model text w0 = (Ret tt, w) ->
  let before := dict_get g (get_model_dictionary (self w0)) in
  let hits := count_str g (counted_ngrams (self w0) (split (self w0) text)) in
  dict_get g (get_model_dictionary (self w))
  = match before, hits with
    | None, O => None
    | _, _ => Some (count_or_zero before + Z.of_nat hits)%Z
    end.
Proof.
  intros H. destruct (build_model_returns w0 w text H) as [Hn ->].
  cbv zeta. unfold get_model_dictionary, built. cbn [self model_dict].
  rewrite loop_counts_dict by assumption. rewrite fold_count_get.
  destruct (dict_get g (model_dict (self w0)));
    destruct (count_str g _); reflexivity.
Qed.

Lemma model_dict_counts_windows_witness :
  dict_get (lit "a b") (get_model_dictionary (self (trained_on 2 false "a b a b a")))
  = Some 2%Z.
Proof.
  apply (model_dict_counts_windows (fresh 2 false)
           (trained_on 2 false "a b a b a") (lit "a b a b a") (lit "a b")).
  vm_compute. reflexivity.
Defined.

(** X7.  The counts of [model_dict] add up to what they added up to before
    the call plus the number of full n-token windows of the corpus, which is
    [len - n + 1], or 0 for a corpus shorter than the window. *)
Theorem model_dict_total_grows_by_windows (w0 w : World) (text : str) :
  build_model text w0 = (Ret tt, w) ->
  zsum (dict_values (get_model_dictionary (self w)))
  = (zsum (dict_values (get_model_dictionary (self w0)))
     + Z.of_nat (length (split (self w0) text) + 1 - Z.to_nat (n (self w0))))%Z.
Proof.
  intros H. destruct (build_model_returns w0 w text H) as [Hn ->].
  unfold get_model_dictionary, built. cbn [self model_dict].
  rewrite loop_counts_dict, fold_count_total by assumption.
  unfold counted_ngrams, range_down. rewrite length_map, length_rev, length_seq.
  f_equal. f_equal. lia.
Qed.

Lemma model_dict_total_grows_by_windows_witness :
  zsum (dict_values (get_model_dictionary (self (trained_on 2 false "a b a b a"))))
  = (zsum (dict_values (get_model_dictionary (self (fresh 2 false))))
     + Z.of_nat (length (split (self (fresh 2 false)) (lit "a b a b a")) + 1
                 - Z.to_nat (n (self (fresh 2 false)))))%Z.
Proof.
  apply (model_dict_total_grows_by_windows (fresh 2 false)
           (trained_on 2 false "a b a b a") (lit "a b a b a")).
  vm_compute. reflexivity.
Defined.

(** ** The context tables of build_model, counted as a whole *)

Lemma zsum_map_dict_set {A} (f : A -> Z) (k : str) (v : A) (d : Dict A) :
  zsum (map (fun kv => f (snd kv)) (dict_set k v d))
  = (zsum (map (fun kv => f (snd kv)) d)
     - (match dict_get k d with Some o => f o | None => 0 end) + f v)%Z.
Proof.
  induction d as [|[k0 v0] r IH]; simpl.
  - rewrite zsum_cons. unfold zsum. simpl. lia.
  - destruct (str_eqb k k0); simpl; rewrite !zsum_cons; [simpl; lia|].
    rewrite IH. simpl. lia.
Qed.

Lemma table_total_bump (c t : str) (tbl : Table) :
  table_total (bump c t tbl) = (table_total tbl + 1)%Z.
Proof.
  unfold table_total, bump.
  destruct (dict_get c tbl) as [d|] eqn:Ed.
  - rewrite (zsum_map_dict_set (fun d => zsum (dict_values d))), Ed, zsum_set.
    destruct (dict_get t d); lia.
  - rewrite (zsum_map_dict_set (fun d => zsum (dict_values d))), Ed.
    change (zsum (dict_values [(t, 1%Z)])) with 1%Z. lia.
Qed.

Lemma zsum_map_list_set {A} (f : A -> Z) (i : nat) (x d : A) (l : list A) :
  (i < length l)%nat ->
  zsum (map f (list_set i x l)) = (zsum (map f l) - f (nth i l d) + f x)%Z.
Proof.
  revert i. induction l as [|y r IH]; intros [|j] H; simpl in *; try lia.
  - rewrite !zsum_cons. lia.
  - rewrite !zsum_cons, IH by lia. lia.
Qed.

Lemma tables_total_record (T : list Table) (e : event) :
  (fst (fst e) < length T)%nat ->
  tables_total (record_event T e) = (tables_total T + 1)%Z.
Proof.
  destruct e as [[k c] t]. cbn [fst]. intros Hk. unfold tables_total, record_event.
  rewrite (zsum_map_list_set table_total k _ [] T Hk), table_total_bump. lia.
Qed.

Lemma tables_total_fold (evs : list event) :
  forall T,
    (forall e, In e evs -> (fst (fst e) < length T)%nat) ->
    tables_total (fold_left record_event evs T)
    = (tables_total T + Z.of_nat (length evs))%Z.
Proof.
  induction evs as [|e r IH]; intros T Hall; cbn [fold_left length]; [lia|].
  rewrite IH.
  - rewrite tables_total_record by (apply Hall; now left). lia.
  - intros e' He'. rewrite record_event_length. apply Hall. now right.
Qed.

Lemma tables_total_empty (N : nat) : tables_total (repeat [] N) = 0%Z.
Proof.
  unfold tables_total. induction N as [|N IH]; [reflexivity|].
  cbn [repeat map]. rewrite zsum_cons, IH. reflexivity.
Qed.

Lemma length_flat_map_sum {A B} (f : A -> list B) (l : list A) :
  Z.of_nat (length (flat_map f l))
  = zsum (map (fun x => Z.of_nat (length (f x))) l).
Proof.
  induction l as [|x r IH]; [reflexivity|].
  cbn [flat_map map]. rewrite length_app, zsum_cons, <- IH. lia.
Qed.

Lemma model_total_embed (m : Model) (T : list Table) :
  context_by_n m = Some (map embed_level T) -> model_total m = tables_total T.
Proof.
  intros H. unfold model_total, tables_total. rewrite H, map_map.
  f_equal. apply map_ext. intros tbl. unfold table_total, embed_level.
  now rewrite map_map.
Qed.

(** X8.  After [build_model], all counts of all context tables together add
    up to the number of windows the loops visit: for every size from 1 to
    [n], one per position at which a window of that size ends, i.e.
    [len + 1 - size] (0 when the corpus is shorter).  No occurrence is lost
    or counted twice, whatever the tokens are. *)
Theorem context_tables_count_every_window (w0 w : World) (text : str) :
  build_model text w0 = (Ret tt, w) ->
  model_total (self w)
  = zsum (map (fun sz => Z.of_nat (length (split (self w0) text) + 1 - sz))
              (seq 1 (Z.to_nat (n (self w0))))).
Proof.
  intros H. destruct (build_model_returns w0 w text H) as [Hn ->].
  set (m := self w0). set (S := split m text).
  rewrite (model_total_embed (self (built w0 text))
             (fst (loop_counts m S (repeat [] (Z.to_nat (n m)), model_dict m)))
             eq_refl).
  rewrite loop_counts_tables, tables_total_fold.
  - rewrite tables_total_empty. unfold events. rewrite length_flat_map_sum.
    cbn [Z.add]. f_equal. apply map_ext_in. intros sz Hsz. apply in_seq in Hsz.
    unfold events_of_size, range_down.
    rewrite length_map, length_rev, length_seq. f_equal. lia.
  - intros e He. rewrite repeat_length.
    apply (events_level_bound m S e (split_tok_ok m text) He).
Qed.

Lemma context_tables_count_every_window_witness :
  model_total (self (trained_on 2 false "a b a b a"))
  = zsum (map (fun sz => Z.of_nat
                           (length (split (self (fresh 2 false)) (lit "a b a b a"))
                            + 1 - sz))
              (seq 1 (Z.to_nat (n (self (fresh 2 false)))))).
Proof.
  apply (context_tables_count_every_window (fresh 2 false)
           (trained_on 2 false "a b a b a") (lit "a b a b a")).
  vm_compute. reflexivity.
Defined.

(** ** Training again *)

Lemma events_same_settings (m m' : Model) (S : list str) :
  n m = n m' -> use_chars m = use_chars m' -> events m S = events m' S.
Proof.
  intros Hn Hc. unfold events, events_of_size, event_at, context_gram,
    split_context_gram, get_ngram_by_last_index, split, join.
  rewrite Hn, Hc. reflexivity.
Qed.

Lemma counted_ngrams_same_settings (m m' : Model) (S : list str) :
  n m = n m' -> use_chars m = use_chars m' ->
  counted_ngrams m S = counted_ngrams m' S.
Proof.
  intros Hn Hc. unfold counted_ngrams, get_ngram_by_last_index.
  rewrite Hn, Hc. reflexivity.
Qed.

Lemma built_tables_same_settings (w0 w0' : World) (text : str) :
  n (self w0) = n (self w0') -> use_chars (self w0) = use_chars (self w0') ->
  context_by_n (self (built w0 text)) = context_by_n (self (built w0' text))
  /\ contexts_prob (self (built w0 text)) = contexts_prob (self (built w0' text)).
Proof.
  intros Hn Hc. unfold built. cbn [self context_by_n contexts_prob].
  rewrite !loop_counts_tables.
  rewrite (split_same_mode (self w0) (self w0') text Hc).
  rewrite (events_same_settings (self w0) (self w0') _ Hn Hc).
  rewrite Hn. split; reflexivity.
Qed.

(** X9.  [build_model] makes [context_by_n] and [contexts_prob] from the
    corpus, the window size and the granularity alone: two objects with the
    same settings end up with the same tables and the same distribution on
    the same corpus, whatever either of them held before the call. *)
Theorem build_model_tables_ignore_history (w0 w0' w w' : World) (text : str) :
  n (self w0) = n (self w0') -> use_chars (self w0) = use_chars (self w0') ->
  build_model text w0 = (Ret tt, w) ->
  build_model text w0' = (Ret tt, w') ->
  context_by_n (self w) = context_by_n (self w')
  /\ contexts_prob (self w) = contexts_prob (self w').
Proof.
  intros Hn Hc H H'.
  destruct (build_model_returns w0 w text H) as [_ ->].
  destruct (build_model_returns w0' w' text H') as [_ ->].
  now apply built_tables_same_settings.
Qed.

Lemma build_model_tables_ignore_history_witness :
  context_by_n (self (trained_on 2 false "a b a b a"))
  = context_by_n (self (snd (build_model (lit "a b a b a")
                               (trained_on 2 false "x y z"))))
  /\ contexts_prob (self (trained_on 2 false "a b a b a"))
     = contexts_prob (self (snd (build_model (lit "a b a b a")
                                   (trained_on 2 false "x y z")))).
Proof.
  apply (build_model_tables_ignore_history (fresh 2 false)
           (trained_on 2 false "x y z") _ _ (lit "a b a b a")).
  - reflexivity.
  - reflexivity.
  - vm_compute. reflexivity.
  - vm_compute. reflexivity.
Defined.

Lemma dict_set_length_present {A} (k : str) (v : A) (d : Dict A) :
  dict_get k d <> None -> length (dict_set k v d) = length d.
Proof.
  induction d as [|[k0 v0] r IH]; simpl; [congruence|].
  destruct (str_eqb k k0); simpl; [reflexivity|]. intros H. now rewrite IH.
Qed.

Lemma fold_count_length (gs : list str) :
  forall D,
    (forall g, In g gs -> dict_get g D <> None) ->
    length (fold_left (fun D g => count_ngram g D) gs D) = length D.
Proof.
  induction gs as [|g r IH]; intros D Hall; [reflexivity|].
  cbn [fold_left]. rewrite IH.
  - unfold count_ngram. apply dict_set_length_present. apply Hall. now left.
  - intros g' Hg'. destruct (str_eqb g' g) eqn:E.
    + apply str_eqb_eq in E. subst g'. rewrite count_ngram_get_same. discriminate.
    + apply str_eqb_neq in E. rewrite count_ngram_get_other by congruence.
      apply Hall. now right.
Qed.

Lemma count_str_In (g : str) (gs : list str) :
  In g gs -> (1 <= count_str g gs)%nat.
Proof.
  intros H. unfold count_str.
  assert (Hin : In g (filter (str_eqb g) gs)).
  { apply filter_In. split; [assumption|apply str_eqb_refl]. }
  destruct (filter (str_eqb g) gs); [destruct Hin|simpl; lia].
Qed.

(** X10.  A second [build_model] on the same corpus, after a first one on a
    model whose [model_dict] was empty: every n-gram count is doubled, while
    [V], [context_by_n] and [contexts_prob] are what the first call left. *)
Theorem second_build_doubles_counts (w0 w1 w2 : World) (text : str) :
  model_dict (self w0) = [] ->
  build_model text w0 = (Ret tt, w1) ->
  build_model text w1 = (Ret tt, w2) ->
  (forall g c, dict_get g (model_dict (self w1)) = Some c ->
               dict_get g (model_dict (self w2)) = Some (2 * c)%Z)
  /\ V (self w2) = V (self w1)
  /\ context_by_n (self w2) = context_by_n (self w1)
  /\ contexts_prob (self w2) = contexts_prob (self w1).
Proof.
  intros Hempty H1 H2.
  destruct (build_model_returns w0 w1 text H1) as [Hn Hw1].
  destruct (build_model_returns w1 w2 text H2) as [Hn1 Hw2].
  assert (Hsn : n (self w1) = n (self w0)) by (now rewrite Hw1).
  assert (Hsc : use_chars (self w1) = use_chars (self w0)) by (now rewrite Hw1).
  set (gs := counted_ngrams (self w0) (split (self w0) text)).
  assert (HD1 : model_dict (self w1)
                = fold_left (fun D g => count_ngram g D) gs []).
  { rewrite Hw1. unfold built. cbn [self model_dict].
    rewrite loop_counts_dict by assumption. now rewrite Hempty. }
  assert (HD2 : model_dict (self w2)
                = fold_left (fun D g => count_ngram g D) gs (model_dict (self w1))).
  { rewrite Hw2. unfold built. cbn [self model_dict].
    rewrite loop_counts_dict by assumption.
    rewrite (split_same_mode (self w1) (self w0) text Hsc).
    now rewrite (counted_ngrams_same_settings (self w1) (self w0) _ Hsn Hsc). }
  split; [|split].
  - intros g c Hg. rewrite HD2, fold_count_get, Hg.
    rewrite HD1, fold_count_get in Hg. cbn [dict_get] in Hg.
    destruct (count_str g gs) as [|k]; [discriminate|].
    injection Hg as <-. cbn [count_or_zero]. f_equal. lia.
  - assert (HV1 : V (self w1) = Some (Z.of_nat (length (model_dict (self w1)))))
      by (rewrite Hw1; reflexivity).
    assert (HV2 : V (self w2) = Some (Z.of_nat (length (model_dict (self w2)))))
      by (rewrite Hw2; reflexivity).
    rewrite HV1, HV2, HD2. rewrite fold_count_length; [reflexivity|].
    intros g Hg. rewrite HD1, fold_count_get. cbn [dict_get].
    pose proof (count_str_In g gs Hg) as Hc.
    destruct (count_str g gs); [lia|discriminate].
  - pose proof (built_tables_same_settings w1 w0 text Hsn Hsc) as [Ha Hb].
    rewrite <- Hw2, <- Hw1 in Ha, Hb. split; assumption.
Qed.

Lemma second_build_doubles_counts_witness :
  let w1 := trained_on 2 false "a b a b a" in
  let w2 := snd (build_model (lit "a b a b a") w1) in
  (forall g c, dict_get g (model_dict (self w1)) = Some c ->
               dict_get g (model_dict (self w2)) = Some (2 * c)%Z)
  /\ V (self w2) = V (self w1)
  /\ context_by_n (self w2) = context_by_n (self w1)
  /\ contexts_prob (self w2) = contexts_prob (self w1).
Proof.
  apply (second_build_doubles_counts (fresh 2 false) _ _ (lit "a b a b a")).
  - reflexivity.
  - vm_compute. reflexivity.
  - vm_compute. reflexivity.
Defined.

(** ** The settings never change *)

Lemma settings_bind {A B} (c : M A) (k : A -> M B) :
  (forall w, settings (snd (c w)) = settings w) ->
  (forall a w, settings (snd (k a w)) = settings w) ->
  forall w, settings (snd (bind c k w)) = settings w.
Proof.
  intros Hc Hk w. unfold bind. specialize (Hc w).
  destruct (c w) as [[a|e] w']; cbn [snd] in *.
  - now rewrite Hk.
  - exact Hc.
Qed.

Lemma settings_level_at (k : Z) (w : World) :
  settings (snd (level_at k w)) = settings w.
Proof. now rewrite level_at_same. Qed.

Lemma settings_store_level (k : Z) (tbl : Level) (w : World) :
  settings (snd (store_level k tbl w)) = settings w.
Proof.
  unfold store_level, bind, get_self, set_context_by_n, bind, get_self,
    put_self, raise.
  now destruct (context_by_n (self w)).
Qed.

Lemma settings_level_getitem (k : Z) (c : str) (w : World) :
  settings (snd (level_getitem k c w)) = settings w.
Proof.
  unfold level_getitem. apply settings_bind; [apply settings_level_at|].
  intros tbl w'. destruct (dict_get c tbl); [reflexivity|].
  apply settings_bind; [apply settings_store_level|]. reflexivity.
Qed.

Lemma settings_level_setitem (k : Z) (c : str) (e : entry) (w : World) :
  settings (snd (level_setitem k c e w)) = settings w.
Proof.
  unfold level_setitem. apply settings_bind; [apply settings_level_at|].
  intros tbl w'. apply settings_store_level.
Qed.

Lemma settings_inner_setitem (k : Z) (c t : str) (v : Z) (w : World) :
  settings (snd (inner_setitem k c t v w)) = settings w.
Proof.
  unfold inner_setitem. apply settings_bind; [apply settings_level_getitem|].
  intros [d|z] w'; [apply settings_level_setitem|reflexivity].
Qed.

Lemma settings_build_step (S : list str) (sz idx : nat) (w : World) :
  settings (snd (build_step S sz idx w)) = settings w.
Proof.
  unfold build_step. apply settings_bind; [reflexivity|]. intros m w1.
  apply settings_bind; [reflexivity|]. intros [c t] w2.
  apply settings_bind; [apply settings_level_at|]. intros tbl w3.
  apply settings_bind.
  - intros w4. destruct (dict_mem c tbl); [|apply settings_level_setitem].
    revert w4. apply settings_bind; [apply settings_level_getitem|]. intros e w5.
    apply settings_bind; [reflexivity|]. intros has w6.
    destruct has; [|apply settings_inner_setitem].
    revert w6. apply settings_bind; [apply settings_level_getitem|]. intros e' w7.
    apply settings_bind; [reflexivity|]. intros cnt w8.
    apply settings_inner_setitem.
  - intros _ w4. destruct (Z.of_nat sz =? n m)%Z; [|reflexivity].
    revert w4. apply settings_bind.
    + intros w5. unfold model_dict_getitem, bind, get_self, set_model_dict,
        bind, get_self, put_self, ret.
      now destruct (dict_get _ (model_dict (self w5))).
    + intros cnt w5. reflexivity.
Qed.

Lemma settings_for_each {A} (body : A -> M unit) (xs : list A) :
  (forall x w, settings (snd (body x w)) = settings w) ->
  forall w, settings (snd (for_each xs body w)) = settings w.
Proof.
  intros Hb. induction xs as [|x r IH]; intros w; [reflexivity|].
  cbn [for_each]. revert w. apply settings_bind; [apply Hb|].
  intros _ w. apply IH.
Qed.

Lemma settings_map_M {A B} (f : A -> M B) (xs : list A) :
  (forall x w, settings (snd (f x w)) = settings w) ->
  forall w, settings (snd (map_M f xs w)) = settings w.
Proof.
  intros Hf. induction xs as [|x r IH]; intros w; [reflexivity|].
  cbn [map_M]. revert w. apply settings_bind; [apply Hf|]. intros y.
  apply settings_bind; [apply IH|]. reflexivity.
Qed.

Lemma settings_build_model (text : str) (w : World) :
  settings (snd (build_model text w)) = settings w.
Proof.
  unfold build_model. revert w.
  apply settings_bind; [reflexivity|]. intros m.
  apply settings_bind; [reflexivity|]. intros _.
  apply settings_bind.
  { apply settings_for_each. intros sz. apply settings_for_each.
    intros idx. apply settings_build_step. }
  intros _. apply settings_bind; [reflexivity|]. intros m1.
  apply settings_bind; [reflexivity|]. intros _.
  apply settings_bind; [apply settings_level_at|]. intros tbl.
  apply settings_bind.
  { apply settings_map_M. intros c.
    apply settings_bind; [apply settings_level_getitem|]. reflexivity. }
  intros sums. apply settings_bind.
  { apply settings_map_M. reflexivity. }
  reflexivity.
Qed.

(** X11.  The window size and the granularity given to the constructor are
    never changed: [get_model_window_size] and the granularity flag read the
    same after [build_model] (also when it raises), after [evaluate] and
    after [generate], on any object. *)
Theorem settings_are_immutable
    (w : World) (text : str) (context : option str) (target : Z) :
  get_model_window_size (self (snd (build_model text w)))
  = get_model_window_size (self w)
  /\ use_chars (self (snd (build_model text w))) = use_chars (self w)
  /\ get_model_window_size (self (snd (evaluate text w)))
     = get_model_window_size (self w)
  /\ use_chars (self (snd (evaluate text w))) = use_chars (self w)
  /\ get_model_window_size (self (snd (generate context target w)))
     = get_model_window_size (self w)
  /\ use_chars (self (snd (generate context target w))) = use_chars (self w).
Proof.
  pose proof (settings_build_model text w) as Hb. unfold settings in Hb.
  injection Hb as Hn Hc. unfold get_model_window_size.
  rewrite evaluate_same, generate_keeps. repeat split; assumption.
Qed.

(** ** The value of evaluate *)

Lemma positive_count_le (d : Dict Z) (t : str) (cnt : Z) :
  positive_dict d -> dict_get t d = Some cnt -> (cnt <= zsum (dict_values d))%Z.
Proof.
  intros [_ Hall]. induction Hall as [|[k v] r Hv Hr IH]; simpl; [discriminate|].
  rewrite zsum_cons. cbn [snd] in Hv.
  assert (H0 : (0 <= zsum (dict_values r))%Z).
  { clear -Hr. induction Hr as [|[k' v'] r' H' _ IH']; simpl.
    - unfold zsum; simpl; lia.
    - rewrite zsum_cons. simpl in *. lia. }
  destruct (str_eqb t k).
  - intros [= <-]. unfold dict_values in *. lia.
  - intros H. specialize (IH H). unfold dict_values in *. lia.
Qed.

Lemma quotient_at_most_one (a b : Z) :
  (1 <= a)%Z -> (a <= b)%Z -> (inject_Z a / inject_Z b <= 1)%Q.
Proof.
  intros Ha Hb. apply Qle_shift_div_r.
  - change 0%Q with (inject_Z 0). rewrite <- Zlt_Qlt. lia.
  - rewrite Qmult_1_l. rewrite <- Zle_Qle. exact Hb.
Qed.

Lemma spec_position_prob_range (m : Model) (S : list str) (i : nat) (q : Q) :
  well_trained m -> spec_position_prob m S i = Ret q -> (0 < q)%Q /\ (q <= 1)%Q.
Proof.
  intros [T [v [HT [Hlen [Hn [Hpos [HV Hv]]]]]]].
  unfold spec_position_prob. cbv zeta.
  set (c := join m (removelast (window m S i))).
  set (t := last (window m S i) []).
  assert (Hvoc : vocabulary m = v) by (unfold vocabulary; now rewrite HV).
  rewrite Hvoc.
  destruct (stored m (length (split m c)) c) as [d|] eqn:Est.
  - assert (Hd : positive_dict d).
    { unfold stored in Est. rewrite HT in Est.
      destruct (nth_error (map embed_level T) (length (split m c))) as [tbl|] eqn:En;
        [|discriminate].
      rewrite nth_error_map in En.
      destruct (nth_error T (length (split m c))) as [tb|] eqn:En'; [|discriminate].
      injection En as <-. rewrite dict_get_embed in Est.
      destruct (dict_get c tb) as [d'|] eqn:Ed; [|discriminate].
      injection Est as <-.
      apply dict_get_In in Ed. apply nth_error_In in En'.
      pose proof (proj1 (Forall_forall _ _) Hpos _ En') as Htb.
      apply (proj1 (Forall_forall _ _) Htb _ Ed). }
    pose proof (zsum_positive d Hd) as Hsum.
    destruct (dict_get t d) as [cnt|] eqn:Et; intros [= <-].
    + pose proof (positive_count d t cnt Hd Et) as Hc.
      pose proof (positive_count_le d t cnt Hd Et) as Hle.
      split; [apply (quotient_positive cnt _ Hc Hsum)|].
      now apply quotient_at_most_one.
    + assert (Hden : (1 <= zsum (dict_values d) + v)%Z) by lia.
      split; [apply (quotient_positive 1 _ (Z.le_refl 1) Hden)|].
      apply quotient_at_most_one; lia.
  - destruct (v =? 0)%Z eqn:Ev; [discriminate|]. intros [= <-].
    assert (Hden : (1 <= 0 + v)%Z) by lia.
    split; [apply (quotient_positive 1 _ (Z.le_refl 1) Hden)|].
    apply quotient_at_most_one; lia.
Qed.

Lemma ln_unit_interval (q : Q) :
  (0 < q)%Q -> (q <= 1)%Q -> (ln (Q2R q) <= 0)%R.
Proof.
  intros Hpos Hle.
  assert (H0 : (0 < Q2R q)%R).
  { apply Qlt_Rlt in Hpos. unfold Q2R at 1 in Hpos. simpl in Hpos.
    rewrite Rmult_0_l in Hpos. exact Hpos. }
  assert (H1 : (Q2R q <= 1)%R).
  { apply Qle_Rle in Hle. unfold Q2R at 2 in Hle. simpl in Hle.
    rewrite Rinv_1, Rmult_1_r in Hle. exact Hle. }
  destruct (Rle_lt_or_eq_dec _ _ H1) as [Hlt|Heq].
  - left. rewrite <- ln_1. now apply ln_increasing.
  - right. rewrite Heq. apply ln_1.
Qed.

Lemma sum_logs_nonpositive (terms : list (Outcome Q)) :
  (forall q, In (Ret q) terms -> (0 < q)%Q /\ (q <= 1)%Q) ->
  forall acc v, sum_logs terms acc = Ret v -> (flt_R v <= flt_R acc)%R.
Proof.
  induction terms as [|t r IH]; intros Hall acc v H.
  - injection H as <-. apply Rle_refl.
  - destruct t as [q|e]; [|discriminate]. cbn [sum_logs] in H.
    apply IH in H; [|intros q' Hq'; apply Hall; now right].
    cbn [flt_R] in H. destruct (Hall q (or_introl eq_refl)) as [Hp Hl].
    pose proof (ln_unit_interval q Hp Hl) as Hln.
    eapply Rle_trans; [exact H|].
    rewrite <- (Rplus_0_r (flt_R acc)) at 2. now apply Rplus_le_compat_l.
Qed.

(** X12.  On a trained model, a value returned by [evaluate] is never
    positive (read as a real number): every term is the log of a quotient in
    (0, 1], because a stored count is at least 1 and at most the total of
    its context, and a smoothing denominator is a positive integer. *)
Theorem evaluate_never_positive (w w' : World) (text : str) (v : flt) :
  trained w -> evaluate text w = (Ret v, w') -> (flt_R v <= 0)%R.
Proof.
  intros Htr H. pose proof (trained_well w Htr) as Hw.
  rewrite (evaluate_run w text Hw) in H. injection H as H _.
  unfold spec_evaluate in H. apply sum_logs_nonpositive in H.
  - cbn [flt_R] in H. exact H.
  - intros q Hq. apply in_map_iff in Hq. destruct Hq as [i [Hi _]].
    apply (spec_position_prob_range (self w) _ i q Hw Hi).
Qed.

Lemma evaluate_never_positive_witness :
  exists v,
    evaluate (lit "a b") (trained_on 2 false "a b a b a")
    = (Ret v, trained_on 2 false "a b a b a")
    /\ (flt_R v <= 0)%R.
Proof.
  assert (Hrun : {v | evaluate (lit "a b") (trained_on 2 false "a b a b a")
                      = (Ret v, trained_on 2 false "a b a b a")}).
  { eexists. vm_compute. reflexivity. }
  destruct Hrun as [v Hv]. exists v. split; [exact Hv|].
  apply (evaluate_never_positive (trained_on 2 false "a b a b a")
           (trained_on 2 false "a b a b a") (lit "a b") v).
  - exists (fresh 2 false), (lit "a b a b a"). vm_compute. reflexivity.
  - exact Hv.
Defined.

(** X13.  Before any [build_model], on an object as the constructor makes
    it with a window size of at least 1 (or in word mode with any size):
    [evaluate("")] returns the integer 0, and [evaluate] of a non-empty text
    raises [TypeError], from subscripting the [None] in [context_by_n]; the
    object is left as it was. *)
Theorem evaluate_before_training (n0 : Z) (chars : bool) (w : World) (text : str) :
  __init__ n0 chars = Ret (self w) ->
  (1 <= n0)%Z \/ chars = false ->
  evaluate [] w = (Ret (Fint 0), w)
  /\ (text <> [] -> evaluate text w = (Raise TypeError, w)).
Proof.
  intros Hinit Hmode. injection Hinit as Hself.
  assert (Hn : n (self w) = n0) by (now rewrite <- Hself).
  assert (Hc : use_chars (self w) = chars) by (now rewrite <- Hself).
  assert (Hctx : context_by_n (self w) = None) by (now rewrite <- Hself).
  split.
  - unfold evaluate. rewrite (bind_ret get_self _ w w (self w) eq_refl).
    assert (Hnil : split (self w) [] = []).
    { unfold split. destruct (use_chars (self w)); reflexivity. }
    rewrite Hnil. reflexivity.
  - intros Hne. unfold evaluate.
    rewrite (bind_ret get_self _ w w (self w) eq_refl).
    set (S := split (self w) text).
    assert (HS : S <> []) by (apply split_not_nil; exact Hne).
    assert (Hrange : range_down (length S) 0
                     = (length S - 1)%nat :: range_down (length S - 1) 0).
    { unfold range_down. rewrite !Nat.sub_0_r.
      destruct S as [|x r]; [contradiction|]. cbn [length].
      replace (Datatypes.S (length r) - 1)%nat with (length r) by lia.
      rewrite seq_S, rev_app_distr. reflexivity. }
    rewrite Hrange. cbn [fold_M]. apply bind_raise.
    unfold evaluate_step. rewrite (bind_ret get_self _ w w (self w) eq_refl).
    assert (Hsplit : exists p,
      split_context_gram (self w)
        (get_ngram_by_last_index (self w) S (length S - 1) None) = Ret p).
    { destruct Hmode as [Hpos| ->].
      - assert (Hlt : (length S - 1 < length S)%nat)
          by (destruct S; [contradiction|simpl; lia]).
        pose proof (split_context_gram_window (self w) S (length S - 1)
                      (Z.to_nat (n (self w))) (split_tok_ok (self w) text)
                      ltac:(lia) Hlt) as Hw.
        cbv zeta in Hw. eexists.
        replace (get_ngram_by_last_index (self w) S (length S - 1) None)
          with (get_ngram_by_last_index (self w) S (length S - 1)
                  (Some (Z.of_nat (Z.to_nat (n (self w)))))).
        + exact Hw.
        + unfold get_ngram_by_last_index.
          replace (Z.of_nat (Z.to_nat (n (self w)))) with (n (self w)) by lia.
          reflexivity.
      - unfold split_context_gram. rewrite Hc. eexists. reflexivity. }
    destruct Hsplit as [[c t] Hp].
    rewrite (bind_ret _ _ w w (c, t)) by (rewrite lift_run; now rewrite Hp).
    apply bind_raise. unfold level_at.
    rewrite (bind_ret get_self _ w w (self w) eq_refl). now rewrite Hctx.
Qed.

Lemma evaluate_before_training_witness :
  evaluate [] (fresh 3 false) = (Ret (Fint 0), fresh 3 false)
  /\ (lit "a b" <> [] ->
      evaluate (lit "a b") (fresh 3 false) = (Raise TypeError, fresh 3 false)).
Proof.
  apply (evaluate_before_training 3 false (fresh 3 false) (lit "a b")).
  - reflexivity.
  - left. lia.
Defined.

(** ** Weighted draws and the next gram *)

Lemma accumulate_length (acc : Q) (ws : list Q) :
  length (accumulate acc ws) = length ws.
Proof.
  revert acc. induction ws as [|x r IH]; intros acc; [reflexivity|].
  cbn [accumulate length]. now rewrite IH.
Qed.

Lemma accumulate_positive (ws : list Q) :
  forall acc, (0 <= acc)%Q -> Forall (fun q => (0 < q)%Q) ws ->
              Forall (fun q => (0 < q)%Q) (accumulate acc ws).
Proof.
  induction ws as [|x r IH]; intros acc Hacc Hall; [constructor|].
  inversion Hall as [|? ? Hx Hr]; subst. cbn [accumulate].
  assert (Hpos : (0 < acc + x)%Q).
  { rewrite <- (Qplus_0_l 0), (Qplus_comm acc x).
    apply Qplus_lt_le_compat; assumption. }
  constructor; [assumption|]. apply IH; [now apply Qlt_le_weak|assumption].
Qed.

Lemma last_Forall {A} (P : A -> Prop) (l : list A) (d : A) :
  l <> [] -> Forall P l -> P (last l d).
Proof.
  intros Hne Hall. apply (proj1 (Forall_forall _ _) Hall). now apply last_In.
Qed.

Lemma bisect_le (cum : list Q) (x : Q) (hi : nat) : (bisect cum x hi <= hi)%nat.
Proof.
  revert cum. induction hi as [|h IH]; intros cum; [destruct cum; simpl; lia|].
  destruct cum as [|c r]; cbn [bisect]; [lia|].
  destruct (Qle_bool c x); [|lia]. specialize (IH r). lia.
Qed.

Lemma choices_weighted_run (population : list str) (weights : list Q) (w : World) :
  population <> [] -> length weights = length population ->
  Forall (fun q => (0 < q)%Q) weights ->
  exists x, In x population
            /\ choices_weighted population weights w = (Ret x, advance w).
Proof.
  intros Hne Hlen Hpos. unfold choices_weighted.
  rewrite accumulate_length, Hlen, Nat.eqb_refl. cbn [negb].
  pose proof (accumulate_positive weights 0 (Qle_refl 0) Hpos) as Hcum.
  destruct (accumulate 0 weights) as [|c r] eqn:Eacc.
  - apply (f_equal (@length Q)) in Eacc. rewrite accumulate_length, Hlen in Eacc.
    destruct population; [contradiction|discriminate].
  - assert (Htot : (0 < last (c :: r) c)%Q)
      by (apply last_Forall; [discriminate|assumption]).
    destruct (Qle_bool (last (c :: r) c) 0) eqn:E.
    + apply Qle_bool_iff in E. exfalso. apply (Qlt_not_le _ _ Htot E).
    + set (u := uniform (random_state w) (drawn (random_state w))).
      assert (Hr : random w = (Ret (u - inject_Z (Qfloor u))%Q, advance w))
        by reflexivity.
      rewrite (bind_ret _ _ w (advance w) _ Hr).
      pose proof (bisect_le (c :: r)
                    ((u - inject_Z (Qfloor u)) * last (c :: r) c)%Q
                    (length population - 1)) as Hb.
      destruct (nth_error population _) as [x|] eqn:En.
      * exists x. split; [|reflexivity]. eapply nth_error_In. exact En.
      * apply nth_error_None in En.
        destruct population; [contradiction|simpl in *; lia].
Qed.

Lemma follower_weights_run (w : World) (K : Z) (lc : str) (d : Dict Z)
    (total : Z) (grams : list str) :
  level_getitem K lc w = (Ret (EDict d), w) ->
  total <> 0%Z ->
  (forall g, In g grams -> dict_get g d <> None) ->
  map_M (fun gram =>
           e2 <- level_getitem K lc ;;
           c <- lift (entry_getitem gram e2) ;;
           lift (py_truediv c total))
        grams w
  = (Ret (map (fun g => (inject_Z (count_or_zero (dict_get g d))
                         / inject_Z total)%Q) grams), w).
Proof.
  intros Hget Htot. induction grams as [|g r IH]; intros Hin; [reflexivity|].
  cbn [map_M map].
  destruct (dict_get g d) as [c|] eqn:Eg;
    [|exfalso; apply (Hin g); [now left|assumption]].
  erewrite bind_ret.
  2:{ rewrite (bind_ret _ _ w w _ Hget).
      rewrite (bind_ret _ _ w w c)
        by (rewrite lift_run; unfold entry_getitem; now rewrite Eg).
      rewrite lift_run. unfold py_truediv.
      destruct (total =? 0)%Z eqn:E; [lia|]. reflexivity. }
  rewrite (bind_ret _ _ w w _ (IH (fun g' Hg' => Hin g' (or_intror Hg')))).
  reflexivity.
Qed.

Lemma well_trained_top (m : Model) (T : list Table) :
  context_by_n m = Some (map embed_level T) ->
  length T = Z.to_nat (n m) -> (1 <= n m)%Z ->
  (Z.to_nat (n m - 1) < length T)%nat /\ (n m - 1 = Z.of_nat (Z.to_nat (n m - 1)))%Z.
Proof. intros _ Hlen Hn. lia. Qed.

Lemma get_next_gram_run (w : World) (context : list str) :
  well_trained (self w) ->
  match stored (self w) (Z.to_nat (n (self w) - 1))
          (lookup_context (self w) context) with
  | None => get_next_gram context w = (Ret None, w)
  | Some d =>
      exists g, In g (dict_keys d)
                /\ get_next_gram context w = (Ret (Some g), advance w)
  end.
Proof.
  intros [T [v [HT [Hlen [Hn [Hpos _]]]]]].
  destruct (well_trained_top (self w) T HT Hlen Hn) as [HK HKz].
  set (K := Z.to_nat (n (self w) - 1)) in *.
  set (lc := lookup_context (self w) context).
  rewrite (stored_embed (self w) T K lc HT HK).
  unfold get_next_gram.
  rewrite (bind_ret get_self _ w w (self w) eq_refl).
  change (if (n (self w) =? 1)%Z then []
          else join (self w) (py_suffix (- (n (self w) - 1)) context)) with lc.
  rewrite HKz.
  rewrite (bind_ret _ _ w w _ (level_at_ok w T K HT HK)).
  rewrite dict_mem_embed. unfold dict_mem.
  destruct (dict_get lc (nth K T [])) as [d|] eqn:Ed; [|reflexivity].
  cbn [negb].
  pose proof (level_getitem_ok w T K lc d HT HK Ed) as Hget.
  pose proof (positive_lookup T K lc d Hpos Ed) as Hd.
  pose proof (zsum_positive d Hd) as Hsum.
  rewrite (bind_ret _ _ w w _ Hget).
  rewrite (bind_ret _ _ w w (dict_keys d) (lift_run _ w)).
  rewrite (bind_ret _ _ w w _ Hget).
  rewrite (bind_ret _ _ w w (zsum (dict_values d)) (lift_run _ w)).
  assert (Hkeys : forall g, In g (dict_keys d) -> dict_get g d <> None).
  { intros g Hg Hnone. apply dict_get_None_keys in Hnone. contradiction. }
  rewrite (bind_ret _ _ w w _
             (follower_weights_run w (Z.of_nat K) lc d (zsum (dict_values d))
                (dict_keys d) Hget ltac:(lia) Hkeys)).
  rewrite (bind_ret _ _ w w _ Hget).
  rewrite (bind_ret _ _ w w (dict_keys d) (lift_run _ w)).
  destruct (choices_weighted_run (dict_keys d)
              (map (fun g => (inject_Z (count_or_zero (dict_get g d))
                              / inject_Z (zsum (dict_values d)))%Q) (dict_keys d)) w)
    as [g [Hin Hc]].
  - destruct Hd as [Hnn _]. destruct d; [contradiction|discriminate].
  - apply length_map.
  - apply Forall_forall. intros q Hq. apply in_map_iff in Hq.
    destruct Hq as [g [<- Hg]].
    destruct (dict_get g d) as [c|] eqn:Eg;
      [|exfalso; now apply (Hkeys g Hg)].
    cbn [count_or_zero].
    apply (quotient_positive c _ (positive_count d g c Hd Eg) Hsum).
  - exists g. split; [assumption|].
    now rewrite (bind_ret _ _ w (advance w) g Hc).
Qed.

(** X14.  [get_next_gram] on a trained model never raises.  It returns
    [None], without a draw, exactly when the lookup context (the join of the
    last [n - 1] tokens; the empty string for a unigram model) is not a key
    of [context_by_n[n-1]]; otherwise it makes one draw and returns a token
    that was observed after that context in training. *)
Theorem next_gram_is_an_observed_follower (w : World) (context : list str) :
  trained w ->
  let m := self w in
  let lc := lookup_context m context in
  (stored m (Z.to_nat (n m - 1)) lc = None ->
   get_next_gram context w = (Ret None, w))
  /\ (forall d, stored m (Z.to_nat (n m - 1)) lc = Some d ->
      exists g, In g (dict_keys d)
                /\ get_next_gram context w = (Ret (Some g), advance w)).
Proof.
  intros Htr m lc.
  pose proof (get_next_gram_run w context (trained_well w Htr)) as H.
  fold m in H. fold lc in H.
  destruct (stored m (Z.to_nat (n m - 1)) lc) as [d|].
  - split; [discriminate|]. now intros d' [= <-].
  - split; [now intros _|discriminate].
Qed.

Lemma next_gram_is_an_observed_follower_witness :
  let w := trained_on 2 false "a b a b a" in
  exists g, In g [lit "b"]
            /\ get_next_gram [lit "x"; lit "a"] w = (Ret (Some g), advance w).
Proof.
  intros w.
  assert (Htr : trained w).
  { exists (fresh 2 false), (lit "a b a b a"). vm_compute. reflexivity. }
  destruct (next_gram_is_an_observed_follower w [lit "x"; lit "a"] Htr) as [_ H].
  apply (H [(lit "b", 2%Z)]). vm_compute. reflexivity.
Defined.

(** ** Generation on a trained model *)

Lemma advance_by_self (k : nat) (w : World) : self (advance_by k w) = self w.
Proof.
  unfold advance_by. induction k as [|k IH]; [reflexivity|].
  cbn [Nat.iter]. exact IH.
Qed.

Lemma advance_by_succ (k : nat) (w : World) :
  advance_by k (advance w) = advance_by (Datatypes.S k) w.
Proof. unfold advance_by. symmetry. apply Nat.iter_succ_r. Qed.

Lemma generate_loop_run (remaining : nat) :
  forall (text : list str) (w : World),
    well_trained (self w) ->
    exists new,
      (length new <= remaining)%nat
      /\ observed_steps (self w) text new
      /\ generate_loop remaining text w
         = (Ret (Some (join (self w) (text ++ new))), advance_by (length new) w)
      /\ ((length new < remaining)%nat ->
          stored (self w) (Z.to_nat (n (self w) - 1))
            (lookup_context (self w) (text ++ new)) = None).
Proof.
  induction remaining as [|r IH]; intros text w Hw.
  - exists []. rewrite app_nil_r. cbn [length generate_loop observed_steps].
    repeat split; try lia.
  - cbn [generate_loop].
    pose proof (get_next_gram_run w text Hw) as Hnext.
    destruct (stored (self w) (Z.to_nat (n (self w) - 1))
                (lookup_context (self w) text)) as [d|] eqn:Est.
    + destruct Hnext as [g [Hg Hrun]].
      rewrite (bind_ret _ _ w (advance w) _ Hrun).
      destruct (IH (text ++ [g]) (advance w) Hw)
        as [new [Hlen [Hobs [Hloop Hstop]]]].
      change (self (advance w)) with (self w) in *.
      exists (g :: new). cbn [length observed_steps].
      rewrite <- app_assoc in Hloop, Hstop. cbn [app] in Hloop, Hstop.
      split; [lia|]. split; [|split].
      * split; [|exact Hobs]. exists d. now split.
      * rewrite Hloop. now rewrite advance_by_succ.
      * intros Hlt. apply Hstop. lia.
    + rewrite (bind_ret _ _ w w _ Hnext).
      exists []. rewrite app_nil_r. cbn [length observed_steps].
      repeat split; try lia. now intros _.
Qed.

Lemma generate_from_seed (w : World) (c : str) (target : Z) :
  generate_from (Some c) target w
  = if (target <? Z.of_nat (length (split (self w) c)))%Z
    then (Ret (Some (join (self w) (py_prefix target (split (self w) c)))), w)
    else generate_loop (Z.to_nat (target - Z.of_nat (length (split (self w) c))))
           (split (self w) c) w.
Proof.
  unfold generate_from. rewrite (bind_ret get_self _ w w (self w) eq_refl).
  cbn [split_opt]. rewrite (bind_ret _ _ w w _ (lift_run _ w)).
  now destruct (target <? _)%Z.
Qed.

Lemma generate_from_returns (w : World) (c : str) (target : Z) :
  well_trained (self w) ->
  exists s w', generate_from (Some c) target w = (Ret (Some s), w').
Proof.
  intros Hw. rewrite generate_from_seed.
  destruct (target <? _)%Z; [eexists; eexists; reflexivity|].
  destruct (generate_loop_run
              (Z.to_nat (target - Z.of_nat (length (split (self w) c))))
              (split (self w) c) w Hw) as [new [_ [_ [Hrun _]]]].
  rewrite Hrun. eexists. eexists. reflexivity.
Qed.

(** X15.  With a seed of at least [n - 1] and at most [target] tokens,
    [generate] on a trained model returns the seed's tokens followed by
    newly drawn ones, joined: never more than [target] tokens in all; every
    new token was observed in training after the [n - 1] tokens before it;
    each new token costs exactly one draw; and the text stops short of
    [target] only where its last [n - 1] tokens are not a stored context. *)
Theorem generate_extends_seed_by_observed_tokens
    (w : World) (seed : str) (target : Z) :
  trained w ->
  let m := self w in
  let tokens := split m seed in
  (n m - 1 <= Z.of_nat (length tokens))%Z ->
  (Z.of_nat (length tokens) <= target)%Z ->
  exists new,
    generate (Some seed) target w
    = (Ret (Some (join m (tokens ++ new))), advance_by (length new) w)
    /\ (Z.of_nat (length (tokens ++ new)) <= target)%Z
    /\ observed_steps m tokens new
    /\ ((Z.of_nat (length (tokens ++ new)) < target)%Z ->
        stored m (Z.to_nat (n m - 1)) (lookup_context m (tokens ++ new)) = None).
Proof.
  intros Htr m tokens Hlong Hle. pose proof (trained_well w Htr) as Hw.
  destruct (generate_loop_run (Z.to_nat (target - Z.of_nat (length tokens)))
              tokens w Hw) as [new [Hlen [Hobs [Hrun Hstop]]]].
  exists new. fold m in Hobs, Hrun, Hstop.
  split; [|split; [|split]].
  - unfold generate. rewrite (bind_ret get_self _ w w (self w) eq_refl).
    fold m. fold tokens.
    replace (target <? Z.of_nat (length tokens))%Z with false by lia.
    replace (Z.of_nat (length tokens) <? n m - 1)%Z with false by lia.
    rewrite generate_from_seed. fold m. fold tokens.
    replace (target <? Z.of_nat (length tokens))%Z with false by lia.
    exact Hrun.
  - rewrite length_app. lia.
  - exact Hobs.
  - intros Hlt. apply Hstop. rewrite length_app in Hlt. lia.
Qed.

Lemma generate_extends_seed_by_observed_tokens_witness :
  let w := trained_on 2 false "a b a b a" in
  let m := self w in
  let tokens := split m (lit "a") in
  exists new,
    generate (Some (lit "a")) 4 w
    = (Ret (Some (join m (tokens ++ new))), advance_by (length new) w)
    /\ (Z.of_nat (length (tokens ++ new)) <= 4)%Z
    /\ observed_steps m tokens new
    /\ ((Z.of_nat (length (tokens ++ new)) < 4)%Z ->
        stored m (Z.to_nat (n m - 1)) (lookup_context m (tokens ++ new)) = None).
Proof.
  apply (generate_extends_seed_by_observed_tokens
           (trained_on 2 false "a b a b a") (lit "a") 4).
  - exists (fresh 2 false), (lit "a b a b a"). vm_compute. reflexivity.
  - vm_compute. discriminate.
  - vm_compute. discriminate.
Defined.

(** X16.  With a seed given, [generate] on a trained model never raises,
    whatever the seed, the target length and the random source are: running
    out of matching contexts ends the text, it is not an error. *)
Theorem generate_with_seed_never_raises (w : World) (seed : str) (target : Z) :
  trained w ->
  exists s w', generate (Some seed) target w = (Ret (Some s), w').
Proof.
  intros Htr. pose proof (trained_well w Htr) as Hw.
  unfold generate. rewrite (bind_ret get_self _ w w (self w) eq_refl).
  destruct (target <? _)%Z.
  - cbn [split_opt]. rewrite (bind_ret _ _ w w _ (lift_run _ w)).
    eexists. eexists. reflexivity.
  - destruct (_ <? n (self w) - 1)%Z; [|now apply generate_from_returns].
    destruct (trained_top_level w Hw) as [tbl [Hl _]].
    destruct (get_initial_context_seeded w seed tbl Hl) as [Hnone Hsome].
    cbv zeta in Hnone, Hsome.
    destruct (filter (fun c => startswith c seed) (dict_keys tbl)) as [|k r] eqn:Ef.
    + rewrite (bind_ret _ _ w w None (Hnone eq_refl)).
      eexists. eexists. reflexivity.
    + destruct (Hsome ltac:(discriminate)) as [c [_ Hc]].
      rewrite (bind_ret _ _ w (advance w) (Some c) Hc).
      apply generate_from_returns. exact Hw.
Qed.

Lemma generate_with_seed_never_raises_witness :
  exists s w',
    generate (Some (lit "zz top")) 7 (trained_on 3 false "ab c d")
    = (Ret (Some s), w').
Proof.
  apply (generate_with_seed_never_raises (trained_on 3 false "ab c d")
           (lit "zz top") 7).
  exists (fresh 3 false), (lit "ab c d"). vm_compute. reflexivity.
Defined.

(** ** Generation without a seed *)

(** X17.  Without a seed, [generate] raises on any object, trained or not,
    whenever the target length is negative or the window size is at most 1:
    the code then calls [self.split(None)], an [AttributeError] in word mode
    and a [TypeError] in character mode.  A unigram model can therefore only
    generate from a given seed.  Nothing is drawn and nothing changes. *)
Theorem generate_without_seed_raises (w : World) (target : Z) :
  (target < 0)%Z \/ (n (self w) <= 1)%Z ->
  generate None target w
  = (Raise (if use_chars (self w) then TypeError else AttributeError), w).
Proof.
  intros H. unfold generate. rewrite (bind_ret get_self _ w w (self w) eq_refl).
  destruct (target <? 0)%Z eqn:Et.
  - reflexivity.
  - destruct H as [H|H]; [lia|].
    replace (0 <? n (self w) - 1)%Z with false by lia.
    unfold generate_from. rewrite (bind_ret get_self _ w w (self w) eq_refl).
    reflexivity.
Qed.

Lemma generate_without_seed_raises_witness :
  generate None 5 (trained_on 1 false "a b a")
  = (Raise AttributeError, trained_on 1 false "a b a").
Proof.
  apply (generate_without_seed_raises (trained_on 1 false "a b a") 5).
  right. vm_compute. discriminate.
Defined.



(** ** The followers of a context form a distribution *)

Lemma dict_set_keys_In {A} (k k' : str) (v : A) (d : Dict A) :
  In k' (dict_keys (dict_set k v d)) -> k' = k \/ In k' (dict_keys d).
Proof.
  induction d as [|[k0 v0] r IH]; simpl.
  - intros [H|[]]. now left.
  - destruct (str_eqb k k0); simpl.
    + intros H. now right.
    + intros [H|H]; [right; now left|].
      destruct (IH H) as [H'|H']; [now left|right; now right].
Qed.

Lemma dict_set_keys_NoDup {A} (k : str) (v : A) (d : Dict A) :
  NoDup (dict_keys d) -> NoDup (dict_keys (dict_set k v d)).
Proof.
  induction d as [|[k0 v0] r IH]; simpl; intros H.
  - constructor; [easy|constructor].
  - inversion H as [|? ? Hnotin Hr]; subst.
    destruct (str_eqb k k0) eqn:E; simpl.
    + constructor; assumption.
    + constructor; [|now apply IH].
      intros Hin. apply dict_set_keys_In in Hin. destruct Hin as [->|Hin].
      * rewrite str_eqb_refl in E. discriminate.
      * contradiction.
Qed.

Lemma bump_distinct (c t : str) (tbl : Table) :
  Forall (fun kv => NoDup (dict_keys (snd kv))) tbl ->
  Forall (fun kv => NoDup (dict_keys (snd kv))) (bump c t tbl).
Proof.
  intros H. unfold bump. destruct (dict_get c tbl) as [d|] eqn:Ed.
  - apply dict_set_Forall; [assumption|]. cbn [snd].
    apply dict_set_keys_NoDup. apply dict_get_In in Ed.
    apply (proj1 (Forall_forall _ _) H _ Ed).
  - apply dict_set_Forall; [assumption|]. cbn [snd].
    constructor; [easy|constructor].
Qed.

Lemma loop_counts_distinct (m : Model) (S : list str) st :
  distinct_keys (fst st) -> distinct_keys (fst (loop_counts m S st)).
Proof.
  unfold loop_counts. generalize (seq 1 (Z.to_nat (n m))) as szs.
  intros szs. revert st. induction szs as [|sz r IH]; intros st H; [assumption|].
  cbn [fold_left]. apply IH.
  generalize (range_down (length S) (sz - 1)) as xs. intros xs. revert st H.
  induction xs as [|x xs IHx]; intros st H; [assumption|].
  cbn [fold_left]. apply IHx. unfold step_counts. cbn [fst].
  destruct (event_at m S sz x) as [[k c] t]. unfold record_event, distinct_keys.
  apply list_set_Forall; [assumption|]. apply bump_distinct.
  apply (nth_Forall (Forall (fun kv => NoDup (dict_keys (snd kv)))));
    [assumption|constructor].
Qed.

Lemma repeat_nil_distinct (N : nat) : distinct_keys (repeat [] N).
Proof.
  unfold distinct_keys. induction N; simpl; constructor; auto.
Qed.

Lemma lookups_are_values (d : Dict Z) :
  NoDup (dict_keys d) ->
  map (fun t => count_or_zero (dict_get t d)) (dict_keys d) = dict_values d.
Proof.
  induction d as [|[k v] r IH]; intros H; [reflexivity|].
  inversion H as [|? ? Hnotin Hr]; subst.
  change (dict_keys ((k, v) :: r)) with (k :: dict_keys r).
  change (dict_values ((k, v) :: r)) with (v :: dict_values r).
  cbn [map dict_get]. rewrite str_eqb_refl. cbn [count_or_zero]. f_equal.
  rewrite <- (IH Hr). apply map_ext_in. intros t Ht.
  destruct (str_eqb t k) eqn:E; [|reflexivity].
  apply str_eqb_eq in E. subst t. contradiction.
Qed.

Lemma get_prob_all_run (w : World) (T : list Table) (c : str) (d : Dict Z) :
  context_by_n (self w) = Some (map embed_level T) ->
  (length (split (self w) c) < length T)%nat ->
  dict_get c (nth (length (split (self w) c)) T []) = Some d ->
  zsum (dict_values d) <> 0%Z ->
  forall ts,
    (forall t, In t ts -> dict_get t d <> None) ->
    map_M (get_prob c) ts w
    = (Ret (map (fun t => (inject_Z (count_or_zero (dict_get t d))
                           / inject_Z (zsum (dict_values d)))%Q) ts), w).
Proof.
  intros HT Hk Hd Hsum ts. induction ts as [|t r IH]; intros Hin; [reflexivity|].
  cbn [map_M map].
  destruct (dict_get t d) as [cnt|] eqn:Et;
    [|exfalso; apply (Hin t); [now left|assumption]].
  erewrite bind_ret.
  2:{ rewrite (get_prob_run w T c t d cnt HT Hk Hd Et). unfold py_truediv.
      destruct (zsum (dict_values d) =? 0)%Z eqn:E; [lia|]. reflexivity. }
  rewrite (bind_ret _ _ w w _ (IH (fun t' Ht' => Hin t' (or_intror Ht')))).
  reflexivity.
Qed.

(** X19.  On a trained model, for a context [c] stored at its own order
    with the inner dict [d]: [get_prob(c, t)] returns for every key [t] of
    [d] without changing anything, each value lies in (0, 1], and the values
    over all keys add up to exactly 1 (as rationals). *)
Theorem follower_probabilities_sum_to_one (w : World) (c : str) (d : Dict Z) :
  trained w ->
  stored (self w) (length (split (self w) c)) c = Some d ->
  exists qs,
    map_M (get_prob c) (dict_keys d) w = (Ret qs, w)
    /\ Forall (fun q => (0 < q)%Q /\ (q <= 1)%Q) qs
    /\ (qsum qs == 1)%Q.
Proof.
  intros Htr Hst. destruct (trained_built w Htr) as [w0 [text [Hn ->]]].
  destruct (stored_built w0 text _ c d Hst) as [Hk Hd].
  set (w := built w0 text) in *. set (m := self w0) in *.
  set (T := fst (loop_counts m (split m text)
                   (repeat [] (Z.to_nat (n m)), model_dict m))) in *.
  assert (HT : context_by_n (self w) = Some (map embed_level T)) by reflexivity.
  assert (Hlen : length T = Z.to_nat (n m)).
  { unfold T. rewrite loop_counts_length. apply repeat_length. }
  assert (Hpos : positive_dict d).
  { eapply positive_lookup; [|exact Hd].
    apply loop_counts_positive, repeat_nil_positive. }
  assert (Hnd : NoDup (dict_keys d)).
  { pose proof (loop_counts_distinct m (split m text)
                  (repeat [] (Z.to_nat (n m)), model_dict m)
                  (repeat_nil_distinct _)) as HD. fold T in HD.
    apply dict_get_In in Hd.
    assert (Hlvl : Forall (fun kv => NoDup (dict_keys (snd kv)))
                     (nth (length (split (self w) c)) T [])).
    { apply (nth_Forall (Forall (fun kv => NoDup (dict_keys (snd kv)))));
        [assumption|constructor]. }
    apply (proj1 (Forall_forall _ _) Hlvl _ Hd). }
  pose proof (zsum_positive d Hpos) as Hsum.
  assert (Hkeys : forall t, In t (dict_keys d) -> dict_get t d <> None).
  { intros t Ht Hnone. apply dict_get_None_keys in Hnone. contradiction. }
  eexists. split; [|split].
  - apply (get_prob_all_run w T c d HT ltac:(lia) Hd ltac:(lia) (dict_keys d) Hkeys).
  - apply Forall_forall. intros q Hq. apply in_map_iff in Hq.
    destruct Hq as [t [<- Ht]].
    destruct (dict_get t d) as [cnt|] eqn:Et; [|exfalso; now apply (Hkeys t Ht)].
    cbn [count_or_zero]. split.
    + apply (quotient_positive cnt _ (positive_count d t cnt Hpos Et) Hsum).
    + apply quotient_at_most_one;
        [apply (positive_count d t cnt Hpos Et)
        |apply (positive_count_le d t cnt Hpos Et)].
  - rewrite <- (map_map (fun t => count_or_zero (dict_get t d))
                  (fun s => (inject_Z s / inject_Z (zsum (dict_values d)))%Q)).
    rewrite (lookups_are_values d Hnd). now apply quotients_sum_to_one.
Qed.

Lemma follower_probabilities_sum_to_one_witness :
  let w := trained_on 3 true "aaab" in
  exists qs,
    map_M (get_prob (lit "aa")) [lit "b"; lit "a"] w = (Ret qs, w)
    /\ Forall (fun q => (0 < q)%Q /\ (q <= 1)%Q) qs
    /\ (qsum qs == 1)%Q.
Proof.
  intros w.
  apply (follower_probabilities_sum_to_one w (lit "aa")
           [(lit "b", 1%Z); (lit "a", 1%Z)]).
  - exists (fresh 3 true), (lit "aaab"). vm_compute. reflexivity.
  - vm_compute. reflexivity.
Defined.

(** ** normalize_text *)

Lemma space_not_punct : is_punct space = false.
Proof. reflexivity. Qed.

Lemma space_is_space (c : ascii) : is_space c = true <-> c = space.
Proof. unfold is_space. apply Ascii.eqb_eq. Qed.

Lemma is_space_isspace (c : ascii) : is_space c = true -> isspace c = true.
Proof. intros H. apply space_is_space in H. now subst. Qed.

Lemma pad_from_spaced (s : str) :
  forall prev,
    spaced (match prev with Some p => is_space p | None => false end)
           (pad_from prev s) = true
    /\ (match prev with Some p => is_punct p | None => false end = true ->
        exists rest, pad_from prev s = space :: rest).
Proof.
  induction s as [|c rest IH]; intros prev.
  - cbn [pad_from]. unfold pattern_matches.
    destruct prev as [p|]; cbn [negb andb orb].
    + destruct (is_punct p) eqn:Ep.
      * rewrite orb_true_r || (destruct (is_space p); cbn [negb andb orb]).
        all: split; [reflexivity|intros _; eexists; reflexivity].
      * rewrite andb_false_r. cbn [orb]. split; [reflexivity|discriminate].
    + split; [reflexivity|discriminate].
  - destruct (IH (Some c)) as [IHs IHh]. cbn [pad_from].
    set (ps := match prev with Some p => is_space p | None => false end) in *.
    set (pp := match prev with Some p => is_punct p | None => false end) in *.
    assert (Hm : pattern_matches prev (Some c)
                 = (negb ps && is_punct c) || (pp && negb (is_space c)))
      by reflexivity.
    rewrite Hm.
    assert (Hc : spaced true (c :: pad_from (Some c) rest) = true).
    { cbn [spaced]. rewrite IHs. destruct (is_punct c) eqn:Ec; [|reflexivity].
      destruct (IHh eq_refl) as [r ->]. reflexivity. }
    assert (Hc' : is_punct c = false ->
                  spaced ps (c :: pad_from (Some c) rest) = true).
    { intros Ec. cbn [spaced]. now rewrite Ec, IHs. }
    destruct (is_punct c) eqn:Ec.
    + destruct ps eqn:Eps; cbn [negb andb orb].
      * assert (Hcs : is_space c = false).
        { destruct (is_space c) eqn:E; [|reflexivity].
          apply space_is_space in E. subst c. discriminate. }
        rewrite Hcs, andb_true_r.
        destruct pp; cbn [app].
        -- split; [|intros _; eexists; reflexivity].
           cbn [spaced]. rewrite space_not_punct.
           change (is_space space) with true. exact Hc.
        -- split; [exact Hc|discriminate].
      * cbn [app]. split; [|intros _; eexists; reflexivity].
        cbn [spaced]. rewrite space_not_punct.
        change (is_space space) with true. exact Hc.
    + rewrite andb_false_r. cbn [orb].
      destruct pp eqn:Epp; cbn [andb].
      * destruct (is_space c) eqn:Ecs; cbn [negb app].
        -- split; [now apply Hc'|]. intros _. apply space_is_space in Ecs.
           subst c. eexists. reflexivity.
        -- split; [|intros _; eexists; reflexivity].
           cbn [spaced]. rewrite space_not_punct.
           change (is_space space) with true.
           cbn [andb]. specialize (Hc' eq_refl). cbn [spaced] in Hc'.
           rewrite Ec in Hc'. cbn [spaced]. rewrite Ec. exact Hc'.
      * cbn [app]. split; [now apply Hc'|discriminate].
Qed.

Lemma spaced_isolated (s : str) :
  forall b, spaced b s = true -> isolated b s = true.
Proof.
  induction s as [|c rest IH]; intros b H; [reflexivity|].
  cbn [spaced isolated] in *. apply andb_true_iff in H. destruct H as [H1 H2].
  rewrite (IH _ H2), andb_true_r.
  destruct (is_punct c); [|reflexivity].
  apply andb_true_iff in H1. destruct H1 as [-> H1].
  destruct rest; [discriminate|exact H1].
Qed.

Lemma isolated_mono (s : str) (b : bool) :
  isolated b s = true -> isolated true s = true.
Proof.
  destruct s as [|c rest]; [reflexivity|]. cbn [isolated].
  destruct (is_punct c); [|trivial]. destruct b; [trivial|discriminate].
Qed.

Lemma isolated_tail (c : ascii) (rest : str) (b : bool) :
  isolated b (c :: rest) = true -> isolated (is_space c) rest = true.
Proof. cbn [isolated]. intros H. now apply andb_true_iff in H. Qed.

Lemma lstrip_isolated (s : str) :
  forall b, isolated b s = true -> isolated true (lstrip s) = true.
Proof.
  induction s as [|c rest IH]; intros b H; [reflexivity|].
  cbn [lstrip]. destruct (isspace c).
  - apply (IH (is_space c)). now apply (isolated_tail c rest b).
  - now apply (isolated_mono _ b).
Qed.

Lemma rstrip_head (s : str) (d : ascii) (kept : str) :
  rstrip s = d :: kept -> exists rest, s = d :: rest.
Proof.
  destruct s as [|c rest]; [discriminate|]. cbn [rstrip].
  destruct (rstrip rest).
  - destruct (isspace c); [discriminate|]. intros [= <- _]. now exists rest.
  - intros [= <- _]. now exists rest.
Qed.

Lemma rstrip_isolated (s : str) :
  forall b, isolated b s = true -> isolated b (rstrip s) = true.
Proof.
  induction s as [|c rest IH]; intros b H; [reflexivity|].
  pose proof (IH _ (isolated_tail c rest b H)) as Hr.
  cbn [rstrip]. cbn [isolated] in H. apply andb_true_iff in H.
  destruct H as [H1 _].
  destruct (rstrip rest) as [|d kept] eqn:E.
  - destruct (isspace c); [reflexivity|]. cbn [isolated next_ok].
    destruct (is_punct c); [|reflexivity].
    apply andb_true_iff in H1. destruct H1 as [-> _]. reflexivity.
  - cbn [isolated] in *. rewrite Hr, andb_true_r.
    destruct (is_punct c); [|reflexivity].
    apply andb_true_iff in H1. destruct H1 as [-> H1]. cbn [andb next_ok].
    destruct (rstrip_head rest d kept E) as [r' ->]. exact H1.
Qed.

Lemma normalized_isolated (text : str) (lower : bool) :
  isolated true (normalize_text text lower true) = true.
Proof.
  unfold normalize_text, strip. apply rstrip_isolated.
  apply (lstrip_isolated _ false). apply spaced_isolated.
  apply (pad_from_spaced _ None).
Qed.

Lemma isolated_tokens (s : str) :
  forall b,
    isolated b s = true ->
    Forall (fun t => forall c, In c t -> is_punct c = true -> t = [c])
           (split_on space s)
    /\ (b = false ->
        forall c, In c (hd [] (split_on space s)) -> is_punct c = false).
Proof.
  induction s as [|c rest IH]; intros b H.
  - cbn. split; [constructor; [intros c []|constructor]|intros _ c []].
  - destruct (IH _ (isolated_tail c rest b H)) as [IHall IHhd].
    cbn [isolated] in H. apply andb_true_iff in H. destruct H as [H1 _].
    cbn [split_on]. fold (is_space c).
    destruct (is_space c) eqn:Ecs.
    + split; [constructor; [intros x []|exact IHall]|intros _ x []].
    + specialize (IHhd eq_refl).
      pose proof (split_on_not_nil space rest) as Hnn.
      destruct (split_on space rest) as [|w ws] eqn:Ers; [contradiction|].
      cbn [hd] in IHhd.
      inversion IHall as [|? ? _ Hws]; subst.
      assert (Hw : is_punct c = true -> w = []).
      { intros Ec. rewrite Ec in H1. apply andb_true_iff in H1.
        destruct H1 as [_ Hnext]. destruct rest as [|d r'].
        - cbn in Ers. now injection Ers as <- _.
        - cbn [next_ok] in Hnext. cbn [split_on] in Ers.
          fold (is_space d) in Ers. rewrite Hnext in Ers.
          now injection Ers as <- _. }
      split.
      * constructor; [|exact Hws]. intros x [<-|Hx] Hp.
        -- now rewrite (Hw Hp).
        -- rewrite (IHhd x Hx) in Hp. discriminate.
      * intros -> x [<-|Hx]; [|now apply IHhd]. cbn [hd].
        destruct (is_punct c); [discriminate|reflexivity].
Qed.

(** X20.  After [normalize_text] with [pad_punc], the word tokenizer makes
    every punctuation mark a token of its own: a token of
    [split(normalize_text(text))] that contains one of the characters
    . , ! ? ( ) @ # $ % ^ & * newline or double quote is that one character. *)
Theorem punctuation_marks_become_tokens
    (m : Model) (text : str) (lower : bool) :
  use_chars m = false ->
  Forall (fun t => forall c, In c t -> is_punct c = true -> t = [c])
         (split m (normalize_text text lower true)).
Proof.
  intros Hm. unfold split. rewrite Hm.
  destruct (str_eqb (normalize_text text lower true) []); [constructor|].
  apply (isolated_tokens _ true). apply normalized_isolated.
Qed.

Lemma punctuation_marks_become_tokens_witness :
  Forall (fun t => forall c, In c t -> is_punct c = true -> t = [c])
         (split (mkModel 3 [] false None None [])
                (normalize_text (lit "Hello, World!") true true)).
Proof.
  apply (punctuation_marks_become_tokens (mkModel 3 [] false None None [])
           (lit "Hello, World!") true).
  reflexivity.
Defined.

Lemma lstrip_head (s : str) (c : ascii) (rest : str) :
  lstrip s = c :: rest -> isspace c = false.
Proof.
  induction s as [|d r IH]; [discriminate|]. cbn [lstrip].
  destruct (isspace d) eqn:E; [exact IH|]. now intros [= <- _].
Qed.

Lemma rstrip_last (s : str) (d : ascii) :
  rstrip s <> [] -> isspace (last (rstrip s) d) = false.
Proof.
  induction s as [|c rest IH]; [easy|]. cbn [rstrip].
  destruct (rstrip rest) as [|k kept] eqn:E.
  - destruct (isspace c) eqn:Ec; [easy|]. intros _. exact Ec.
  - intros _. change (last (c :: k :: kept) d) with (last (k :: kept) d).
    apply IH. discriminate.
Qed.

Lemma normalized_ends (text : str) (lower : bool) (c : ascii) (rest : str) :
  normalize_text text lower true = c :: rest ->
  isspace c = false /\ isspace (last (c :: rest) c) = false.
Proof.
  unfold normalize_text, strip. intros H. split.
  - destruct (rstrip_head _ c rest H) as [r Hr]. now apply lstrip_head in Hr.
  - rewrite <- H. apply rstrip_last. rewrite H. discriminate.
Qed.

(** X21.  With [pad_punc], the result of [normalize_text] neither starts
    nor ends with a whitespace character (it may be empty). *)
Theorem normalized_text_is_stripped (text : str) (lower : bool) (c : ascii) (rest : str) :
  normalize_text text lower true = c :: rest ->
  isspace c = false /\ isspace (last (c :: rest) c) = false.
Proof.
  exact (normalized_ends text lower c rest).
Qed.

Lemma normalized_text_is_stripped_witness :
  isspace "."%char = false
  /\ isspace (last (lit ". a !") "."%char) = false.
Proof.
  apply (normalized_text_is_stripped (lit " .A! ") true "."%char (lit " a !")).
  vm_compute. reflexivity.
Defined.

Lemma filter_pad_from (f : ascii -> bool) (s : str) :
  f space = false -> forall prev, filter f (pad_from prev s) = filter f s.
Proof.
  intros Hf. induction s as [|c rest IH]; intros prev; cbn [pad_from].
  - destruct (pattern_matches prev None); [cbn; now rewrite Hf|reflexivity].
  - rewrite filter_app. cbn [filter]. rewrite IH.
    destruct (pattern_matches prev (Some c)); [cbn; now rewrite Hf|reflexivity].
Qed.

Lemma filter_lstrip (s : str) :
  filter (fun c => negb (isspace c)) (lstrip s)
  = filter (fun c => negb (isspace c)) s.
Proof.
  induction s as [|c rest IH]; [reflexivity|]. cbn [lstrip].
  destruct (isspace c) eqn:E; [|reflexivity]. cbn [filter]. now rewrite E.
Qed.

Lemma filter_rstrip (s : str) :
  filter (fun c => negb (isspace c)) (rstrip s)
  = filter (fun c => negb (isspace c)) s.
Proof.
  induction s as [|c rest IH]; [reflexivity|]. cbn [rstrip filter].
  rewrite <- IH. destruct (rstrip rest) as [|k kept].
  - destruct (isspace c) eqn:E; cbn [filter negb]; [reflexivity|].
    now rewrite E.
  - reflexivity.
Qed.

(** X22.  [normalize_text] with [pad_punc] only adds and removes
    whitespace: the characters of the result that are not whitespace are, in
    the same order, those of the text (lower-cased when [lower] is set). *)
Theorem normalize_text_changes_whitespace_only (text : str) (lower : bool) :
  filter (fun c => negb (isspace c)) (normalize_text text lower true)
  = filter (fun c => negb (isspace c)) (if lower then str_lower text else text).
Proof.
  unfold normalize_text, strip. rewrite filter_rstrip, filter_lstrip.
  now apply filter_pad_from.
Qed.

Lemma lower_char_twice (c : ascii) : lower_char (lower_char c) = lower_char c.
Proof.
  destruct c as [[] [] [] [] [] [] [] []]; reflexivity.
Qed.

Lemma str_lower_twice (s : str) : str_lower (str_lower s) = str_lower s.
Proof.
  unfold str_lower. rewrite map_map. apply map_ext. apply lower_char_twice.
Qed.

Lemma lower_char_isspace (c : ascii) : isspace (lower_char c) = isspace c.
Proof.
  destruct c as [[] [] [] [] [] [] [] []]; reflexivity.
Qed.

Lemma lower_char_is_punct (c : ascii) : is_punct (lower_char c) = is_punct c.
Proof.
  destruct c as [[] [] [] [] [] [] [] []]; reflexivity.
Qed.

Lemma lower_char_is_space (c : ascii) : is_space (lower_char c) = is_space c.
Proof.
  destruct c as [[] [] [] [] [] [] [] []]; reflexivity.
Qed.

Lemma str_lower_pad_from (s : str) :
  forall prev,
    str_lower (pad_from prev s)
    = pad_from (option_map lower_char prev) (str_lower s).
Proof.
  assert (Hm : forall prev next,
    pattern_matches (option_map lower_char prev) (option_map lower_char next)
    = pattern_matches prev next).
  { intros [p|] [c|]; unfold pattern_matches; cbn [option_map];
      now rewrite ?lower_char_is_punct, ?lower_char_is_space. }
  induction s as [|c rest IH]; intros prev.
  - cbn [pad_from str_lower map]. rewrite <- (Hm prev None). cbn [option_map].
    now destruct (pattern_matches _ None).
  - cbn [pad_from str_lower map]. unfold str_lower in *.
    rewrite map_app. cbn [map]. rewrite IH. cbn [option_map].
    rewrite <- (Hm prev (Some c)). cbn [option_map].
    now destruct (pattern_matches _ (Some (lower_char c))).
Qed.

Lemma str_lower_lstrip (s : str) : str_lower (lstrip s) = lstrip (str_lower s).
Proof.
  induction s as [|c rest IH]; [reflexivity|].
  cbn [lstrip str_lower map]. rewrite lower_char_isspace.
  destruct (isspace c); [exact IH|reflexivity].
Qed.

Lemma str_lower_rstrip (s : str) : str_lower (rstrip s) = rstrip (str_lower s).
Proof.
  induction s as [|c rest IH]; [reflexivity|].
  cbn [rstrip str_lower map]. unfold str_lower in IH. rewrite <- IH.
  rewrite lower_char_isspace.
  destruct (rstrip rest) as [|k kept]; [now destruct (isspace c)|reflexivity].
Qed.

Lemma last_cons {A} (c : A) (rest : list A) (d : A) :
  last (c :: rest) d = last rest c.
Proof.
  revert c d. induction rest as [|x r IH]; intros c d; [reflexivity|].
  change (last (c :: x :: r) d) with (last (x :: r) d).
  now rewrite (IH x d), (IH x c).
Qed.

Lemma pad_from_isolated (s : str) :
  forall p,
    (is_punct p = true -> next_ok s = true) ->
    isolated (is_space p) s = true ->
    pad_from (Some p) s = s ++ (if is_punct (last s p) then [space] else []).
Proof.
  induction s as [|c rest IH]; intros p Hp H.
  - cbn [pad_from last app]. unfold pattern_matches.
    rewrite andb_false_r. cbn [orb negb]. now rewrite andb_true_r.
  - cbn [pad_from]. cbn [isolated] in H. apply andb_true_iff in H.
    destruct H as [H1 H2].
    assert (Hno : pattern_matches (Some p) (Some c) = false).
    { unfold pattern_matches. apply orb_false_iff. split.
      - destruct (is_punct c); [|apply andb_false_r].
        apply andb_true_iff in H1. destruct H1 as [-> _]. reflexivity.
      - destruct (is_punct p); [|reflexivity].
        specialize (Hp eq_refl). cbn [next_ok] in Hp. now rewrite Hp. }
    rewrite Hno. cbn [app]. rewrite IH.
    + now rewrite (last_cons c rest p).
    + intros Ec. rewrite Ec in H1. now apply andb_true_iff in H1.
    + exact H2.
Qed.

Lemma lstrip_fixed (c : ascii) (rest : str) :
  isspace c = false -> lstrip (c :: rest) = c :: rest.
Proof. intros H. cbn [lstrip]. now rewrite H. Qed.

Lemma rstrip_app_space (s : str) (d : ascii) :
  isspace d = true -> rstrip (s ++ [d]) = rstrip s.
Proof.
  intros Hd. induction s as [|c rest IH]; cbn [app rstrip].
  - now rewrite Hd.
  - now rewrite IH.
Qed.

Lemma rstrip_fixed (s : str) (d : ascii) :
  s <> [] -> isspace (last s d) = false -> rstrip s = s.
Proof.
  induction s as [|c rest IH]; [easy|]. intros _ Hl.
  destruct rest as [|k r].
  - cbn [rstrip last] in *. now rewrite Hl.
  - change (last (c :: k :: r) d) with (last (k :: r) d) in Hl.
    change (rstrip (c :: k :: r))
      with (match rstrip (k :: r) with
            | [] => if isspace c then [] else [c]
            | kept => c :: kept
            end).
    rewrite IH; [reflexivity|discriminate|exact Hl].
Qed.

Lemma pad_strip_stripped (y : str) :
  isolated true y = true ->
  (forall c rest, y = c :: rest ->
                  isspace c = false /\ isspace (last y c) = false) ->
  strip (pad_from None y) = y.
Proof.
  intros Hiso Hstr. destruct y as [|c rest]; [reflexivity|].
  destruct (Hstr c rest eq_refl) as [Hc Hl].
  cbn [pad_from]. cbn [isolated] in Hiso. apply andb_true_iff in Hiso.
  destruct Hiso as [H1 H2].
  rewrite pad_from_isolated.
  - assert (Hrs : rstrip ((c :: rest)
                          ++ (if is_punct (last rest c) then [space] else []))
                  = c :: rest).
    { rewrite <- (last_cons c rest c) in *.
      destruct (is_punct (last (c :: rest) c)).
      - rewrite rstrip_app_space by reflexivity.
        apply (rstrip_fixed _ c); [discriminate|exact Hl].
      - rewrite app_nil_r. apply (rstrip_fixed _ c); [discriminate|exact Hl]. }
    unfold strip.
    assert (Hsp : isspace space = true) by reflexivity.
    destruct (pattern_matches None (Some c)); cbn [app lstrip];
      rewrite ?Hsp, Hc; exact Hrs.
  - intros Ec. rewrite Ec in H1. now apply andb_true_iff in H1.
  - exact H2.
Qed.

(** X23.  [normalize_text] is idempotent for every choice of its flags:
    normalizing an already normalized text with the same flags returns it
    unchanged. *)
Theorem normalize_text_idempotent (text : str) (lower pad_punc : bool) :
  normalize_text (normalize_text text lower pad_punc) lower pad_punc
  = normalize_text text lower pad_punc.
Proof.
  assert (Hlow : forall t,
    str_lower (strip (pad_from None (str_lower t)))
    = strip (pad_from None (str_lower t))).
  { intros t. unfold strip.
    rewrite str_lower_rstrip, str_lower_lstrip, str_lower_pad_from.
    cbn [option_map]. now rewrite str_lower_twice. }
  destruct pad_punc.
  - set (y := normalize_text text lower true).
    assert (Hy : strip (pad_from None y) = y).
    { apply pad_strip_stripped.
      - apply normalized_isolated.
      - intros c rest E. rewrite E.
        apply (normalized_ends text lower c rest E). }
    unfold normalize_text at 1. destruct lower.
    + replace (str_lower y) with y; [exact Hy|].
      unfold y, normalize_text. symmetry. apply Hlow.
    + exact Hy.
  - unfold normalize_text. destruct lower; [apply str_lower_twice|reflexivity].
Qed.

(** ** Completing a short seed *)

(** X24.  For a trained model and a given seed with fewer than [n - 1]
    tokens and no more tokens than the target length: the candidates for the
    full-order context are the keys of [context_by_n[n-1]] that start with
    the seed as a character string.  With no candidate, [generate] returns
    the seed unchanged, without raising and without a draw; otherwise one
    draw picks a candidate and generation goes on from it.  In character
    mode the candidates are exactly the keys that have the seed's tokens as
    a token prefix. *)
Theorem short_seed_completed_from_startswith_keys
    (w : World) (seed : str) (target : Z) :
  trained w ->
  (Z.of_nat (length (split (self w) seed)) < n (self w) - 1)%Z ->
  (Z.of_nat (length (split (self w) seed)) <= target)%Z ->
  exists keys,
    level_keys (self w) (Z.to_nat (n (self w) - 1)) = Some keys
    /\ (let candidates := filter (fun c => startswith c seed) keys in
        (candidates = [] ->
         generate (Some seed) target w = (Ret (Some seed), w))
        /\ (candidates <> [] ->
            exists c,
              In c candidates
              /\ get_initial_context (Some seed) w = (Ret (Some c), advance w)
              /\ generate (Some seed) target w
                 = generate_from (Some c) target (advance w))
        /\ (use_chars (self w) = true ->
            forall c,
              In c candidates
              <-> In c keys
                  /\ token_prefix (split (self w) seed) (split (self w) c) = true)).
Proof.
  intros Htr Hshort Hle.
  destruct (trained_top_level w (trained_well w Htr)) as [tbl [Hl Hkeys]].
  exists (dict_keys tbl). split; [exact Hkeys|]. cbv zeta.
  destruct (get_initial_context_seeded w seed tbl Hl) as [Hnone Hsome].
  cbv zeta in Hnone, Hsome.
  split; [|split].
  - intros Hnil. rewrite generate_seed_short by assumption.
    now rewrite (bind_ret _ _ w w None (Hnone Hnil)).
  - intros Hne. destruct (Hsome Hne) as [c [Hin Hc]].
    exists c. split; [assumption|]. split; [assumption|].
    rewrite generate_seed_short by assumption.
    now rewrite (bind_ret _ _ w (advance w) (Some c) Hc).
  - intros Hchars c. rewrite filter_In. unfold split. rewrite Hchars.
    now rewrite startswith_token_prefix_chars.
Qed.

Lemma short_seed_completed_from_startswith_keys_witness :
  let w := trained_on 3 false "ab c d" in
  exists c,
    In c [lit "ab c"]
    /\ get_initial_context (Some (lit "a")) w = (Ret (Some c), advance w)
    /\ generate (Some (lit "a")) 5 w = generate_from (Some c) 5 (advance w).
Proof.
  intros w.
  assert (Htr : trained w).
  { exists (fresh 3 false), (lit "ab c d"). vm_compute. reflexivity. }
  destruct (short_seed_completed_from_startswith_keys w (lit "a") 5 Htr)
    as [keys [Hkeys [_ [Hdraw _]]]].
  - vm_compute. reflexivity.
  - vm_compute. discriminate.
  - assert (Hk : keys = [lit "ab c"]).
    { vm_compute in Hkeys. injection Hkeys as <-. reflexivity. }
    subst keys. apply Hdraw. discriminate.
Defined.
